(** * agentable/jsonpath: a shallow embedding of the RFC 9535 evaluator

    The development follows the Go sources:
    - [internal/ast]  (selector.go, segment.go, query.go, filter.go,
      function.go): the AST, its evaluator used inside filters, and the
      comparison helpers [sameType], [equalTo], [lessThan];
    - [jsonpath.go]: the top-level evaluator ([Path.Select],
      [Path.SelectLocated], [sliceIndices], [normalizeSliceBounds]);
    - [internal/lexer], [internal/parser]: scanner and recursive-descent
      parser;
    - [functions]: the built-in functions [match] and [search].

    Go values of static type [any] are embedded as the inductive type [any]
    below; [int64] values are embedded in [Z]. *)

From Stdlib Require Import ZArith List Bool String Ascii Lia Permutation.
From Stdlib Require Import Floats.SpecFloat DecimalString.
Import ListNotations.

Set Warnings "-register-all".

Local Open Scope string_scope.
Local Open Scope list_scope.
Local Open Scope Z_scope.

(** String concatenation, as [strings.Builder] writes and Go [+] do it. *)
Infix "+s+" := String.append (at level 50, left associativity).

(* ================================================================== *)
(** * The Go value domain *)
(* ================================================================== *)

(** A value of Go type [any] as it reaches the evaluator.

    - [Nil]      is the Go [nil] interface: a JSON [null] inside a document
                 (what [json.Unmarshal] produces) and also what the built-in
                 functions return for "nothing";
    - [Nothing]  is [ast.nothing{}], the sentinel returned by
                 [QueryValue.Value] when a singular query selects no node;
    - [JSONNull] is [ast.jsonNull{}], the literal [null] of a filter;
    - [Int]      stands for the Go integer kinds ([int], [int64], ...);
    - [Float]    is a [float64], as an IEEE-754 binary64 [spec_float];
    - [Arr]      is a [[]any]: a JSON array, and also a node list handed to a
                 function;
    - [Obj]      is a [map[string]any], as its members in a fixed sequence
                 (the order in which a [range] visits them is chosen by an
                 oracle, see [ranged]). *)
Inductive any : Type :=
| Nil
| Nothing
| JSONNull
| Bool (b : bool)
| Int (n : Z)
| Float (f : spec_float)
| Str (s : string)
| Arr (l : list any)
| Obj (m : list (string * any)).

(** Induction principle that reaches inside arrays and objects. *)
Section AnyInd.
Variable P : any -> Prop.
Hypothesis HNil : P Nil.
Hypothesis HNothing : P Nothing.
Hypothesis HJSONNull : P JSONNull.
Hypothesis HBool : forall b, P (Bool b).
Hypothesis HInt : forall n, P (Int n).
Hypothesis HFloat : forall f, P (Float f).
Hypothesis HStr : forall s, P (Str s).
Hypothesis HArr : forall l, Forall P l -> P (Arr l).
Hypothesis HObj : forall m, Forall (fun kv => P (snd kv)) m -> P (Obj m).

Fixpoint any_ind' (v : any) : P v :=
  match v with
  | Nil => HNil
  | Nothing => HNothing
  | JSONNull => HJSONNull
  | Bool b => HBool b
  | Int n => HInt n
  | Float f => HFloat f
  | Str s => HStr s
  | Arr l =>
      HArr l ((fix go (l : list any) : Forall P l :=
                 match l with
                 | [] => Forall_nil _
                 | x :: r => Forall_cons _ (any_ind' x) (go r)
                 end) l)
  | Obj m =>
      HObj m ((fix go (m : list (string * any))
                 : Forall (fun kv => P (snd kv)) m :=
                 match m with
                 | [] => Forall_nil _
                 | kv :: r => Forall_cons _ (any_ind' (snd kv)) (go r)
                 end) m)
  end.
End AnyInd.

(** [m[k]] on a Go map: the value stored under [k], if any. *)
Fixpoint map_lookup (k : string) (m : list (string * any)) : option any :=
  match m with
  | [] => None
  | (k', v) :: r => if (k' =? k)%string then Some v else map_lookup k r
  end.

(** [len(x)] as an [int64]. *)
Definition len {A} (l : list A) : Z := Z.of_nat (List.length l).

(** [arr[i]] for an index already known to be within bounds; Go panics
    outside [0, len(arr)), and the model yields [Nil] there. *)
Definition index_at (arr : list any) (i : Z) : any :=
  if i <? 0 then Nil else nth (Z.to_nat i) arr Nil.

(* ================================================================== *)
(** * Machine integers and map iteration *)
(* ================================================================== *)

(** Two's-complement wrap-around of an [int64] result. *)
Definition wrap64 (z : Z) : Z := (z + 2 ^ 63) mod 2 ^ 64 - 2 ^ 63.

(** The largest index the parser accepts: [maxIndex = 2^53 - 1]. *)
Definition maxIndex : Z := 9007199254740991.

(** An index or slice bound as the parser produces it. *)
Definition in_index_range (z : Z) : Prop := - maxIndex <= z <= maxIndex.

(** A Go [range] over a map visits the members in an order the language
    leaves unspecified.  The order is chosen by an oracle that returns, for
    the members of a map, the positions in the order of the visit. *)
Definition range_oracle : Type := list (string * any) -> list nat.

(** The elements of [l] at the positions [idxs], in that order. *)
Definition pick {A} (idxs : list nat) (l : list A) : list A :=
  flat_map (fun i => match nth_error l i with
                     | Some x => [x]
                     | None => []
                     end) idxs.

(** The members of [m] in the order a [range] visits them. *)
Definition ranged (ord : range_oracle) (m : list (string * any))
  : list (string * any) :=
  pick (ord m) m.

(** An oracle is admissible when every visit sees each member once. *)
Definition oracle_ok (ord : range_oracle) : Prop :=
  forall m, Permutation (ord m) (seq 0 (List.length m)).

(** The oracle that visits the members in the stored order. *)
Definition in_order : range_oracle := fun m => seq 0 (List.length m).

Module Ast.

(* ================================================================== *)
(** * filter.go: comparison helpers *)
(* ================================================================== *)

(** The precision and exponent bound of [float64]. *)
Definition prec : Z := 53.
Definition emax : Z := 1024.

(** [isNumeric]: the type switch over the Go integer and float kinds. *)
Definition isNumeric (v : any) : bool :=
  match v with
  | Int _ => true
  | Float _ => true
  | _ => false
  end.

(** [toFloat64]: the conversion [float64(n)] rounds an integer to the
    nearest binary64; a [float64] is returned unchanged. *)
Definition toFloat64 (v : any) : spec_float :=
  match v with
  | Int n => binary_normalize prec emax n 0 false
  | Float f => f
  | _ => S754_zero false
  end.

Definition isNothing (v : any) : bool :=
  match v with Nothing => true | _ => false end.

Definition isJSONNull (v : any) : bool :=
  match v with JSONNull => true | _ => false end.

Definition isNil (v : any) : bool :=
  match v with Nil => true | _ => false end.

(** [sameType]: are the two values compatible for an ordering comparison? *)
Definition sameType (a b : any) : bool :=
  if isNothing a then false
  else if isNothing b then false
  else
    let aIsNull := isJSONNull a || isNil a in
    let bIsNull := isJSONNull b || isNil b in
    if aIsNull || bIsNull then aIsNull && bIsNull
    else if isNumeric a && isNumeric b then true
    else match a with
         | Str _ => match b with Str _ => true | _ => false end
         | Bool _ => match b with Bool _ => true | _ => false end
         | _ => false
         end.

(** The Go interface comparison [a == b] at the end of [equalTo]; it is
    reached only for booleans, strings and a numeric paired with a
    non-numeric value. *)
Definition iface_eq (a b : any) : bool :=
  match a, b with
  | Bool x, Bool y => Bool.eqb x y
  | Str s, Str t => (s =? t)%string
  | Int x, Int y => (x =? y)%Z
  | Float x, Float y => SFeqb x y
  | Nil, Nil => true
  | Nothing, Nothing => true
  | JSONNull, JSONNull => true
  | _, _ => false
  end.

Definition isArr (v : any) : bool :=
  match v with Arr _ => true | _ => false end.

Definition isObj (v : any) : bool :=
  match v with Obj _ => true | _ => false end.

(** [equalTo]: equality with numeric coercion and deep equality. *)
Fixpoint equalTo (a b : any) {struct a} : bool :=
  let aIsNothing := isNothing a in
  let bIsNothing := isNothing b in
  let aIsJSONNull := isJSONNull a in
  let bIsJSONNull := isJSONNull b in
  let aIsNoValue :=
    aIsNothing || (isNil a && negb aIsJSONNull && negb bIsJSONNull) in
  let bIsNoValue :=
    bIsNothing || (isNil b && negb aIsJSONNull && negb bIsJSONNull) in
  if aIsNoValue && bIsNoValue then true
  else if aIsNoValue || bIsNoValue then false
  else if (aIsJSONNull && isNil b) || (isNil a && bIsJSONNull)
          || (aIsJSONNull && bIsJSONNull) then true
  else if aIsJSONNull || bIsJSONNull then false
  else if isNumeric a && isNumeric b then SFeqb (toFloat64 a) (toFloat64 b)
  else
    match a, b with
    | Arr aArr, Arr bArr =>
        if negb (len aArr =? len bArr)%Z then false
        else
          (fix each (xs ys : list any) {struct xs} : bool :=
             match xs, ys with
             | x :: xs', y :: ys' =>
                 if negb (equalTo x y) then false else each xs' ys'
             | _, _ => true
             end) aArr bArr
    | Obj aObj, Obj bObj =>
        if negb (len aObj =? len bObj)%Z then false
        else
          (fix each (kvs : list (string * any)) {struct kvs} : bool :=
             match kvs with
             | [] => true
             | (k, v) :: kvs' =>
                 match map_lookup k bObj with
                 | Some bv => if negb (equalTo v bv) then false else each kvs'
                 | None => false
                 end
             end) aObj
    | _, _ =>
        if isArr a || isArr b || isObj a || isObj b then false
        else iface_eq a b
    end.

(** [lessThan]: strict order on numbers and on strings (byte-wise). *)
Definition lessThan (a b : any) : bool :=
  if isNil a || isNil b then false
  else if isNumeric a && isNumeric b then SFltb (toFloat64 a) (toFloat64 b)
  else match a, b with
       | Str sa, Str sb => (sa <? sb)%string
       | _, _ => false
       end.

(** [CompOp]. *)
Inductive CompOp : Type :=
| Equal | NotEqual | Less | LessEqual | Greater | GreaterEqual.

(** The [switch c.Op] of [CompExpr.Eval], on the two operand values. *)
Definition compare_by (op : CompOp) (left right : any) : bool :=
  match op with
  | Equal => equalTo left right
  | NotEqual => negb (equalTo left right)
  | Less => sameType left right && lessThan left right
  | LessEqual =>
      sameType left right && (lessThan left right || equalTo left right)
  | Greater =>
      sameType left right && negb (lessThan left right)
      && negb (equalTo left right)
  | GreaterEqual => sameType left right && negb (lessThan left right)
  end.

(* ================================================================== *)
(** * selector.go: slice arguments *)
(* ================================================================== *)

(** [SliceArgs]. *)
Record SliceArgs : Type := mkSliceArgs {
  Start : Z;
  End_ : Z;
  Step : Z;
  HasStart : bool;
  HasEnd : bool;
  HasStep : bool
}.

(** The bounds that are present lie in the range the parser enforces. *)
Definition slice_in_range (a : SliceArgs) : Prop :=
  (HasStart a = true -> in_index_range (Start a)) /\
  (HasEnd a = true -> in_index_range (End_ a)) /\
  (HasStep a = true -> in_index_range (Step a)).

(* ================================================================== *)
(** * function.go: function types *)
(* ================================================================== *)

(** [FuncType]. *)
Inductive FuncType : Type := Logical | Value | Nodes.

(** [ArgType]. *)
Inductive ArgType : Type :=
| Literal | QueryArg | FilterArg | LogicalArg | FunctionArg.

Definition FuncType_eqb (a b : FuncType) : bool :=
  match a, b with
  | Logical, Logical | Value, Value | Nodes, Nodes => true
  | _, _ => false
  end.

Definition ArgType_eqb (a b : ArgType) : bool :=
  match a, b with
  | Literal, Literal | QueryArg, QueryArg | FilterArg, FilterArg
  | LogicalArg, LogicalArg | FunctionArg, FunctionArg => true
  | _, _ => false
  end.

(** [ArgConvertsTo]. *)
Definition ArgConvertsTo (arg : ArgType) (target : FuncType) : bool :=
  match arg with
  | Literal => FuncType_eqb target Value
  | QueryArg => FuncType_eqb target Value || FuncType_eqb target Nodes
  | FilterArg => FuncType_eqb target Nodes
  | LogicalArg => FuncType_eqb target Logical
  | FunctionArg => true
  end.

(** The [Function] interface: a value carrying its four methods.
    [Validate] returns [None] for a nil error and the message otherwise. *)
Record Function : Type := mkFunction {
  Name : string;
  ResultType : FuncType;
  Validate : list ArgType -> option string;
  Call : list any -> any
}.

(* ================================================================== *)
(** * The AST: selector.go, segment.go, query.go, filter.go *)
(* ================================================================== *)

(** The tagged union [Selector] is embedded with one constructor per
    [SelectorKind], named after the Go constructor functions.  [LogicalOr]
    is a [[]LogicalAnd] and [LogicalAnd] a [[]BasicExpr]; [*FuncExpr]
    implements [BasicExpr] ([FuncTest]).  The argument expressions of a
    [FuncExpr] are the dynamic types its [Call] switches on. *)
Inductive Selector : Type :=
| NameSelector (name : string)
| IndexSelector (idx : Z)
| SliceSelector (args : SliceArgs)
| WildcardSelector
| FilterSelector (expr : FilterExpr)
with FilterExpr : Type :=
| mkFilterExpr (Or : list (list BasicExpr))
with BasicExpr : Type :=
| ExistExpr (Query : PathQuery)
| NonExistExpr (Query : PathQuery)
| ParenExpr (Expr : list (list BasicExpr))
| NotParenExpr (Expr : list (list BasicExpr))
| NegFuncExpr (Func : FuncExpr)
| CompExpr (Left : CompValue) (Op : CompOp) (Right : CompValue)
| FuncTest (Func : FuncExpr)
with CompValue : Type :=
| LiteralValue (Val : any)
| QueryValue (Query : PathQuery)
| FuncValue (Func : FuncExpr)
with FuncExpr : Type :=
| mkFuncExpr (name : string) (fn : Function) (args : list FuncArg)
             (argTypes : list ArgType)
with FuncArg : Type :=
| ArgQuery (q : PathQuery)
| ArgFunc (f : FuncExpr)
| ArgComp (c : CompValue)
| ArgOther (v : any)
with PathQuery : Type :=
| mkPathQuery (segments : list Segment) (root : bool)
with Segment : Type :=
| mkSegment (selectors : list Selector) (descendant : bool).

Definition LogicalAnd : Type := list BasicExpr.
Definition LogicalOr : Type := list LogicalAnd.

(** [Child] and [Descendant]. *)
Definition Child (sel : list Selector) : Segment := mkSegment sel false.
Definition Descendant (sel : list Selector) : Segment := mkSegment sel true.

(** [NewPathQuery]. *)
Definition NewPathQuery (root : bool) (segments : list Segment) : PathQuery :=
  mkPathQuery segments root.

Definition Selectors (s : Segment) : list Selector :=
  match s with mkSegment sels _ => sels end.

Definition IsDescendant (s : Segment) : bool :=
  match s with mkSegment _ d => d end.

Definition Segments (q : PathQuery) : list Segment :=
  match q with mkPathQuery segs _ => segs end.

Definition IsRoot (q : PathQuery) : bool :=
  match q with mkPathQuery _ r => r end.

Definition Func_of (fe : FuncExpr) : Function :=
  match fe with mkFuncExpr _ fn _ _ => fn end.

(** [Selector.IsSingular]. *)
Definition Selector_IsSingular (s : Selector) : bool :=
  match s with
  | NameSelector _ | IndexSelector _ => true
  | _ => false
  end.

(** [Segment.IsSingular]. *)
Definition Segment_IsSingular (s : Segment) : bool :=
  match s with
  | mkSegment sels d =>
      if d || negb (len sels =? 1) then false
      else match sels with
           | s0 :: _ => Selector_IsSingular s0
           | [] => false
           end
  end.

(** [PathQuery.IsSingular]: the loop over the segments returns [false] at
    the first descendant or non-singular segment. *)
Definition IsSingular (q : PathQuery) : bool :=
  (fix loop (segs : list Segment) : bool :=
     match segs with
     | [] => true
     | s :: r =>
         if IsDescendant s then false
         else if negb (Segment_IsSingular s) then false
         else loop r
     end) (Segments q).

(* ================================================================== *)
(** * The evaluator of package ast *)
(* ================================================================== *)

(** The two loops at the end of [applySlice]:
    [for i := start; i < end; i += step { out = append(out, arr[i]) }] and
    its mirror for a negative step.  The recursion is bounded by [fuel]; the
    callers pass the distance between [start] and [end], which the loop
    cannot exceed while [i += step] does not overflow. *)
Fixpoint slice_up (fuel : nat) (out arr : list any) (i end_ step : Z)
  : list any :=
  match fuel with
  | O => out
  | S fuel' =>
      if i <? end_
      then slice_up fuel' (out ++ [index_at arr i]) arr
                    (wrap64 (i + step)) end_ step
      else out
  end.

Fixpoint slice_down (fuel : nat) (out arr : list any) (i end_ step : Z)
  : list any :=
  match fuel with
  | O => out
  | S fuel' =>
      if i >? end_
      then slice_down fuel' (out ++ [index_at arr i]) arr
                      (wrap64 (i + step)) end_ step
      else out
  end.

(** [Selector.applySlice]. *)
Definition applySlice (a : SliceArgs) (out arr : list any) : list any :=
  let length := len arr in
  if length =? 0 then out
  else
    let start := Start a in
    let end_ := End_ a in
    let step := if negb (HasStep a) then 1 else Step a in
    if step =? 0 then out
    else
      (* defaults based on step direction *)
      let start :=
        if step >? 0 then (if negb (HasStart a) then 0 else start)
        else (if negb (HasStart a) then length - 1 else start) in
      let end_ :=
        if step >? 0 then (if negb (HasEnd a) then length else end_)
        else (if negb (HasEnd a) then - length - 1 else end_) in
      (* negative indices *)
      let start := if start <? 0 then start + length else start in
      let end_ := if end_ <? 0 then end_ + length else end_ in
      if step >? 0 then
        let start := if start <? 0 then 0 else start in
        let start := if start >? length then length else start in
        let end_ := if end_ <? 0 then 0 else end_ in
        let end_ := if end_ >? length then length else end_ in
        slice_up (Z.to_nat (end_ - start)) out arr start end_ step
      else
        let start := if start <? 0 then 0 else start in
        let start := if start >=? length then length - 1 else start in
        let end_ := if end_ <? -1 then -1 else end_ in
        let end_ := if end_ >=? length then length - 1 else end_ in
        slice_down (Z.to_nat (start - end_)) out arr start end_ step.

Section Evaluator.

(** The order in which maps are ranged over during this evaluation. *)
Variable ord : range_oracle.

(** [appendDescendant], for a given way [app] of applying the selectors of
    the segment to one node: first the node itself, then its children.
    The results of the children are appended in the order the [range]
    visits them. *)
Fixpoint descend (app : list any -> any -> list any)
         (out : list any) (node : any) {struct node} : list any :=
  let out := app out node in
  match node with
  | Obj m =>
      out ++ List.concat (pick (ord m)
                          (map (fun kv => descend app [] (snd kv)) m))
  | Arr l => fold_left (fun out v => descend app out v) l out
  | _ => out
  end.

(** The body of [FuncExpr.Eval] once the call has produced [result]:
    [false] unless the function is logical and the result a [bool]. *)
Definition logical_result (fn : Function) (result : any) : bool :=
  if negb (FuncType_eqb (ResultType fn) Logical) then false
  else match result with
       | Bool b => b
       | _ => false
       end.

(** [Selector.Apply], [FilterExpr.Eval] with [LogicalOr.Eval] and
    [LogicalAnd.Eval], the [Eval] methods of the basic expressions, the
    [Value] methods of the comparables, [FuncExpr.Call],
    [PathQuery.Select] and [Segment.Apply] with [appendSelectors]. *)
Fixpoint Selector_Apply (s : Selector) (out : list any) (node root : any)
         {struct s} : list any :=
  match s with
  | NameSelector name =>
      match node with
      | Obj m =>
          match map_lookup name m with
          | Some v => out ++ [v]
          | None => out
          end
      | _ => out
      end
  | IndexSelector idx =>
      match node with
      | Arr arr =>
          let idx := if idx <? 0 then idx + len arr else idx in
          if (idx >=? 0) && (idx <? len arr)
          then out ++ [index_at arr idx]
          else out
      | _ => out
      end
  | SliceSelector a =>
      match node with
      | Arr arr => applySlice a out arr
      | _ => out
      end
  | WildcardSelector =>
      match node with
      | Obj m => out ++ map snd (ranged ord m)
      | Arr n => out ++ n
      | _ => out
      end
  | FilterSelector f =>
      match node with
      | Obj m =>
          out ++ filter (fun v => FilterExpr_Eval f v root)
                        (map snd (ranged ord m))
      | Arr n => out ++ filter (fun v => FilterExpr_Eval f v root) n
      | _ => out
      end
  end
with FilterExpr_Eval (f : FilterExpr) (current root : any) {struct f}
     : bool :=
  match f with
  | mkFilterExpr lo =>
      existsb (fun la =>
                 forallb (fun e => BasicExpr_Eval e current root) la) lo
  end
with BasicExpr_Eval (e : BasicExpr) (current root : any) {struct e}
     : bool :=
  match e with
  | ExistExpr q =>
      if len (Segments q) =? 0 then true
      else len (PathQuery_Select q current root) >? 0
  | NonExistExpr q =>
      if len (Segments q) =? 0 then false
      else len (PathQuery_Select q current root) =? 0
  | ParenExpr lo =>
      existsb (fun la =>
                 forallb (fun e => BasicExpr_Eval e current root) la) lo
  | NotParenExpr lo =>
      negb (existsb (fun la =>
              forallb (fun e => BasicExpr_Eval e current root) la) lo)
  | NegFuncExpr fe =>
      negb (logical_result (Func_of fe) (FuncExpr_Call fe current root))
  | CompExpr l op r =>
      let left := CompValue_Value l current root in
      let right := CompValue_Value r current root in
      compare_by op left right
  | FuncTest fe =>
      logical_result (Func_of fe) (FuncExpr_Call fe current root)
  end
with CompValue_Value (c : CompValue) (current root : any) {struct c}
     : any :=
  match c with
  | LiteralValue v => v
  | QueryValue q =>
      match PathQuery_Select q current root with
      | [n] => n
      | _ => Nothing
      end
  | FuncValue fe => FuncExpr_Call fe current root
  end
with FuncExpr_Call (fe : FuncExpr) (current root : any) {struct fe}
     : any :=
  match fe with
  | mkFuncExpr _ fn args argTypes =>
      let evalArgs :=
        (fix each (args : list FuncArg) (i : nat) {struct args}
           : list any :=
           match args with
           | [] => []
           | a :: rest =>
               FuncArg_eval a (nth_error argTypes i) current root
               :: each rest (S i)
           end) args O in
      Call fn evalArgs
  end
with FuncArg_eval (a : FuncArg) (ty : option ArgType) (current root : any)
     {struct a} : any :=
  match a with
  | ArgQuery q =>
      let nodes := PathQuery_Select q current root in
      match ty with
      | Some FilterArg => Arr nodes
      | _ =>
          if IsSingular q
          then match nodes with
               | [n] => n
               | _ => Nil
               end
          else Arr nodes
      end
  | ArgFunc f => FuncExpr_Call f current root
  | ArgComp c => CompValue_Value c current root
  | ArgOther v => v
  end
with PathQuery_Select (q : PathQuery) (current root : any) {struct q}
     : list any :=
  match q with
  | mkPathQuery segs isRoot =>
      let start := if negb isRoot then current else root in
      fold_left (fun result seg => Segment_Apply seg result root)
                segs [start]
  end
with Segment_Apply (s : Segment) (nodes : list any) (root : any)
     {struct s} : list any :=
  match s with
  | mkSegment sels desc =>
      if len nodes =? 0 then nodes
      else
        let appendSelectors out node :=
          fold_left (fun out sel => Selector_Apply sel out node root)
                    sels out in
        if desc
        then fold_left (fun result node =>
                          descend appendSelectors result node) nodes []
        else fold_left (fun result node => appendSelectors result node)
                       nodes []
  end.

(** [FuncExpr.Eval]. *)
Definition FuncExpr_Eval (fe : FuncExpr) (current root : any) : bool :=
  logical_result (Func_of fe) (FuncExpr_Call fe current root).

(** [appendSelectors] of segment.go. *)
Definition appendSelectors (out : list any) (selectors : list Selector)
           (node root : any) : list any :=
  fold_left (fun out sel => Selector_Apply sel out node root) selectors out.

(** [appendDescendant] of segment.go. *)
Definition appendDescendant (out : list any) (selectors : list Selector)
           (node root : any) : list any :=
  descend (fun out node => appendSelectors out selectors node root)
          out node.

End Evaluator.

(* ================================================================== *)
(** * Canonical strings: the [writeTo] and [String] methods *)
(* ================================================================== *)

(** [strconv.FormatInt(i, 10)]. *)
Definition FormatInt (i : Z) : string :=
  DecimalString.NilZero.string_of_int (Z.to_int i).

Section Canonical.

(** [strconv.Quote] of the Go standard library. *)
Variable Quote : string -> string.

(** [SliceArgs.writeTo]; a [strings.Builder] is the string written so
    far. *)
Definition SliceArgs_writeTo (a : SliceArgs) (buf : string) : string :=
  let buf := if HasStart a then buf +s+ FormatInt (Start a) else buf in
  let buf := buf +s+ ":" in
  let buf := if HasEnd a then buf +s+ FormatInt (End_ a) else buf in
  if HasStep a then buf +s+ ":" +s+ FormatInt (Step a) else buf.

(** [Selector.writeTo]; a filter selector writes a bare [?]. *)
Definition Selector_writeTo (s : Selector) (buf : string) : string :=
  match s with
  | NameSelector name => buf +s+ Quote name
  | IndexSelector idx => buf +s+ FormatInt idx
  | SliceSelector a => SliceArgs_writeTo a buf
  | WildcardSelector => buf +s+ "*"
  | FilterSelector _ => buf +s+ "?"
  end.

(** [Segment.writeTo]. *)
Definition Segment_writeTo (s : Segment) (buf : string) : string :=
  let buf := if IsDescendant s then buf +s+ ".." else buf in
  let buf := buf +s+ "[" in
  let buf :=
    (fix each (sels : list Selector) (i : nat) (buf : string) : string :=
       match sels with
       | [] => buf
       | sel :: rest =>
           let buf := if (0 <? i)%nat then buf +s+ "," else buf in
           each rest (S i) (Selector_writeTo sel buf)
       end) (Selectors s) O buf in
  buf +s+ "]".

(** [PathQuery.writeTo]. *)
Definition PathQuery_writeTo (q : PathQuery) (buf : string) : string :=
  let buf := if IsRoot q then buf +s+ "$" else buf +s+ "@" in
  fold_left (fun buf seg => Segment_writeTo seg buf) (Segments q) buf.

(** [PathQuery.String]. *)
Definition PathQuery_String (q : PathQuery) : string :=
  PathQuery_writeTo q "".

End Canonical.

End Ast.

(* ================================================================== *)
(** * jsonpath.go: the top-level evaluator *)
(* ================================================================== *)

Module JsonPath.

Import Ast.

(** [PathElement], [NormalizedPath] and [LocatedNode]. *)
Inductive PathElement : Type :=
| NameElement (name : string)
| IndexElement (idx : Z).

Definition NormalizedPath : Type := list PathElement.

Record LocatedNode : Type := mkLocatedNode {
  Value : any;
  Path_ : NormalizedPath
}.

(** [extendPath]: a fresh path, the clone of [path] followed by [elem]. *)
Definition extendPath (path : NormalizedPath) (elem : PathElement)
  : NormalizedPath :=
  path ++ [elem].

(** [normalizeIndex]. *)
Definition normalizeIndex (idx : Z) (length : Z) : Z :=
  let idx := if idx <? 0 then idx + length else idx in
  if (idx <? 0) || (idx >=? length) then -1 else idx.

(** [normalizeSliceBounds]. *)
Definition normalizeSliceBounds (start end_ step : Z) (length : Z) : Z * Z :=
  let start :=
    if start <? 0 then
      let start := start + length in
      if start <? 0 then (if step >? 0 then 0 else start) else start
    else if start >=? length then
      (if step <? 0 then length - 1 else start)
    else start in
  let end_ :=
    if end_ <? 0 then
      let end_ := end_ + length in
      if (end_ <? 0) && (step <? 0) then -1 else end_
    else if end_ >? length then length
    else end_ in
  (start, end_).

(** The two loops of [sliceIndices]:
    [for i := start; i < end; i += step { if i >= 0 && i < length {...} }]
    and its mirror, bounded by [fuel] as in [Ast.slice_up]. *)
Fixpoint indices_up (fuel : nat) (indices : list Z) (i end_ step length : Z)
  : list Z :=
  match fuel with
  | O => indices
  | S fuel' =>
      if i <? end_
      then indices_up fuel'
             (if (i >=? 0) && (i <? length) then indices ++ [i] else indices)
             (wrap64 (i + step)) end_ step length
      else indices
  end.

Fixpoint indices_down (fuel : nat) (indices : list Z) (i end_ step length : Z)
  : list Z :=
  match fuel with
  | O => indices
  | S fuel' =>
      if i >? end_
      then indices_down fuel'
             (if (i >=? 0) && (i <? length) then indices ++ [i] else indices)
             (wrap64 (i + step)) end_ step length
      else indices
  end.

(** [sliceIndices]. *)
Definition sliceIndices (args : SliceArgs) (length : Z) : list Z :=
  if length =? 0 then []
  else
    let step := if HasStep args then Step args else 1 in
    if step =? 0 then []
    else
      let '(start, end_) :=
        if step >? 0
        then (if HasStart args then Start args else 0,
              if HasEnd args then End_ args else length)
        else (if HasStart args then Start args else length - 1,
              if HasEnd args then End_ args else - length - 1) in
      let '(start, end_) := normalizeSliceBounds start end_ step length in
      if step >? 0
      then indices_up (Z.to_nat (end_ - start)) [] start end_ step length
      else indices_down (Z.to_nat (start - end_)) [] start end_ step length.

(** [appendSlice]. *)
Definition appendSlice (out arr : list any) (args : SliceArgs) : list any :=
  fold_left (fun out idx => out ++ [index_at arr idx])
            (sliceIndices args (len arr)) out.

(** [appendSliceLocated]. *)
Definition appendSliceLocated (out : list LocatedNode) (arr : list any)
           (path : NormalizedPath) (args : SliceArgs) : list LocatedNode :=
  fold_left (fun out idx =>
               out ++ [mkLocatedNode (index_at arr idx)
                                     (extendPath path (IndexElement idx))])
            (sliceIndices args (len arr)) out.

(** The elements of an array paired with their positions, as
    [for idx, val := range v] yields them. *)
Definition indexed (l : list any) : list (Z * any) :=
  combine (map Z.of_nat (seq 0 (List.length l))) l.

Section Evaluator.

Variable ord : range_oracle.

(** [appendSelector]. *)
Definition appendSelector (out : list any) (sel : Selector)
           (node root : any) : list any :=
  match sel with
  | NameSelector name =>
      match node with
      | Obj m =>
          match map_lookup name m with
          | Some v => out ++ [v]
          | None => out
          end
      | _ => out
      end
  | IndexSelector i =>
      match node with
      | Arr arr =>
          let idx := normalizeIndex i (len arr) in
          if (idx >=? 0) && (idx <? len arr)
          then out ++ [index_at arr idx]
          else out
      | _ => out
      end
  | SliceSelector a =>
      match node with
      | Arr arr => appendSlice out arr a
      | _ => out
      end
  | WildcardSelector =>
      match node with
      | Obj m => out ++ map snd (ranged ord m)
      | Arr v => out ++ v
      | _ => out
      end
  | FilterSelector f =>
      match node with
      | Obj m =>
          out ++ filter (fun val => FilterExpr_Eval ord f val root)
                        (map snd (ranged ord m))
      | Arr v => out ++ filter (fun val => FilterExpr_Eval ord f val root) v
      | _ => out
      end
  end.

(** [appendSelectors]. *)
Definition appendSelectors (out : list any) (selectors : list Selector)
           (node root : any) : list any :=
  fold_left (fun out sel => appendSelector out sel node root) selectors out.

(** [appendDescendant]. *)
Fixpoint appendDescendant (out : list any) (seg : Segment)
         (node root : any) {struct node} : list any :=
  let out := appendSelectors out (Selectors seg) node root in
  match node with
  | Obj m =>
      out ++ List.concat
               (pick (ord m)
                     (map (fun kv => appendDescendant [] seg (snd kv) root)
                          m))
  | Arr v => fold_left (fun out child =>
                          appendDescendant out seg child root) v out
  | _ => out
  end.

(** [applySegment]. *)
Definition applySegment (seg : Segment) (nodes : list any) (root : any)
  : list any :=
  if len nodes =? 0 then nodes
  else if IsDescendant seg
  then fold_left (fun out n => appendDescendant out seg n root) nodes []
  else fold_left (fun out n => appendSelectors out (Selectors seg) n root)
                 nodes [].

(** [appendSelectorLocated]. *)
Definition appendSelectorLocated (out : list LocatedNode) (sel : Selector)
           (node : any) (path : NormalizedPath) (root : any)
  : list LocatedNode :=
  match sel with
  | NameSelector name =>
      match node with
      | Obj m =>
          match map_lookup name m with
          | Some v =>
              out ++ [mkLocatedNode v (extendPath path (NameElement name))]
          | None => out
          end
      | _ => out
      end
  | IndexSelector i =>
      match node with
      | Arr arr =>
          let idx := normalizeIndex i (len arr) in
          if (idx >=? 0) && (idx <? len arr)
          then out ++ [mkLocatedNode (index_at arr idx)
                                     (extendPath path (IndexElement idx))]
          else out
      | _ => out
      end
  | SliceSelector a =>
      match node with
      | Arr arr => appendSliceLocated out arr path a
      | _ => out
      end
  | WildcardSelector =>
      match node with
      | Obj m =>
          out ++ map (fun kv =>
                        mkLocatedNode (snd kv)
                          (extendPath path (NameElement (fst kv))))
                     (ranged ord m)
      | Arr v =>
          out ++ map (fun iv =>
                        mkLocatedNode (snd iv)
                          (extendPath path (IndexElement (fst iv))))
                     (indexed v)
      | _ => out
      end
  | FilterSelector f =>
      match node with
      | Obj m =>
          out ++ map (fun kv =>
                        mkLocatedNode (snd kv)
                          (extendPath path (NameElement (fst kv))))
                     (filter (fun kv => FilterExpr_Eval ord f (snd kv) root)
                             (ranged ord m))
      | Arr v =>
          out ++ map (fun iv =>
                        mkLocatedNode (snd iv)
                          (extendPath path (IndexElement (fst iv))))
                     (filter (fun iv => FilterExpr_Eval ord f (snd iv) root)
                             (indexed v))
      | _ => out
      end
  end.

(** [appendSelectorsLocated]. *)
Definition appendSelectorsLocated (out : list LocatedNode)
           (selectors : list Selector) (node : any) (path : NormalizedPath)
           (root : any) : list LocatedNode :=
  fold_left (fun out sel => appendSelectorLocated out sel node path root)
            selectors out.

(** [appendDescendantLocated]; the loop over an array carries the
    position [idx] of the child. *)
Fixpoint appendDescendantLocated (out : list LocatedNode) (seg : Segment)
         (node : any) (path : NormalizedPath) (root : any) {struct node}
  : list LocatedNode :=
  let out := appendSelectorsLocated out (Selectors seg) node path root in
  match node with
  | Obj m =>
      out ++ List.concat
               (pick (ord m)
                     (map (fun kv =>
                             appendDescendantLocated [] seg (snd kv)
                               (extendPath path (NameElement (fst kv))) root)
                          m))
  | Arr v =>
      (fix each (children : list any) (idx : Z) (out : list LocatedNode)
         {struct children} : list LocatedNode :=
         match children with
         | [] => out
         | child :: rest =>
             each rest (idx + 1)
                  (appendDescendantLocated out seg child
                     (extendPath path (IndexElement idx)) root)
         end) v 0 out
  | _ => out
  end.

(** [applySegmentLocated]. *)
Definition applySegmentLocated (seg : Segment) (nodes : list LocatedNode)
           (root : any) : list LocatedNode :=
  if len nodes =? 0 then nodes
  else if IsDescendant seg
  then fold_left (fun out n =>
                    appendDescendantLocated out seg (Value n) (Path_ n) root)
                 nodes []
  else fold_left (fun out n =>
                    appendSelectorsLocated out (Selectors seg)
                                           (Value n) (Path_ n) root)
                 nodes [].

(** The body of [Path.Select] for a non-nil query:
    [res := []any{input}], then one [applySegment] per segment. *)
Definition selectNodes (q : PathQuery) (input : any) : list any :=
  fold_left (fun res seg => applySegment seg res input)
            (Segments q) [input].

(** The body of [Path.SelectLocated] for a non-nil query. *)
Definition selectLocatedNodes (q : PathQuery) (input : any)
  : list LocatedNode :=
  fold_left (fun res seg => applySegmentLocated seg res input)
            (Segments q) [mkLocatedNode input []].

End Evaluator.

(** What a call does: it returns a value, or it panics (here: on the
    dereference of a nil pointer). *)
Inductive outcome (A : Type) : Type :=
| Returns (a : A)
| Panics.
Arguments Returns {A} a.
Arguments Panics {A}.

Definition bind {A B} (o : outcome A) (k : A -> outcome B) : outcome B :=
  match o with
  | Returns a => k a
  | Panics => Panics
  end.

(** A pointer: [None] is the nil pointer. *)
Definition ptr (A : Type) : Type := option A.

Definition is_nil {A} (p : ptr A) : bool :=
  match p with None => true | Some _ => false end.

(** A method with a pointer receiver that reads a field of the receiver
    panics on the nil pointer. *)
Definition deref {A} (p : ptr A) : outcome A :=
  match p with
  | Some a => Returns a
  | None => Panics
  end.

(** [Path]: the compiled query, a [*ast.PathQuery]. *)
Record Path : Type := mkPath { query : ptr PathQuery }.

(** A Go slice value: [None] is the nil slice. *)
Definition slice (A : Type) : Type := option (list A).

Section PathMethods.

Variable ord : range_oracle.
Variable Quote : string -> string.

(** [Path.Select]. *)
Definition Select (p : Path) (input : any) : outcome (slice any) :=
  if is_nil (query p) then Returns None
  else bind (deref (query p)) (fun q =>
         Returns (Some (selectNodes ord q input))).

(** [Path.SelectLocated]. *)
Definition SelectLocated (p : Path) (input : any)
  : outcome (slice LocatedNode) :=
  if is_nil (query p) then Returns None
  else bind (deref (query p)) (fun q =>
         Returns (Some (selectLocatedNodes ord q input))).

(** [Path.String]. *)
Definition String_ (p : Path) : outcome string :=
  if is_nil (query p) then Returns ""
  else bind (deref (query p)) (fun q => Returns (PathQuery_String Quote q)).

End PathMethods.

End JsonPath.

(* ================================================================== *)
(** * Runes: unicode/utf8 and unicode/utf16 of the Go standard library *)
(* ================================================================== *)

Module Utf8.

Definition RuneError : Z := 0xFFFD.
Definition RuneSelf : Z := 0x80.
Definition MaxRune : Z := 0x10FFFF.

(** A byte of a Go string as a number, and back. *)
Definition byte_of (c : ascii) : Z := Z.of_N (N_of_ascii c).
Definition ascii_of (b : Z) : ascii := ascii_of_N (Z.to_N (b mod 256)).

(** The entry of the table [first] for a leading byte: plain ASCII, an
    invalid leading byte, or the size of the sequence with the range
    accepted for its second byte. *)
Inductive first_info : Type :=
| Ascii_
| Illegal
| Lead (sz : nat) (lo hi : Z).

Definition first (s0 : Z) : first_info :=
  if s0 <? 0x80 then Ascii_
  else if s0 <? 0xC2 then Illegal
  else if s0 <? 0xE0 then Lead 2 0x80 0xBF
  else if s0 =? 0xE0 then Lead 3 0xA0 0xBF
  else if s0 <? 0xED then Lead 3 0x80 0xBF
  else if s0 =? 0xED then Lead 3 0x80 0x9F
  else if s0 <? 0xF0 then Lead 3 0x80 0xBF
  else if s0 =? 0xF0 then Lead 4 0x90 0xBF
  else if s0 <? 0xF4 then Lead 4 0x80 0xBF
  else if s0 =? 0xF4 then Lead 4 0x80 0x8F
  else Illegal.

Definition continuation (b : Z) : bool := (0x80 <=? b) && (b <=? 0xBF).

(** [utf8.DecodeRuneInString]: the first rune of [s] and its width in
    bytes; [(RuneError, 0)] on the empty string and [(RuneError, 1)] on an
    invalid encoding. *)
Definition DecodeRuneInString (s : string) : Z * nat :=
  match s with
  | EmptyString => (RuneError, O)
  | String c0 rest =>
      let s0 := byte_of c0 in
      match first s0 with
      | Ascii_ => (s0, 1%nat)
      | Illegal => (RuneError, 1%nat)
      | Lead sz lo hi =>
          if (String.length s <? sz)%nat then (RuneError, 1%nat)
          else
            match rest with
            | EmptyString => (RuneError, 1%nat)
            | String c1 rest1 =>
                let s1 := byte_of c1 in
                if (s1 <? lo) || (hi <? s1) then (RuneError, 1%nat)
                else if (sz <=? 2)%nat then
                  (Z.lor (Z.shiftl (Z.land s0 0x1F) 6) (Z.land s1 0x3F),
                   2%nat)
                else
                  match rest1 with
                  | EmptyString => (RuneError, 1%nat)
                  | String c2 rest2 =>
                      let s2 := byte_of c2 in
                      if negb (continuation s2) then (RuneError, 1%nat)
                      else if (sz <=? 3)%nat then
                        (Z.lor (Z.lor (Z.shiftl (Z.land s0 0x0F) 12)
                                      (Z.shiftl (Z.land s1 0x3F) 6))
                               (Z.land s2 0x3F), 3%nat)
                      else
                        match rest2 with
                        | EmptyString => (RuneError, 1%nat)
                        | String c3 _ =>
                            let s3 := byte_of c3 in
                            if negb (continuation s3) then (RuneError, 1%nat)
                            else
                              (Z.lor (Z.lor (Z.lor
                                 (Z.shiftl (Z.land s0 0x07) 18)
                                 (Z.shiftl (Z.land s1 0x3F) 12))
                                 (Z.shiftl (Z.land s2 0x3F) 6))
                                 (Z.land s3 0x3F), 4%nat)
                        end
                  end
            end
      end
  end.

Definition bytes (bs : list Z) : string :=
  fold_right (fun b acc => String (ascii_of b) acc) EmptyString bs.

(** [utf8.AppendRune], as the bytes appended. *)
Definition EncodeRune (r : Z) : string :=
  if (0 <=? r) && (r <=? 0x7F) then bytes [r]
  else if (0 <=? r) && (r <=? 0x7FF) then
    bytes [Z.lor 0xC0 (Z.shiftr r 6); Z.lor 0x80 (Z.land r 0x3F)]
  else
    let r := if (r <? 0) || (MaxRune <? r)
                || ((0xD800 <=? r) && (r <=? 0xDFFF))
             then RuneError else r in
    if r <=? 0xFFFF then
      bytes [Z.lor 0xE0 (Z.shiftr r 12);
             Z.lor 0x80 (Z.land (Z.shiftr r 6) 0x3F);
             Z.lor 0x80 (Z.land r 0x3F)]
    else
      bytes [Z.lor 0xF0 (Z.shiftr r 18);
             Z.lor 0x80 (Z.land (Z.shiftr r 12) 0x3F);
             Z.lor 0x80 (Z.land (Z.shiftr r 6) 0x3F);
             Z.lor 0x80 (Z.land r 0x3F)].

(** [utf16.IsSurrogate]. *)
Definition IsSurrogate (r : Z) : bool := (0xD800 <=? r) && (r <? 0xE000).

(** [utf16.DecodeRune]. *)
Definition DecodeSurrogates (r1 r2 : Z) : Z :=
  if (0xD800 <=? r1) && (r1 <? 0xDC00) && (0xDC00 <=? r2) && (r2 <? 0xE000)
  then Z.lor (Z.shiftl (r1 - 0xD800) 10) (r2 - 0xDC00) + 0x10000
  else RuneError.

End Utf8.

(* ================================================================== *)
(** * internal/lexer *)
(* ================================================================== *)

(** [Kind]. *)
Module Kind.

Inductive t : Type :=
| Invalid | EOF | Dollar | At | Dot | DotDot | LeftBracket | RightBracket
| LeftParen | RightParen | Star | Question | Comma | Colon
| Equal | NotEqual | Less | LessEqual | Greater | GreaterEqual
| And | Or | Not | Ident | Int | Number | String | True | False | Null.

Definition eqb (a b : t) : bool :=
  match a, b with
  | Invalid, Invalid | EOF, EOF | Dollar, Dollar | At, At | Dot, Dot
  | DotDot, DotDot | LeftBracket, LeftBracket | RightBracket, RightBracket
  | LeftParen, LeftParen | RightParen, RightParen | Star, Star
  | Question, Question | Comma, Comma | Colon, Colon | Equal, Equal
  | NotEqual, NotEqual | Less, Less | LessEqual, LessEqual
  | Greater, Greater | GreaterEqual, GreaterEqual | And, And | Or, Or
  | Not, Not | Ident, Ident | Int, Int | Number, Number | String, String
  | True, True | False, False | Null, Null => true
  | _, _ => false
  end.

End Kind.

Module Lexer.

(** [Token]: [Value] is the parsed content of a string token and the
    message of an invalid token. *)
Record Token : Type := mkToken {
  Kind_ : Kind.t;
  Start : nat;
  End_ : nat;
  Value : string
}.

(** [Token.Val]: the raw source text [src[t.Start:t.End]]. *)
Definition Val (t : Token) (src : string) : string :=
  substring (Start t) (End_ t - Start t) src.

(** [Lexer]; [r] is the current rune, [-1] at the end of the input. *)
Record Lexer : Type := mkLexer {
  src : string;
  r : Z;
  rPos : nat;
  nextPos : nat
}.

(** The rune of an ASCII character. *)
Definition ch (c : ascii) : Z := Utf8.byte_of c.

Definition byte_at (s : string) (i : nat) : Z :=
  match String.get i s with
  | Some c => Utf8.byte_of c
  | None => 0
  end.

(** [s[i:]]. *)
Definition from (s : string) (i : nat) : string :=
  substring i (String.length s - i) s.

(** The rune at byte offset [pos], with its width. *)
Definition rune_at (s : string) (pos : nat) : Z * nat :=
  let b := byte_at s pos in
  if b >=? Utf8.RuneSelf then Utf8.DecodeRuneInString (from s pos)
  else (b, 1%nat).

(** [Lexer.next]. *)
Definition next (l : Lexer) : Lexer :=
  if (nextPos l <? String.length (src l))%nat then
    let '(r, w) := rune_at (src l) (nextPos l) in
    mkLexer (src l) r (nextPos l) (nextPos l + w)
  else
    mkLexer (src l) (-1) (String.length (src l)) (nextPos l).

(** [Lexer.peek]. *)
Definition peek (l : Lexer) : Z :=
  if (nextPos l <? String.length (src l))%nat
  then fst (rune_at (src l) (nextPos l))
  else -1.

(** [New]. *)
Definition New (s : string) : Lexer := next (mkLexer s (-1) O O).

(** [Lexer.errToken]. *)
Definition errToken (l : Lexer) (start : nat) (msg : string)
  : Token * Lexer :=
  (mkToken Kind.Invalid start (rPos l) msg,
   mkLexer (src l) (-1) (rPos l) (nextPos l)).

(** [isBlankSpace], [isDigit], [isNameFirst], [isNameChar], [isUnescaped]
    and [hexVal]. *)
Definition isBlankSpace (r : Z) : bool :=
  (r =? ch " ") || (r =? 9) || (r =? 10) || (r =? 13).

Definition isDigit (r : Z) : bool := (ch "0" <=? r) && (r <=? ch "9").

Definition isNameFirst (r : Z) : bool :=
  ((r >=? ch "a") && (r <=? ch "z"))
  || ((r >=? ch "A") && (r <=? ch "Z"))
  || (r =? ch "_")
  || ((r >=? 0x80) && (r <=? 0xD7FF))
  || ((r >=? 0xE000) && (r <=? 0x10FFFF)).

Definition isNameChar (r : Z) : bool := isNameFirst r || isDigit r.

Definition isUnescaped (r quote : Z) : bool :=
  if r =? quote then false
  else ((r >=? 0x20) && (r <=? 0x5B))
       || ((r >=? 0x5D) && (r <=? 0xD7FF))
       || ((r >=? 0xE000) && (r <=? 0x10FFFF)).

Definition hexVal (r : Z) : Z :=
  if (ch "0" <=? r) && (r <=? ch "9") then r - ch "0"
  else if (ch "a" <=? r) && (r <=? ch "f") then r - ch "a" + 10
  else if (ch "A" <=? r) && (r <=? ch "F") then r - ch "A" + 10
  else -1.

(** A loop [for cond(l.r) { l.next() }].  Every iteration moves the
    lexer forward by at least one byte, so the callers' bound, one more
    than the length of the source, is never reached. *)
Fixpoint skip_while (cond : Z -> bool) (fuel : nat) (l : Lexer) : Lexer :=
  match fuel with
  | O => l
  | S fuel' => if cond (r l) then skip_while cond fuel' (next l) else l
  end.

Definition bound (l : Lexer) : nat := S (String.length (src l)).

(** [Lexer.scanIdent]. *)
Definition scanIdent (l : Lexer) : Token * Lexer :=
  let start := rPos l in
  let l := skip_while isNameChar (bound l) l in
  let raw := substring start (rPos l - start) (src l) in
  let kind :=
    if (raw =? "true")%string then Kind.True
    else if (raw =? "false")%string then Kind.False
    else if (raw =? "null")%string then Kind.Null
    else Kind.Ident in
  (mkToken kind start (rPos l) "", l).

(** [Lexer.scanNumber]. *)
Definition scanNumber (l : Lexer) : Token * Lexer :=
  let start := rPos l in
  (* optional leading minus *)
  let '(l, bad) :=
    if r l =? ch "-" then
      let l := next l in (l, negb (isDigit (r l)))
    else (l, false) in
  if bad then errToken l start "expected digit after '-'"
  else
    (* integer part *)
    let '(l, bad) :=
      if r l =? ch "0" then
        let l := next l in (l, isDigit (r l))
      else (skip_while isDigit (bound l) l, false) in
    if bad then errToken l start "leading zeros not allowed"
    else
      (* optional fraction *)
      let '(l, kind, bad) :=
        if r l =? ch "." then
          let l := next l in
          if negb (isDigit (r l)) then (l, Kind.Number, true)
          else (skip_while isDigit (bound l) l, Kind.Number, false)
        else (l, Kind.Int, false) in
      if bad then errToken l start "expected digit after '.'"
      else
        (* optional exponent *)
        let '(l, kind, bad) :=
          if (r l =? ch "e") || (r l =? ch "E") then
            let l := next l in
            let l := if (r l =? ch "+") || (r l =? ch "-")
                     then next l else l in
            if negb (isDigit (r l)) then (l, Kind.Number, true)
            else (skip_while isDigit (bound l) l, Kind.Number, false)
          else (l, kind, false) in
        if bad then errToken l start "expected digit in exponent"
        else (mkToken kind start (rPos l) "", l).

(** [Lexer.scanHex4]: the code point of four hex digits, or [-1]. *)
Fixpoint scanHex (n : nat) (acc : Z) (l : Lexer) : Z * Lexer :=
  match n with
  | O => (acc, l)
  | S n' =>
      let h := hexVal (r l) in
      if h <? 0 then (-1, l)
      else scanHex n' (acc * 16 + h) (next l)
  end.

Definition scanHex4 (l : Lexer) : Z * Lexer := scanHex 4 0 l.

(** [Lexer.scanUnicodeEscape]: [None] when the escape is invalid. *)
Definition scanUnicodeEscape (l : Lexer) (buf : string)
  : option string * Lexer :=
  let l := next l in
  let '(r1, l) := scanHex4 l in
  if r1 <? 0 then (None, l)
  else if negb (Utf8.IsSurrogate r1)
  then (Some (buf +s+ Utf8.EncodeRune r1), l)
  else if r1 >=? 0xDC00 then (None, l)
  else if negb (r l =? ch "\") then (None, l)
  else
    let l := next l in
    if negb (r l =? ch "u") then (None, l)
    else
      let l := next l in
      let '(low, l) := scanHex4 l in
      if low <? 0 then (None, l)
      else
        let decoded := Utf8.DecodeSurrogates r1 low in
        if decoded =? Utf8.RuneError then (None, l)
        else (Some (buf +s+ Utf8.EncodeRune decoded), l).

(** [Lexer.scanEscape]. *)
Definition scanEscape (l : Lexer) (quote : Z) (buf : string)
  : option string * Lexer :=
  let l := next l in
  let c := r l in
  if c =? quote then (Some (buf +s+ Utf8.EncodeRune quote), next l)
  else if c =? ch "b" then (Some (buf +s+ Utf8.bytes [8]), next l)
  else if c =? ch "f" then (Some (buf +s+ Utf8.bytes [12]), next l)
  else if c =? ch "n" then (Some (buf +s+ Utf8.bytes [10]), next l)
  else if c =? ch "r" then (Some (buf +s+ Utf8.bytes [13]), next l)
  else if c =? ch "t" then (Some (buf +s+ Utf8.bytes [9]), next l)
  else if c =? ch "/" then (Some (buf +s+ "/"), next l)
  else if c =? ch "\" then (Some (buf +s+ "\"), next l)
  else if c =? ch "u" then scanUnicodeEscape l buf
  else (None, l).

(** The loop of [Lexer.scanString]. *)
Fixpoint scanString_loop (fuel : nat) (l : Lexer) (start : nat) (quote : Z)
         (buf : string) : Token * Lexer :=
  match fuel with
  | O => errToken l start "unterminated string"
  | S fuel' =>
      if r l >=? 0 then
        if r l =? quote then
          let l := next l in
          (mkToken Kind.String start (rPos l) buf, l)
        else if r l =? ch "\" then
          match scanEscape l quote buf with
          | (Some buf, l) => scanString_loop fuel' l start quote buf
          | (None, l) => errToken l start "invalid escape sequence"
          end
        else if isUnescaped (r l) quote then
          scanString_loop fuel' (next l) start quote
                          (buf +s+ Utf8.EncodeRune (r l))
        else errToken l start "invalid character in string"
      else errToken l start "unterminated string"
  end.

(** [Lexer.scanString]. *)
Definition scanString (l : Lexer) : Token * Lexer :=
  let start := rPos l in
  let quote := r l in
  scanString_loop (bound l) (next l) start quote "".

(** A token of one rune, and a token of one or two runes. *)
Definition one (k : Kind.t) (l : Lexer) : Token * Lexer :=
  let start := rPos l in
  let l := next l in
  (mkToken k start (rPos l) "", l).

Definition two (l : Lexer) (second : Z) (k2 : Kind.t)
           (otherwise : Lexer -> Token * Lexer) : Token * Lexer :=
  let start := rPos l in
  if peek l =? second then
    let l := next (next l) in
    (mkToken k2 start (rPos l) "", l)
  else otherwise (next l).

(** [Lexer.Scan]. *)
Definition Scan (l : Lexer) : Token * Lexer :=
  let l := skip_while isBlankSpace (bound l) l in
  if r l <? 0 then (mkToken Kind.EOF (rPos l) (rPos l) "", l)
  else
    let start := rPos l in
    let c := r l in
    let tok k l := (mkToken k start (rPos l) "", l) in
    if c =? ch "$" then one Kind.Dollar l
    else if c =? ch "@" then one Kind.At l
    else if c =? ch "[" then one Kind.LeftBracket l
    else if c =? ch "]" then one Kind.RightBracket l
    else if c =? ch "(" then one Kind.LeftParen l
    else if c =? ch ")" then one Kind.RightParen l
    else if c =? ch "*" then one Kind.Star l
    else if c =? ch "?" then one Kind.Question l
    else if c =? ch "," then one Kind.Comma l
    else if c =? ch ":" then one Kind.Colon l
    else if c =? ch "." then two l (ch ".") Kind.DotDot (tok Kind.Dot)
    else if c =? ch "=" then
      two l (ch "=") Kind.Equal (fun l => errToken l start "unexpected '='")
    else if c =? ch "!" then two l (ch "=") Kind.NotEqual (tok Kind.Not)
    else if c =? ch "<" then two l (ch "=") Kind.LessEqual (tok Kind.Less)
    else if c =? ch ">" then
      two l (ch "=") Kind.GreaterEqual (tok Kind.Greater)
    else if c =? ch "&" then
      two l (ch "&") Kind.And (fun l => errToken l start "unexpected '&'")
    else if c =? ch "|" then
      two l (ch "|") Kind.Or (fun l => errToken l start "unexpected '|'")
    else if (c =? 34) || (c =? ch "'") then scanString l
    else if c =? ch "-" then scanNumber l
    else if isDigit c then scanNumber l
    else if isNameFirst c then scanIdent l
    else errToken (next l) start "unexpected character".

(** The loop of [parser.New]: scan until [EOF] or an invalid token. *)
Fixpoint scan_all (fuel : nat) (l : Lexer) (tokens : list Token)
  : list Token :=
  match fuel with
  | O => tokens
  | S fuel' =>
      let '(tok, l) := Scan l in
      let tokens := tokens ++ [tok] in
      if Kind.eqb (Kind_ tok) Kind.EOF || Kind.eqb (Kind_ tok) Kind.Invalid
      then tokens
      else scan_all fuel' l tokens
  end.

(** The tokens of [src], up to and including [EOF] or the invalid token. *)
Definition tokenize (src : string) : list Token :=
  scan_all (S (String.length src)) (New src) [].

End Lexer.

(* ================================================================== *)
(** * internal/parser *)
(* ================================================================== *)

Module Parser.

Import Ast.

(** The errors of the parser. *)
Inductive error : Type :=
| ErrLexer (msg : string) (pos : nat)
| ErrParseEnd (msg : string)
| ErrParsePosition (msg : string) (pos : nat)
| ErrWhitespace (msg : string)
| ErrUnknownFunction (name : string)
| ErrInvalidFunction (name : string)
| ErrValidate (name msg : string)
| ErrInteger (text : string)
| ErrFloat (text : string).

(** What a parsing function does at a read position: it returns a value
    and the new position, or an error.  [OutOfFuel] is the model running
    out of its recursion bound, which [Parse] never does (see
    [Parse_within_bound]). *)
Inductive result (A : Type) : Type :=
| Ok (a : A) (pos : nat)
| Err (e : error)
| OutOfFuel.
Arguments Ok {A} a pos.
Arguments Err {A} e.
Arguments OutOfFuel {A}.

Definition P (A : Type) : Type := nat -> result A.

Definition ret {A} (a : A) : P A := fun pos => Ok a pos.

Definition throw {A} (e : nat -> error) : P A := fun pos => Err (e pos).

Definition bind {A B} (m : P A) (k : A -> P B) : P B :=
  fun pos =>
    match m pos with
    | Ok a pos' => k a pos'
    | Err e => Err e
    | OutOfFuel => OutOfFuel
    end.

Notation "x <- m ;; k" := (bind m (fun x => k))
  (at level 61, m at next level, right associativity).
Notation "m ;;; k" := (bind m (fun _ => k))
  (at level 61, right associativity).

(** An entry of the registry [map[string]any]: a value that implements
    [ast.Function], or some other value. *)
Inductive entry : Type :=
| IsFunction (fn : Function)
| NotFunction.

Fixpoint lookup (name : string) (funcs : list (string * entry))
  : option entry :=
  match funcs with
  | [] => None
  | (k, v) :: rest => if (k =? name)%string then Some v else lookup name rest
  end.

(** [strconv.ParseInt(s, 10, 64)]: an optional sign and decimal digits;
    [None] is a syntax or range error. *)
Fixpoint digits_value (s : string) (acc : Z) : option Z :=
  match s with
  | EmptyString => Some acc
  | String c rest =>
      let d := Utf8.byte_of c in
      if Lexer.isDigit d then digits_value rest (acc * 10 + (d - 48))
      else None
  end.

Definition ParseInt (s : string) : option Z :=
  let '(neg, body) :=
    match s with
    | String "-" rest => (true, rest)
    | String "+" rest => (false, rest)
    | _ => (false, s)
    end in
  match body with
  | EmptyString => None
  | _ =>
      match digits_value body 0 with
      | Some n =>
          let n := if neg then - n else n in
          if (- 2 ^ 63 <=? n) && (n <? 2 ^ 63) then Some n else None
      | None => None
      end
  end.

(** The first byte of a string is ['-']. *)
Definition starts_with_minus (s : string) : bool :=
  match s with
  | String "-" _ => true
  | _ => false
  end.

Section Parsing.

(** The fields of [Parser]: the read position is the state of [P]. *)
Variable src : string.
Variable tokens : list Lexer.Token.
Variable funcs : list (string * entry).

(** [strconv.ParseFloat(s, 64)] of the Go standard library; [None] is an
    error. *)
Variable ParseFloat : string -> option spec_float.

Definition zeroToken (k : Kind.t) : Lexer.Token := Lexer.mkToken k O O "".

(** [Parser.peek], [isAtEnd], [previous] and [check] read the state. *)
Definition peek (pos : nat) : Lexer.Token :=
  nth pos tokens (zeroToken Kind.EOF).

Definition isAtEnd (pos : nat) : bool :=
  (List.length tokens <=? pos)%nat
  || Kind.eqb (Lexer.Kind_ (peek pos)) Kind.EOF.

Definition previous (pos : nat) : Lexer.Token :=
  if (0 <? pos)%nat && (pos <=? List.length tokens)%nat
  then nth (pos - 1) tokens (zeroToken Kind.Invalid)
  else zeroToken Kind.Invalid.

Definition check_at (kind : Kind.t) (pos : nat) : bool :=
  if isAtEnd pos then false
  else Kind.eqb (Lexer.Kind_ (peek pos)) kind.

(** [Parser.check]. *)
Definition check (kind : Kind.t) : P bool :=
  fun pos => Ok (check_at kind pos) pos.

(** [Parser.advance]. *)
Definition advance : P Lexer.Token :=
  fun pos =>
    let pos := if negb (isAtEnd pos) then S pos else pos in
    Ok (previous pos) pos.

(** [Parser.match], always called with one kind. *)
Definition match_ (kind : Kind.t) : P bool :=
  fun pos =>
    if check_at kind pos then (advance ;;; ret true) pos
    else Ok false pos.

(** [Parser.error]. *)
Definition error_at (msg : string) (pos : nat) : error :=
  let tok := peek pos in
  if Kind.eqb (Lexer.Kind_ tok) Kind.EOF then ErrParseEnd msg
  else ErrParsePosition msg (Lexer.Start tok).

Definition error_ {A} (msg : string) : P A := throw (error_at msg).

Definition get_previous : P Lexer.Token := fun pos => Ok (previous pos) pos.
Definition get_peek : P Lexer.Token := fun pos => Ok (peek pos) pos.
Definition atEnd : P bool := fun pos => Ok (isAtEnd pos) pos.

(** The check of [parseDescendantSegment], [parseDotChild] and
    [parseFunctionExpr] that no blank space follows the token [tok]. *)
Definition no_space_after (tok : Lexer.Token) (msg : string) : P unit :=
  fun pos =>
    if negb (isAtEnd pos)
       && (Lexer.End_ tok <? Lexer.Start (peek pos))%nat
    then Err (error_at msg pos)
    else Ok tt pos.

(** [Parser.checkCompOp]. *)
Definition checkCompOp : P bool :=
  fun pos =>
    Ok (check_at Kind.Equal pos || check_at Kind.NotEqual pos
        || check_at Kind.Less pos || check_at Kind.LessEqual pos
        || check_at Kind.Greater pos || check_at Kind.GreaterEqual pos) pos.

(** [Parser.parseCompOp]. *)
Definition parseCompOp : P CompOp :=
  b <- match_ Kind.Equal ;; if b then ret Equal else
  b <- match_ Kind.NotEqual ;; if b then ret NotEqual else
  b <- match_ Kind.Less ;; if b then ret Less else
  b <- match_ Kind.LessEqual ;; if b then ret LessEqual else
  b <- match_ Kind.Greater ;; if b then ret Greater else
  b <- match_ Kind.GreaterEqual ;; if b then ret GreaterEqual else
  ret Equal.

(** [Parser.parseLiteralValue]. *)
Definition parseLiteralValue : P any :=
  b <- match_ Kind.String ;;
  if b then (t <- get_previous ;; ret (Str (Lexer.Value t))) else
  b <- match_ Kind.Int ;;
  if b then
    (t <- get_previous ;;
     match ParseInt (Lexer.Val t src) with
     | Some n => ret (Int n)
     | None => throw (fun _ => ErrInteger (Lexer.Val t src))
     end) else
  b <- match_ Kind.Number ;;
  if b then
    (t <- get_previous ;;
     match ParseFloat (Lexer.Val t src) with
     | Some f => ret (Float f)
     | None => throw (fun _ => ErrFloat (Lexer.Val t src))
     end) else
  b <- match_ Kind.True ;; if b then ret (Bool true) else
  b <- match_ Kind.False ;; if b then ret (Bool false) else
  b <- match_ Kind.Null ;; if b then ret JSONNull else
  error_ "expected literal value".

(** The test of [parseBasicExpr] for a literal at the read position. *)
Definition check_literal : P bool :=
  fun pos =>
    Ok (check_at Kind.String pos || check_at Kind.Int pos
        || check_at Kind.Number pos || check_at Kind.True pos
        || check_at Kind.False pos || check_at Kind.Null pos) pos.

(** An integer token as an index or a slice bound: the integer itself,
    never [-0], within [[-maxIndex, maxIndex]]. *)
Definition parseBound (tok : Lexer.Token) : P Z :=
  match ParseInt (Lexer.Val tok src) with
  | None => throw (fun _ => ErrInteger (Lexer.Val tok src))
  | Some n =>
      if (n =? 0) && starts_with_minus (Lexer.Val tok src)
      then error_ "-0 is not allowed"
      else if (n <? - maxIndex) || (n >? maxIndex)
      then error_ "index out of range"
      else ret n
  end.

(** [Parser.parseSlice]. *)
Definition parseSlice (start : Z) (hasStart : bool) : P Selector :=
  hasEnd <- check Kind.Int ;;
  end_ <- (if hasEnd
           then (endTok <- advance ;; parseBound endTok)
           else ret 0) ;;
  colon <- match_ Kind.Colon ;;
  hasStep <- (if colon then check Kind.Int else ret false) ;;
  step <- (if hasStep
           then (stepTok <- advance ;; parseBound stepTok)
           else ret 0) ;;
  ret (SliceSelector (mkSliceArgs start end_ step hasStart hasEnd hasStep)).

(** [Parser.parseIndexOrSlice]. *)
Definition parseIndexOrSlice : P Selector :=
  startTok <- advance ;;
  start <- parseBound startTok ;;
  colon <- match_ Kind.Colon ;;
  if colon then parseSlice start true
  else ret (IndexSelector start).

(** A member name in dot notation: an identifier or a keyword. *)
Definition check_name : P bool :=
  fun pos =>
    Ok (check_at Kind.Ident pos || check_at Kind.True pos
        || check_at Kind.False pos || check_at Kind.Null pos) pos.

(** [Parser.parseDotChild]. *)
Definition parseDotChild : P Selector :=
  dotToken <- get_previous ;;
  no_space_after dotToken "whitespace not allowed after ." ;;;
  star <- match_ Kind.Star ;;
  if star then ret WildcardSelector
  else
    name <- check_name ;;
    if name then (t <- advance ;; ret (NameSelector (Lexer.Val t src)))
    else error_ "expected * or identifier after .".

(** The argument types [parseFunctionExpr] gives the arguments. *)
Definition argType_of (a : FuncArg) : ArgType :=
  match a with
  | ArgQuery q => if IsSingular q then QueryArg else FilterArg
  | ArgFunc _ => FunctionArg
  | _ => Literal
  end.

(** [probe[i] = ast.FilterArg] on a copy of [argTypes]. *)
Fixpoint set_nth (i : nat) (argTypes : list ArgType) (v : ArgType)
  : list ArgType :=
  match argTypes, i with
  | [], _ => []
  | _ :: rest, O => v :: rest
  | t :: rest, S i' => t :: set_nth i' rest v
  end.

Definition is_nil_error (e : option string) : bool :=
  match e with None => true | Some _ => false end.

(** The second loop of [parseFunctionExpr]: a singular query argument is
    marked [FilterArg] when the function also validates with a node list
    at its place.  [argTypes] is updated in place while the loop runs. *)
Fixpoint resolveQueryArgs (fn : Function) (n : nat) (i : nat)
         (argTypes : list ArgType) : list ArgType :=
  match n with
  | O => argTypes
  | S n' =>
      let argTypes :=
        match nth_error argTypes i with
        | Some QueryArg =>
            let probe := set_nth i argTypes FilterArg in
            if is_nil_error (Validate fn probe) then probe else argTypes
        | _ => argTypes
        end in
      resolveQueryArgs fn n' (S i) argTypes
  end.

(** The end of [parseFunctionExpr], once the arguments are parsed: the
    lookup in the registry, the validation and the resolution of the
    argument types. *)
Definition finishFunctionExpr (name : string) (args : list FuncArg)
  : P FuncExpr :=
  match lookup name funcs with
  | None => throw (fun _ => ErrUnknownFunction name)
  | Some NotFunction => throw (fun _ => ErrInvalidFunction name)
  | Some (IsFunction funcObj) =>
      let argTypes := map argType_of args in
      match Validate funcObj argTypes with
      | Some msg => throw (fun _ => ErrValidate name msg)
      | None =>
          let argTypes :=
            resolveQueryArgs funcObj (List.length argTypes) O argTypes in
          ret (mkFuncExpr (Name funcObj) funcObj args argTypes)
      end
  end.

(** The mutually recursive parsing functions.  [fuel] bounds the depth of
    the recursion; the loops [for { ... }] are recursive calls. *)
Fixpoint parseSegments (fuel : nat) (segments : list Segment)
         {struct fuel} : P (list Segment) :=
  match fuel with
  | O => fun _ => OutOfFuel
  | S fuel =>
      e <- atEnd ;;
      if e then ret segments
      else
        b <- match_ Kind.DotDot ;;
        if b then
          (sel <- parseDescendantSegment fuel ;;
           parseSegments fuel (segments ++ [sel]))
        else
          b <- match_ Kind.LeftBracket ;;
          if b then
            (sel <- parseBracketedSelection fuel [] ;;
             parseSegments fuel (segments ++ [Child sel]))
          else
            b <- match_ Kind.Dot ;;
            if b then
              (sel <- parseDotChild ;;
               parseSegments fuel (segments ++ [Child [sel]]))
            else ret segments
  end
with parseDescendantSegment (fuel : nat) {struct fuel} : P Segment :=
  match fuel with
  | O => fun _ => OutOfFuel
  | S fuel =>
      dotDotToken <- get_previous ;;
      no_space_after dotDotToken "whitespace not allowed after .." ;;;
      b <- match_ Kind.LeftBracket ;;
      if b then
        (sel <- parseBracketedSelection fuel [] ;; ret (Descendant sel))
      else
        b <- match_ Kind.Star ;;
        if b then ret (Descendant [WildcardSelector])
        else
          name <- check_name ;;
          if name
          then (t <- advance ;;
                ret (Descendant [NameSelector (Lexer.Val t src)]))
          else error_ "expected [, *, or identifier after .."
  end
with parseBracketedSelection (fuel : nat) (selectors : list Selector)
     {struct fuel} : P (list Selector) :=
  match fuel with
  | O => fun _ => OutOfFuel
  | S fuel =>
      sel <- parseSelector fuel ;;
      let selectors := selectors ++ [sel] in
      comma <- match_ Kind.Comma ;;
      if comma then parseBracketedSelection fuel selectors
      else
        close <- match_ Kind.RightBracket ;;
        if close then ret selectors else error_ "expected ] or ,"
  end
with parseSelector (fuel : nat) {struct fuel} : P Selector :=
  match fuel with
  | O => fun _ => OutOfFuel
  | S fuel =>
      b <- match_ Kind.Star ;;
      if b then ret WildcardSelector
      else
        b <- match_ Kind.Question ;;
        if b then (expr <- parseFilterExpr fuel ;; ret (FilterSelector expr))
        else
          b <- check Kind.String ;;
          if b then (t <- advance ;; ret (NameSelector (Lexer.Value t)))
          else
            b <- check Kind.Int ;;
            if b then parseIndexOrSlice
            else
              b <- match_ Kind.Colon ;;
              if b then parseSlice 0 false
              else error_ "expected selector"
  end
with parseFilterExpr (fuel : nat) {struct fuel} : P FilterExpr :=
  match fuel with
  | O => fun _ => OutOfFuel
  | S fuel => or <- parseLogicalOr fuel ;; ret (mkFilterExpr or)
  end
with parseLogicalOr (fuel : nat) {struct fuel} : P LogicalOr :=
  match fuel with
  | O => fun _ => OutOfFuel
  | S fuel =>
      and <- parseLogicalAnd fuel ;;
      parseLogicalOr_rest fuel [and]
  end
with parseLogicalOr_rest (fuel : nat) (ands : list LogicalAnd)
     {struct fuel} : P LogicalOr :=
  match fuel with
  | O => fun _ => OutOfFuel
  | S fuel =>
      b <- match_ Kind.Or ;;
      if b then
        (and <- parseLogicalAnd fuel ;;
         parseLogicalOr_rest fuel (ands ++ [and]))
      else ret ands
  end
with parseLogicalAnd (fuel : nat) {struct fuel} : P LogicalAnd :=
  match fuel with
  | O => fun _ => OutOfFuel
  | S fuel =>
      expr <- parseBasicExpr fuel ;;
      parseLogicalAnd_rest fuel [expr]
  end
with parseLogicalAnd_rest (fuel : nat) (exprs : list BasicExpr)
     {struct fuel} : P LogicalAnd :=
  match fuel with
  | O => fun _ => OutOfFuel
  | S fuel =>
      b <- match_ Kind.And ;;
      if b then
        (expr <- parseBasicExpr fuel ;;
         parseLogicalAnd_rest fuel (exprs ++ [expr]))
      else ret exprs
  end
with parseBasicExpr (fuel : nat) {struct fuel} : P BasicExpr :=
  match fuel with
  | O => fun _ => OutOfFuel
  | S fuel =>
      not <- match_ Kind.Not ;;
      if not then
        paren <- match_ Kind.LeftParen ;;
        if paren then
          (or <- parseLogicalOr fuel ;;
           close <- match_ Kind.RightParen ;;
           if close then ret (NotParenExpr or) else error_ "expected )")
        else
          ident <- check Kind.Ident ;;
          if ident then
            (fe <- parseFunctionExpr fuel ;;
             if negb (FuncType_eqb (ResultType (Func_of fe)) Logical)
             then error_ "only logical functions can be negated"
             else ret (NegFuncExpr fe))
          else
            (query <- parseFilterQuery fuel ;; ret (NonExistExpr query))
      else
        paren <- match_ Kind.LeftParen ;;
        if paren then
          (or <- parseLogicalOr fuel ;;
           close <- match_ Kind.RightParen ;;
           if close then ret (ParenExpr or) else error_ "expected )")
        else
          ident <- check Kind.Ident ;;
          if ident then
            (fe <- parseFunctionExpr fuel ;;
             comp <- checkCompOp ;;
             if comp then
               if FuncType_eqb (ResultType (Func_of fe)) Logical
               then error_ "logical function result cannot be compared"
               else
                 (op <- parseCompOp ;;
                  right <- parseCompValue fuel ;;
                  ret (CompExpr (FuncValue fe) op right))
             else
               if negb (FuncType_eqb (ResultType (Func_of fe)) Logical)
               then error_ "value function must be used in comparison"
               else ret (FuncTest fe))
          else
            at_ <- check Kind.At ;;
            dollar <- check Kind.Dollar ;;
            if at_ || dollar then parseTestOrComparison fuel
            else
              lit <- check_literal ;;
              if lit then parseComparisonFromLiteral fuel
              else error_ "expected filter expression"
  end
with parseTestOrComparison (fuel : nat) {struct fuel} : P BasicExpr :=
  match fuel with
  | O => fun _ => OutOfFuel
  | S fuel =>
      query <- parseFilterQuery fuel ;;
      comp <- checkCompOp ;;
      if comp then
        if negb (IsSingular query)
        then error_ "non-singular query is not allowed in comparison"
        else
          (op <- parseCompOp ;;
           right <- parseCompValue fuel ;;
           ret (CompExpr (QueryValue query) op right))
      else ret (ExistExpr query)
  end
with parseComparisonFromLiteral (fuel : nat) {struct fuel} : P BasicExpr :=
  match fuel with
  | O => fun _ => OutOfFuel
  | S fuel =>
      left <- parseLiteralValue ;;
      comp <- checkCompOp ;;
      if negb comp then error_ "expected comparison operator"
      else
        (op <- parseCompOp ;;
         right <- parseCompValue fuel ;;
         ret (CompExpr (LiteralValue left) op right))
  end
with parseFunctionExpr (fuel : nat) {struct fuel} : P FuncExpr :=
  match fuel with
  | O => fun _ => OutOfFuel
  | S fuel =>
      nameToken <- advance ;;
      let name := Lexer.Val nameToken src in
      no_space_after nameToken
        "whitespace not allowed between function name and (" ;;;
      open <- match_ Kind.LeftParen ;;
      if negb open then error_ "expected ( after function name"
      else
        empty <- check Kind.RightParen ;;
        args <- (if negb empty then parseFunctionArgs fuel [] else ret []) ;;
        close <- match_ Kind.RightParen ;;
        if negb close then error_ "expected )"
        else finishFunctionExpr name args
  end
with parseFunctionArgs (fuel : nat) (args : list FuncArg) {struct fuel}
     : P (list FuncArg) :=
  match fuel with
  | O => fun _ => OutOfFuel
  | S fuel =>
      arg <- parseFunctionArg fuel ;;
      let args := args ++ [arg] in
      comma <- match_ Kind.Comma ;;
      if comma then parseFunctionArgs fuel args else ret args
  end
with parseFunctionArg (fuel : nat) {struct fuel} : P FuncArg :=
  match fuel with
  | O => fun _ => OutOfFuel
  | S fuel =>
      at_ <- check Kind.At ;;
      dollar <- check Kind.Dollar ;;
      if at_ || dollar then (q <- parseFilterQuery fuel ;; ret (ArgQuery q))
      else
        ident <- check Kind.Ident ;;
        if ident then (fe <- parseFunctionExpr fuel ;; ret (ArgFunc fe))
        else (v <- parseLiteralValue ;; ret (ArgOther v))
  end
with parseFilterQuery (fuel : nat) {struct fuel} : P PathQuery :=
  match fuel with
  | O => fun _ => OutOfFuel
  | S fuel =>
      dollar <- match_ Kind.Dollar ;;
      at_ <- (if dollar then ret true else match_ Kind.At) ;;
      if negb at_ then error_ "expected $ or @"
      else
        (segments <- parseSegments fuel [] ;;
         ret (NewPathQuery dollar segments))
  end
with parseCompValue (fuel : nat) {struct fuel} : P CompValue :=
  match fuel with
  | O => fun _ => OutOfFuel
  | S fuel =>
      ident <- check Kind.Ident ;;
      if ident then
        (fe <- parseFunctionExpr fuel ;;
         if FuncType_eqb (ResultType (Func_of fe)) Logical
         then error_ "logical function result cannot be compared"
         else ret (FuncValue fe))
      else
        at_ <- check Kind.At ;;
        dollar <- check Kind.Dollar ;;
        if at_ || dollar then
          (query <- parseFilterQuery fuel ;;
           if negb (IsSingular query)
           then error_ "non-singular query is not allowed in comparison"
           else ret (QueryValue query))
        else (val <- parseLiteralValue ;; ret (LiteralValue val))
  end.

(** [isBlankSpace] of parser.go, on a byte. *)
Definition isBlankSpace (b : Z) : bool :=
  (b =? 32) || (b =? 9) || (b =? 10) || (b =? 13).

(** The recursion bound [Parse] starts from. *)
Definition bound : nat := 20 * S (List.length tokens).

(** [Parser.Parse]. *)
Definition Parse : result PathQuery :=
  let n := String.length src in
  if (0 <? n)%nat && isBlankSpace (Lexer.byte_at src 0)
  then Err (ErrWhitespace "leading whitespace not allowed")
  else if (0 <? n)%nat && isBlankSpace (Lexer.byte_at src (n - 1))
  then Err (ErrWhitespace "trailing whitespace not allowed")
  else
    (dollar <- match_ Kind.Dollar ;;
     at_ <- (if dollar then ret true else match_ Kind.At) ;;
     if negb at_ then error_ "expected $ or @"
     else
       segments <- parseSegments bound [] ;;
       e <- atEnd ;;
       if negb e then error_ "unexpected token after path"
       else ret (NewPathQuery dollar segments)) O.

End Parsing.

(** [New] followed by [Parse]: the tokens of [src] are scanned first, and
    a final invalid token is the lexer's error. *)
Definition New_Parse (ParseFloat : string -> option spec_float)
           (src : string) (funcs : list (string * entry))
  : result PathQuery :=
  let tokens := Lexer.tokenize src in
  match last tokens (zeroToken Kind.EOF) with
  | Lexer.mkToken Kind.Invalid start _ msg => Err (ErrLexer msg start)
  | _ => Parse src tokens funcs ParseFloat
  end.

End Parser.

(* ================================================================== *)
(** * regexp and regexp/syntax of the Go standard library *)
(* ================================================================== *)

Module Syntax.

(** [syntax.Op]. *)
Inductive Op : Type :=
| OpNoMatch | OpEmptyMatch | OpLiteral | OpCharClass | OpAnyCharNotNL
| OpAnyChar | OpBeginLine | OpEndLine | OpBeginText | OpEndText
| OpWordBoundary | OpNoWordBoundary | OpCapture | OpStar | OpPlus | OpQuest
| OpRepeat | OpConcat | OpAlternate.

(** [syntax.Regexp]: the operator, the sub-expressions, and the runes of
    a literal or the bounds [lo0, hi0, lo1, hi1, ...] of a character
    class. *)
Inductive Regexp : Type :=
| Node (op : Op) (Sub : list Regexp) (Rune : list Z).

Definition Op_of (re : Regexp) : Op :=
  match re with Node op _ _ => op end.

Definition is_AnyChar (op : Op) : bool :=
  match op with OpAnyChar => true | _ => false end.

End Syntax.

(* ================================================================== *)
(** * functions: the built-in functions *)
(* ================================================================== *)

Module Functions.

Import Ast Syntax.

(** The runes of a string, as a [range] over it decodes them. *)
Fixpoint runes_of_fuel (fuel : nat) (s : string) : list Z :=
  match fuel with
  | O => []
  | S fuel' =>
      match s with
      | EmptyString => []
      | _ =>
          let '(r, w) := Utf8.DecodeRuneInString s in
          r :: runes_of_fuel fuel'
                 (substring w (String.length s - w) s)
      end
  end.

Definition runes_of (s : string) : list Z :=
  runes_of_fuel (String.length s) s.

(** [utf8.RuneCountInString]. *)
Definition RuneCountInString (s : string) : Z := len (runes_of s).

(** The error of a [Validate] method, as its message. *)
Definition ErrArgCount : string := "wrong number of arguments".
Definition ErrArgType : string := "incompatible argument type".

(** [LengthFunc]. *)
Definition LengthFunc_Validate (args : list ArgType) : option string :=
  match args with
  | [a] => if negb (ArgConvertsTo a Value) then Some ErrArgType else None
  | _ => Some ErrArgCount
  end.

Definition LengthFunc_Call (args : list any) : any :=
  match args with
  | [] => Nil
  | Nil :: _ => Nil
  | Str v :: _ => Int (RuneCountInString v)
  | Arr v :: _ => Int (len v)
  | Obj v :: _ => Int (len v)
  | _ :: _ => Nil
  end.

Definition LengthFunc : Function :=
  mkFunction "length" Value LengthFunc_Validate LengthFunc_Call.

(** [CountFunc]. *)
Definition CountFunc_Validate (args : list ArgType) : option string :=
  match args with
  | [a] => if negb (ArgConvertsTo a Nodes) then Some ErrArgType else None
  | _ => Some ErrArgCount
  end.

Definition CountFunc_Call (args : list any) : any :=
  match args with
  | Arr nodes :: _ => Int (len nodes)
  | _ => Int 0
  end.

Definition CountFunc : Function :=
  mkFunction "count" Value CountFunc_Validate CountFunc_Call.

(** [ValueFunc]. *)
Definition ValueFunc_Validate (args : list ArgType) : option string :=
  match args with
  | [a] => if negb (ArgConvertsTo a Nodes) then Some ErrArgType else None
  | _ => Some ErrArgCount
  end.

Definition ValueFunc_Call (args : list any) : any :=
  match args with
  | Arr [n] :: _ => n
  | _ => Nil
  end.

Definition ValueFunc : Function :=
  mkFunction "value" Value ValueFunc_Validate ValueFunc_Call.

(** [validateTwoValueArgs]. *)
Definition validateTwoValueArgs (args : list ArgType) : option string :=
  match args with
  | [a; b] =>
      if negb (ArgConvertsTo a Value) then Some ErrArgType
      else if negb (ArgConvertsTo b Value) then Some ErrArgType
      else None
  | _ => Some ErrArgCount
  end.

(** [crlf]: the parsed [[^\n\r]], the class of every rune but line feed
    and carriage return. *)
Definition crlf : Regexp :=
  Node OpCharClass [] [0; 9; 11; 12; 14; Utf8.MaxRune].

(** [replaceDot]: every [OpAnyChar] node becomes [crlf]. *)
Fixpoint replaceDot (re : Regexp) : Regexp :=
  match re with
  | Node op sub rune =>
      if is_AnyChar op then crlf
      else Node op (map replaceDot sub) rune
  end.

Section WithRegexp.

(** The regexp library: [syntax.Parse(pattern, syntax.Perl|syntax.DotNL)],
    [regexp.Compile(parsed.String())] on a syntax tree, and
    [Regexp.MatchString].  [None] is an error. *)
Variable Compiled : Type.
Variable syntax_Parse : string -> option Regexp.
Variable compile_printed : Regexp -> option Compiled.
Variable MatchString : Compiled -> string -> bool.

(** [compileIRegexpUncached]. *)
Definition compileIRegexpUncached (pattern : string) : option Compiled :=
  match syntax_Parse pattern with
  | None => None
  | Some parsed => compile_printed (replaceDot parsed)
  end.

(** [compileIRegexp]: the cache holds, for a pattern, what
    [compileIRegexpUncached] returned for it. *)
Definition compileIRegexp (pattern : string) : option Compiled :=
  compileIRegexpUncached pattern.

(** [MatchFunc.Call]. *)
Definition MatchFunc_Call (args : list any) : any :=
  match args with
  | a0 :: a1 :: _ =>
      match a0, a1 with
      | Str str, Str pattern =>
          match compileIRegexp ("\A" +s+ pattern +s+ "\z") with
          | None => Bool false
          | Some re => Bool (MatchString re str)
          end
      | _, _ => Bool false
      end
  | _ => Bool false
  end.

(** [SearchFunc.Call]. *)
Definition SearchFunc_Call (args : list any) : any :=
  match args with
  | a0 :: a1 :: _ =>
      match a0, a1 with
      | Str str, Str pattern =>
          match compileIRegexp pattern with
          | None => Bool false
          | Some re => Bool (MatchString re str)
          end
      | _, _ => Bool false
      end
  | _ => Bool false
  end.

Definition MatchFunc : Function :=
  mkFunction "match" Logical validateTwoValueArgs MatchFunc_Call.

Definition SearchFunc : Function :=
  mkFunction "search" Logical validateTwoValueArgs SearchFunc_Call.

(** [Builtins]. *)
Definition Builtins : list Function :=
  [LengthFunc; CountFunc; MatchFunc; SearchFunc; ValueFunc].

End WithRegexp.

End Functions.

(* ================================================================== *)
(** * A fragment of the regexp library *)
(* ================================================================== *)

(** The syntax trees and the matches of the Go regexp library on the
    patterns built from literals, [.], [^], [$], [\A], [\z], the escapes
    [\n], [\r], [\t] and escaped punctuation, character classes, groups,
    alternation, concatenation and the operators [*], [+], [?].  A pattern
    outside this fragment is reported as an error here. *)
Module GoRegexp.

Import Syntax.

Definition Lit (c : Z) : Regexp := Node OpLiteral [] [c].

Definition mk_concat (subs : list Regexp) : Regexp :=
  match subs with
  | [] => Node OpEmptyMatch [] []
  | [r] => r
  | _ => Node OpConcat subs []
  end.

Definition mk_alternate (subs : list Regexp) : Regexp :=
  match subs with
  | [r] => r
  | _ => Node OpAlternate subs []
  end.

Definition rune (c : ascii) : Z := Utf8.byte_of c.

Definition is_repetition (c : Z) : bool :=
  (c =? rune "*") || (c =? rune "+") || (c =? rune "?").

Definition is_punct (c : Z) : bool :=
  (33 <=? c) && (c <=? 126)
  && negb (((48 <=? c) && (c <=? 57)) || ((65 <=? c) && (c <=? 90))
           || ((97 <=? c) && (c <=? 122))).

(** A rune of a character class, possibly escaped. *)
Definition class_rune (inp : list Z) : option (Z * list Z) :=
  match inp with
  | [] => None
  | c :: rest =>
      if c =? rune "\" then
        match rest with
        | e :: rest' =>
            if e =? rune "n" then Some (10, rest')
            else if e =? rune "r" then Some (13, rest')
            else if e =? rune "t" then Some (9, rest')
            else if is_punct e then Some (e, rest')
            else None
        | [] => None
        end
      else Some (c, rest)
  end.

(** The ranges [lo, hi, ...] of a character class up to its [']']. *)
Fixpoint class_items (fuel : nat) (inp : list Z) (acc : list Z)
  : option (list Z * list Z) :=
  match fuel with
  | O => None
  | S fuel' =>
      match inp with
      | [] => None
      | c :: rest =>
          if c =? rune "]" then Some (acc, rest)
          else
            match class_rune inp with
            | None => None
            | Some (lo, rest1) =>
                match rest1 with
                | d :: rest2 =>
                    if (d =? rune "-")
                       && negb (match rest2 with
                                | e :: _ => e =? rune "]"
                                | [] => true
                                end)
                    then
                      match class_rune rest2 with
                      | Some (hi, rest3) =>
                          if hi <? lo then None
                          else class_items fuel' rest3 (acc ++ [lo; hi])
                      | None => None
                      end
                    else class_items fuel' rest1 (acc ++ [lo; lo])
                | [] => None
                end
            end
      end
  end.

Fixpoint in_ranges (ranges : list Z) (x : Z) : bool :=
  match ranges with
  | lo :: hi :: rest => ((lo <=? x) && (x <=? hi)) || in_ranges rest x
  | _ => false
  end.

(** The parser: alternation binds weakest, then concatenation, then the
    repetition operators. *)
Fixpoint parse_alternate (fuel : nat) (inp : list Z) (acc : list Regexp)
  : option (Regexp * list Z) :=
  match fuel with
  | O => None
  | S fuel' =>
      match parse_concat fuel' inp [] with
      | None => None
      | Some (r, rest) =>
          match rest with
          | c :: rest' =>
              if c =? rune "|"
              then parse_alternate fuel' rest' (acc ++ [r])
              else Some (mk_alternate (acc ++ [r]), rest)
          | [] => Some (mk_alternate (acc ++ [r]), rest)
          end
      end
  end
with parse_concat (fuel : nat) (inp : list Z) (acc : list Regexp)
  : option (Regexp * list Z) :=
  match fuel with
  | O => None
  | S fuel' =>
      match inp with
      | [] => Some (mk_concat acc, inp)
      | c :: _ =>
          if (c =? rune "|") || (c =? rune ")")
          then Some (mk_concat acc, inp)
          else
            match parse_piece fuel' inp with
            | None => None
            | Some (r, rest) => parse_concat fuel' rest (acc ++ [r])
            end
      end
  end
with parse_piece (fuel : nat) (inp : list Z) : option (Regexp * list Z) :=
  match fuel with
  | O => None
  | S fuel' =>
      match parse_atom fuel' inp with
      | None => None
      | Some (r, rest) =>
          match rest with
          | c :: rest' =>
              if is_repetition c then
                if match rest' with
                   | d :: _ => is_repetition d
                   | [] => false
                   end
                then None
                else
                  let op := if c =? rune "*" then OpStar
                            else if c =? rune "+" then OpPlus
                            else OpQuest in
                  Some (Node op [r] [], rest')
              else Some (r, rest)
          | [] => Some (r, rest)
          end
      end
  end
with parse_atom (fuel : nat) (inp : list Z) : option (Regexp * list Z) :=
  match fuel with
  | O => None
  | S fuel' =>
      match inp with
      | [] => None
      | c :: rest =>
          if c =? rune "(" then
            let '(capture, body) :=
              match rest with
              | q :: k :: rest' =>
                  if (q =? rune "?") && (k =? rune ":")
                  then (false, rest') else (true, rest)
              | _ => (true, rest)
              end in
            match parse_alternate fuel' body [] with
            | Some (r, d :: rest') =>
                if d =? rune ")"
                then Some (if capture then Node OpCapture [r] [] else r,
                           rest')
                else None
            | _ => None
            end
          else if c =? rune "." then Some (Node OpAnyChar [] [], rest)
          else if c =? rune "^" then Some (Node OpBeginText [] [], rest)
          else if c =? rune "$" then Some (Node OpEndText [] [], rest)
          else if c =? rune "[" then
            let '(neg, body) :=
              match rest with
              | n :: rest' =>
                  if n =? rune "^" then (true, rest') else (false, rest)
              | [] => (false, rest)
              end in
            match class_items (S (List.length body)) body [] with
            | Some (ranges, rest') =>
                Some (Node OpCharClass []
                           (if neg
                            then [-1; -1] ++ ranges
                            else ranges), rest')
            | None => None
            end
          else if c =? rune "\" then
            match rest with
            | e :: rest' =>
                if e =? rune "A" then Some (Node OpBeginText [] [], rest')
                else if e =? rune "z" then Some (Node OpEndText [] [], rest')
                else if e =? rune "n" then Some (Lit 10, rest')
                else if e =? rune "r" then Some (Lit 13, rest')
                else if e =? rune "t" then Some (Lit 9, rest')
                else if is_punct e then Some (Lit e, rest')
                else None
            | [] => None
            end
          else if is_repetition c || (c =? rune "{") || (c =? rune ")")
          then None
          else Some (Lit c, rest)
      end
  end.

(** [syntax.Parse(pattern, syntax.Perl|syntax.DotNL)] on the fragment. *)
Definition Parse (pattern : string) : option Regexp :=
  let inp := Functions.runes_of pattern in
  match parse_alternate (8 * S (List.length inp)) inp [] with
  | Some (r, []) => Some r
  | _ => None
  end.

(** A character class matches a rune within its ranges; a negated class,
    marked by a leading [-1, -1], a rune outside of them. *)
Definition in_class (ranges : list Z) (x : Z) : bool :=
  match ranges with
  | -1 :: -1 :: rest => negb (in_ranges rest x)
  | _ => in_ranges ranges x
  end.

(** [re] matches the runes [s] from position [i] to a position accepted
    by [k]. *)
Fixpoint matches (re : Regexp) (s : list Z) (i : nat) (k : nat -> bool)
         {struct re} : bool :=
  match re with
  | Node op sub runes =>
      match op with
      | OpEmptyMatch => k i
      | OpLiteral =>
          (fix lit (rs : list Z) (i : nat) {struct rs} : bool :=
             match rs with
             | [] => k i
             | c :: rs' =>
                 match nth_error s i with
                 | Some x => (x =? c) && lit rs' (S i)
                 | None => false
                 end
             end) runes i
      | OpCharClass =>
          match nth_error s i with
          | Some x => in_class runes x && k (S i)
          | None => false
          end
      | OpAnyChar =>
          match nth_error s i with
          | Some _ => k (S i)
          | None => false
          end
      | OpAnyCharNotNL =>
          match nth_error s i with
          | Some x => negb (x =? 10) && k (S i)
          | None => false
          end
      | OpBeginText => (i =? 0)%nat && k i
      | OpEndText => (i =? List.length s)%nat && k i
      | OpCapture =>
          match sub with
          | [r] => matches r s i k
          | _ => false
          end
      | OpConcat =>
          (fix seq (subs : list Regexp) (i : nat) (k : nat -> bool)
             {struct subs} : bool :=
             match subs with
             | [] => k i
             | r :: rest => matches r s i (fun j => seq rest j k)
             end) sub i k
      | OpAlternate =>
          (fix alt (subs : list Regexp) {struct subs} : bool :=
             match subs with
             | [] => false
             | r :: rest => matches r s i k || alt rest
             end) sub
      | OpStar =>
          match sub with
          | [r] =>
              (fix loop (n : nat) (i : nat) {struct n} : bool :=
                 k i
                 || match n with
                    | O => false
                    | S n' =>
                        matches r s i (fun j => (i <? j)%nat && loop n' j)
                    end) (List.length s) i
          | _ => false
          end
      | OpPlus =>
          match sub with
          | [r] =>
              matches r s i
                ((fix loop (n : nat) (i : nat) {struct n} : bool :=
                    k i
                    || match n with
                       | O => false
                       | S n' =>
                           matches r s i (fun j => (i <? j)%nat && loop n' j)
                       end) (List.length s))
          | _ => false
          end
      | OpQuest =>
          match sub with
          | [r] => k i || matches r s i k
          | _ => false
          end
      | _ => false
      end
  end.

(** [regexp.Compile(parsed.String())]: the printed tree compiles to a
    regexp with the matches of the tree. *)
Definition compile_printed (re : Regexp) : option Regexp := Some re.

(** [MatchString]: the regexp matches somewhere in [str]. *)
Definition MatchString (re : Regexp) (str : string) : bool :=
  let s := Functions.runes_of str in
  existsb (fun i => matches re s i (fun _ => true))
          (seq 0 (S (List.length s))).

(** [str] as a whole matches the pattern. *)
Definition whole_match (pattern str : string) : bool :=
  match Parse pattern with
  | Some re =>
      let s := Functions.runes_of str in
      matches (Functions.replaceDot re) s 0
              (fun j => (j =? List.length s)%nat)
  | None => false
  end.

(** The built-in [match] and [search] over this library. *)
Definition MatchFunc_Call : list any -> any :=
  Functions.MatchFunc_Call Regexp Parse compile_printed MatchString.

Definition SearchFunc_Call : list any -> any :=
  Functions.SearchFunc_Call Regexp Parse compile_printed MatchString.

End GoRegexp.

(* ================================================================== *)
(** * jsonpath: [Parser.Parse] and [Parse] *)
(* ================================================================== *)

Module Compile.

Import Ast.

(** [FuncType] and [ArgType] of the package, types of their own beside
    the ones of [internal/ast]. *)
Inductive FuncType : Type := FuncLogical | FuncValue | FuncNodes.

Inductive ArgType : Type :=
| ArgLiteral | ArgSingularQuery | ArgFilterQuery | ArgLogicalExpr
| ArgFunctionExpr.

(** [Function]: an extension function, with the method set of the
    interface. *)
Record Function : Type := mkFunction {
  Name : string;
  ResultType : FuncType;
  Validate : list ArgType -> option string;
  Call : list any -> any
}.

(** [parserOptions.functions], as the list of its keys and values. *)
Record Parser_ : Type := mkParser {
  functions : list (string * Function)
}.

(** [WithFunctions]: [o.functions[fn.Name()] = fn] for each function, a
    later one replacing an earlier one of the same name. *)
Definition set_function (fns : list (string * Function)) (fn : Function)
  : list (string * Function) :=
  (Name fn, fn)
    :: filter (fun e => negb (String.eqb (fst e) (Name fn))) fns.

Definition WithFunctions (fns : list Function) (p : Parser_) : Parser_ :=
  mkParser (fold_left set_function fns (functions p)).

(** [NewParser]: the options are applied to an empty map. *)
Definition NewParser (opts : list (Parser_ -> Parser_)) : Parser_ :=
  fold_left (fun p o => o p) opts (mkParser []).

(** What [Parse] returns: a path, or the error [ErrPathParse] that wraps
    its cause.  [OutOfFuel] is the internal parser running out of its
    recursion bound, which it never does. *)
Inductive parsed : Type :=
| Parsed (path : JsonPath.Path)
| ErrPathParse (cause : Parser.error)
| OutOfFuel.

Section WithLibraries.

Variable ParseFloat : string -> option spec_float.
Variable Compiled : Type.
Variable syntax_Parse : string -> option Syntax.Regexp.
Variable compile_printed : Syntax.Regexp -> option Compiled.
Variable MatchString : Compiled -> string -> bool.

(** [newBuiltinRegistry]. *)
Definition newBuiltinRegistry : list (string * Parser.entry) :=
  map (fun fn => (Ast.Name fn, Parser.IsFunction fn))
      (Functions.Builtins Compiled syntax_Parse compile_printed MatchString).

(** The registry that [Parser.Parse] hands to the internal parser: the
    built-in functions, overridden by the registered functions of the same
    name.  The internal parser asserts [fn.(ast.Function)] on an entry; a
    registered function has the methods [ResultType] and [Validate] over
    the types of this package, not over those of [internal/ast], so the
    assertion fails on it. *)
Definition registry (p : Parser_) : list (string * Parser.entry) :=
  map (fun e => (fst e, Parser.NotFunction)) (functions p)
  ++ newBuiltinRegistry.

(** [Parser.Parse]: an error of the lexer or of the internal parser is
    returned wrapped in [ErrPathParse]. *)
Definition Parser_Parse (p : Parser_) (expr : string) : parsed :=
  let funcs := registry p in
  match Parser.New_Parse ParseFloat expr funcs with
  | Parser.Ok query _ => Parsed (JsonPath.mkPath (Some query))
  | Parser.Err e => ErrPathParse e
  | Parser.OutOfFuel => OutOfFuel
  end.

(** [Parse]. *)
Definition Parse (expr : string) : parsed :=
  Parser_Parse (NewParser []) expr.

End WithLibraries.

End Compile.

(* ================================================================== *)
(** * Structural induction over the AST *)
(* ================================================================== *)

Module AstInd.

Import Ast.

Section Scheme.

Variable PSel : Selector -> Prop.
Variable PFilter : FilterExpr -> Prop.
Variable PBasic : BasicExpr -> Prop.
Variable PComp : CompValue -> Prop.
Variable PFunc : FuncExpr -> Prop.
Variable PArg : FuncArg -> Prop.
Variable PQuery : PathQuery -> Prop.
Variable PSeg : Segment -> Prop.

Hypothesis HName : forall name, PSel (NameSelector name).
Hypothesis HIndex : forall idx, PSel (IndexSelector idx).
Hypothesis HSlice : forall a, PSel (SliceSelector a).
Hypothesis HWildcard : PSel WildcardSelector.
Hypothesis HFilterSel : forall f, PFilter f -> PSel (FilterSelector f).
Hypothesis HFilter :
  forall lo, Forall (Forall PBasic) lo -> PFilter (mkFilterExpr lo).
Hypothesis HExist : forall q, PQuery q -> PBasic (ExistExpr q).
Hypothesis HNonExist : forall q, PQuery q -> PBasic (NonExistExpr q).
Hypothesis HParen :
  forall lo, Forall (Forall PBasic) lo -> PBasic (ParenExpr lo).
Hypothesis HNotParen :
  forall lo, Forall (Forall PBasic) lo -> PBasic (NotParenExpr lo).
Hypothesis HNegFunc : forall fe, PFunc fe -> PBasic (NegFuncExpr fe).
Hypothesis HCompExpr :
  forall l op r, PComp l -> PComp r -> PBasic (CompExpr l op r).
Hypothesis HFuncTest : forall fe, PFunc fe -> PBasic (FuncTest fe).
Hypothesis HLiteral : forall v, PComp (LiteralValue v).
Hypothesis HQueryValue : forall q, PQuery q -> PComp (QueryValue q).
Hypothesis HFuncValue : forall fe, PFunc fe -> PComp (FuncValue fe).
Hypothesis HFuncExpr :
  forall name fn args argTypes,
    Forall PArg args -> PFunc (mkFuncExpr name fn args argTypes).
Hypothesis HArgQuery : forall q, PQuery q -> PArg (ArgQuery q).
Hypothesis HArgFunc : forall fe, PFunc fe -> PArg (ArgFunc fe).
Hypothesis HArgComp : forall c, PComp c -> PArg (ArgComp c).
Hypothesis HArgOther : forall v, PArg (ArgOther v).
Hypothesis HQuery :
  forall segs isRoot, Forall PSeg segs -> PQuery (mkPathQuery segs isRoot).
Hypothesis HSeg :
  forall sels desc, Forall PSel sels -> PSeg (mkSegment sels desc).

Fixpoint Selector_ok (s : Selector) : PSel s :=
  match s with
  | NameSelector name => HName name
  | IndexSelector idx => HIndex idx
  | SliceSelector a => HSlice a
  | WildcardSelector => HWildcard
  | FilterSelector f => HFilterSel f (FilterExpr_ok f)
  end
with FilterExpr_ok (f : FilterExpr) : PFilter f :=
  match f with
  | mkFilterExpr lo =>
      HFilter lo
        ((fix ors (lo : list (list BasicExpr)) : Forall (Forall PBasic) lo :=
            match lo with
            | [] => Forall_nil _
            | la :: rest =>
                Forall_cons _
                  ((fix ands (la : list BasicExpr) : Forall PBasic la :=
                      match la with
                      | [] => Forall_nil _
                      | e :: es => Forall_cons _ (BasicExpr_ok e) (ands es)
                      end) la)
                  (ors rest)
            end) lo)
  end
with BasicExpr_ok (e : BasicExpr) : PBasic e :=
  match e with
  | ExistExpr q => HExist q (PathQuery_ok q)
  | NonExistExpr q => HNonExist q (PathQuery_ok q)
  | ParenExpr lo =>
      HParen lo
        ((fix ors (lo : list (list BasicExpr)) : Forall (Forall PBasic) lo :=
            match lo with
            | [] => Forall_nil _
            | la :: rest =>
                Forall_cons _
                  ((fix ands (la : list BasicExpr) : Forall PBasic la :=
                      match la with
                      | [] => Forall_nil _
                      | e :: es => Forall_cons _ (BasicExpr_ok e) (ands es)
                      end) la)
                  (ors rest)
            end) lo)
  | NotParenExpr lo =>
      HNotParen lo
        ((fix ors (lo : list (list BasicExpr)) : Forall (Forall PBasic) lo :=
            match lo with
            | [] => Forall_nil _
            | la :: rest =>
                Forall_cons _
                  ((fix ands (la : list BasicExpr) : Forall PBasic la :=
                      match la with
                      | [] => Forall_nil _
                      | e :: es => Forall_cons _ (BasicExpr_ok e) (ands es)
                      end) la)
                  (ors rest)
            end) lo)
  | NegFuncExpr fe => HNegFunc fe (FuncExpr_ok fe)
  | CompExpr l op r => HCompExpr l op r (CompValue_ok l) (CompValue_ok r)
  | FuncTest fe => HFuncTest fe (FuncExpr_ok fe)
  end
with CompValue_ok (c : CompValue) : PComp c :=
  match c with
  | LiteralValue v => HLiteral v
  | QueryValue q => HQueryValue q (PathQuery_ok q)
  | FuncValue fe => HFuncValue fe (FuncExpr_ok fe)
  end
with FuncExpr_ok (fe : FuncExpr) : PFunc fe :=
  match fe with
  | mkFuncExpr name fn args argTypes =>
      HFuncExpr name fn args argTypes
        ((fix each (args : list FuncArg) : Forall PArg args :=
            match args with
            | [] => Forall_nil _
            | a :: rest => Forall_cons _ (FuncArg_ok a) (each rest)
            end) args)
  end
with FuncArg_ok (a : FuncArg) : PArg a :=
  match a with
  | ArgQuery q => HArgQuery q (PathQuery_ok q)
  | ArgFunc fe => HArgFunc fe (FuncExpr_ok fe)
  | ArgComp c => HArgComp c (CompValue_ok c)
  | ArgOther v => HArgOther v
  end
with PathQuery_ok (q : PathQuery) : PQuery q :=
  match q with
  | mkPathQuery segs isRoot =>
      HQuery segs isRoot
        ((fix each (segs : list Segment) : Forall PSeg segs :=
            match segs with
            | [] => Forall_nil _
            | s :: rest => Forall_cons _ (Segment_ok s) (each rest)
            end) segs)
  end
with Segment_ok (s : Segment) : PSeg s :=
  match s with
  | mkSegment sels desc =>
      HSeg sels desc
        ((fix each (sels : list Selector) : Forall PSel sels :=
            match sels with
            | [] => Forall_nil _
            | s :: rest => Forall_cons _ (Selector_ok s) (each rest)
            end) sels)
  end.

End Scheme.

(** The functions called anywhere inside an AST node. *)
Fixpoint Selector_funcs (s : Selector) : list Function :=
  match s with
  | FilterSelector f => FilterExpr_funcs f
  | _ => []
  end
with FilterExpr_funcs (f : FilterExpr) : list Function :=
  match f with
  | mkFilterExpr lo => flat_map (flat_map BasicExpr_funcs) lo
  end
with BasicExpr_funcs (e : BasicExpr) : list Function :=
  match e with
  | ExistExpr q | NonExistExpr q => PathQuery_funcs q
  | ParenExpr lo | NotParenExpr lo => flat_map (flat_map BasicExpr_funcs) lo
  | NegFuncExpr fe | FuncTest fe => FuncExpr_funcs fe
  | CompExpr l _ r => CompValue_funcs l ++ CompValue_funcs r
  end
with CompValue_funcs (c : CompValue) : list Function :=
  match c with
  | LiteralValue _ => []
  | QueryValue q => PathQuery_funcs q
  | FuncValue fe => FuncExpr_funcs fe
  end
with FuncExpr_funcs (fe : FuncExpr) : list Function :=
  match fe with
  | mkFuncExpr _ fn args _ => fn :: flat_map FuncArg_funcs args
  end
with FuncArg_funcs (a : FuncArg) : list Function :=
  match a with
  | ArgQuery q => PathQuery_funcs q
  | ArgFunc fe => FuncExpr_funcs fe
  | ArgComp c => CompValue_funcs c
  | ArgOther _ => []
  end
with PathQuery_funcs (q : PathQuery) : list Function :=
  match q with
  | mkPathQuery segs _ => flat_map Segment_funcs segs
  end
with Segment_funcs (s : Segment) : list Function :=
  match s with
  | mkSegment sels _ => flat_map Selector_funcs sels
  end.

End AstInd.

(* ================================================================== *)
(** * The static rules of filter expressions *)
(* ================================================================== *)

Module Static.

Import Ast.

Definition is_logical (fe : FuncExpr) : bool :=
  FuncType_eqb (ResultType (Func_of fe)) Logical.

(** The three rules, checked everywhere inside an AST node: a query used
    as an operand of a comparison is singular; a function call standing
    alone as a test (negated or not) is logical-typed; a function call
    used as an operand of a comparison is not logical-typed. *)
Fixpoint Selector_static (s : Selector) : bool :=
  match s with
  | FilterSelector f => FilterExpr_static f
  | _ => true
  end
with FilterExpr_static (f : FilterExpr) : bool :=
  match f with
  | mkFilterExpr lo => forallb (forallb BasicExpr_static) lo
  end
with BasicExpr_static (e : BasicExpr) : bool :=
  match e with
  | ExistExpr q | NonExistExpr q => PathQuery_static q
  | ParenExpr lo | NotParenExpr lo => forallb (forallb BasicExpr_static) lo
  | NegFuncExpr fe | FuncTest fe => is_logical fe && FuncExpr_static fe
  | CompExpr l _ r => CompValue_static l && CompValue_static r
  end
with CompValue_static (c : CompValue) : bool :=
  match c with
  | LiteralValue _ => true
  | QueryValue q => IsSingular q && PathQuery_static q
  | FuncValue fe => negb (is_logical fe) && FuncExpr_static fe
  end
with FuncExpr_static (fe : FuncExpr) : bool :=
  match fe with
  | mkFuncExpr _ _ args _ => forallb FuncArg_static args
  end
with FuncArg_static (a : FuncArg) : bool :=
  match a with
  | ArgQuery q => PathQuery_static q
  | ArgFunc fe => FuncExpr_static fe
  | ArgComp c => CompValue_static c
  | ArgOther _ => true
  end
with PathQuery_static (q : PathQuery) : bool :=
  match q with
  | mkPathQuery segs _ => forallb Segment_static segs
  end
with Segment_static (s : Segment) : bool :=
  match s with
  | mkSegment sels _ => forallb Selector_static sels
  end.

End Static.

(* ================================================================== *)
(** * The slice selector as the specification describes it *)
(* ================================================================== *)

Module SliceSpec.

Import Ast.

(** [x] clamped into the interval [[lo, hi]]. *)
Definition clamp (lo hi x : Z) : Z := Z.min (Z.max x lo) hi.

(** [i = start, start+step, ...] while [i < end]; at most [n] elements. *)
Fixpoint iterate_up (n : nat) (i end_ step : Z) : list Z :=
  match n with
  | O => []
  | S n' => if i <? end_ then i :: iterate_up n' (i + step) end_ step else []
  end.

(** [i = start, start+step, ...] while [i > end]; at most [n] elements. *)
Fixpoint iterate_down (n : nat) (i end_ step : Z) : list Z :=
  match n with
  | O => []
  | S n' => if i >? end_ then i :: iterate_down n' (i + step) end_ step else []
  end.

(** The indices a slice selects on an array of length [L]: [step] defaults
    to 1 and a zero step selects nothing; the defaults of [start] and [end]
    depend on the sign of [step]; a negative bound is normalized once by
    adding [L]; the bounds are clamped, for a positive step both into
    [[0, L]], for a negative step [start] into [[lo, L-1]] and [end] into
    [[-1, L-1]]; then the iteration runs.  The iteration counts are the
    distances between the clamped bounds, which [iterate_up_enough] and
    [iterate_down_enough] show to be enough.  The lower clamp [lo] of
    [start] under a negative step is left open here. *)
Definition slice_with (lo : Z) (a : SliceArgs) (L : Z) : list Z :=
  let step := if HasStep a then Step a else 1 in
  if step =? 0 then []
  else if step >? 0 then
    let start := if HasStart a then Start a else 0 in
    let end_ := if HasEnd a then End_ a else L in
    let start := if start <? 0 then start + L else start in
    let end_ := if end_ <? 0 then end_ + L else end_ in
    let start := clamp 0 L start in
    let end_ := clamp 0 L end_ in
    iterate_up (Z.to_nat (end_ - start)) start end_ step
  else
    let start := if HasStart a then Start a else L - 1 in
    let end_ := if HasEnd a then End_ a else - L - 1 in
    let start := if start <? 0 then start + L else start in
    let end_ := if end_ <? 0 then end_ + L else end_ in
    let start := clamp lo (L - 1) start in
    let end_ := clamp (-1) (L - 1) end_ in
    iterate_down (Z.to_nat (start - end_)) start end_ step.

(** The specification's clamp of [start] under a negative step:
    into [[0, L-1]]. *)
Definition slice_as_specified : SliceArgs -> Z -> list Z := slice_with 0.

(** The clamp of RFC 9535, section 2.3.4.2.2: into [[-1, L-1]]. *)
Definition slice_rfc : SliceArgs -> Z -> list Z := slice_with (-1).

End SliceSpec.

(* ================================================================== *)
(** * Properties *)
(* ================================================================== *)

Module FilterFacts.

Import Ast.

(** The four ordering operators. *)
Definition is_ordering (op : CompOp) : bool :=
  match op with
  | Less | LessEqual | Greater | GreaterEqual => true
  | Equal | NotEqual => false
  end.

(** A JSON null: the [nil] of a document or the literal [null]. *)
Definition is_null (v : any) : bool := isNil v || isJSONNull v.

Definition is_string (v : any) : bool :=
  match v with Str _ => true | _ => false end.

Definition is_bool (v : any) : bool :=
  match v with Bool _ => true | _ => false end.

(** The property as the specification words it: an ordering comparison
    whose operands are neither both numeric, nor both strings, nor both
    null, is false. *)
Definition ordering_needs_number_string_or_null : Prop :=
  forall (ord : range_oracle) (l r : CompValue) (op : CompOp)
         (current root : any),
    is_ordering op = true ->
    let left := CompValue_Value ord l current root in
    let right := CompValue_Value ord r current root in
    isNumeric left && isNumeric right = false ->
    is_string left && is_string right = false ->
    is_null left && is_null right = false ->
    BasicExpr_Eval ord (CompExpr l op r) current root = false.

Lemma sameType_false (a b : any) :
  isNumeric a && isNumeric b = false ->
  is_string a && is_string b = false ->
  is_null a && is_null b = false ->
  is_bool a && is_bool b = false ->
  sameType a b = false.
Proof.
  unfold is_null, sameType.
  destruct a, b; simpl; intros; congruence.
Qed.

Lemma compare_by_not_sameType (op : CompOp) (a b : any) :
  is_ordering op = true -> sameType a b = false -> compare_by op a b = false.
Proof.
  destruct op; simpl; intros Hop Hs; try discriminate; now rewrite Hs.
Qed.

Lemma equalTo_bool (x y : bool) : equalTo (Bool x) (Bool y) = Bool.eqb x y.
Proof. reflexivity. Qed.

(** C1, counterexample: [true <= true] is an ordering comparison of two
    booleans, and it evaluates to true. *)
Lemma ordering_of_equal_booleans_is_true :
  ~ ordering_needs_number_string_or_null.
Proof.
  intros H.
  specialize (H in_order (LiteralValue (Bool true)) (LiteralValue (Bool true))
                LessEqual Nil Nil).
  simpl in H.
  specialize (H eq_refl eq_refl eq_refl eq_refl).
  discriminate H.
Qed.

(** C1 (amended): an ordering comparison ([<], [<=], [>], [>=]) whose
    operand values are neither both numeric, nor both strings, nor both
    null, nor both booleans, evaluates to false; and two equal booleans
    compare false under [<] and [>] and true under [<=] and [>=]. *)
Theorem ordering_needs_compatible_operands
        (ord : range_oracle) (l r : CompValue) (op : CompOp)
        (current root : any) :
  is_ordering op = true ->
  (isNumeric (CompValue_Value ord l current root)
   && isNumeric (CompValue_Value ord r current root) = false ->
   is_string (CompValue_Value ord l current root)
   && is_string (CompValue_Value ord r current root) = false ->
   is_null (CompValue_Value ord l current root)
   && is_null (CompValue_Value ord r current root) = false ->
   is_bool (CompValue_Value ord l current root)
   && is_bool (CompValue_Value ord r current root) = false ->
   BasicExpr_Eval ord (CompExpr l op r) current root = false)
  /\
  (forall b : bool,
      CompValue_Value ord l current root = Bool b ->
      CompValue_Value ord r current root = Bool b ->
      BasicExpr_Eval ord (CompExpr l op r) current root =
      match op with
      | LessEqual | GreaterEqual => true
      | _ => false
      end).
Proof.
  intros Hop. split.
  - intros Hn Hs Hnull Hb. simpl.
    apply compare_by_not_sameType; [exact Hop|].
    now apply sameType_false.
  - intros b Hl Hr. simpl. rewrite Hl, Hr.
    destruct op, b; try discriminate; reflexivity.
Qed.

(** The theorem at an array against a number, under [<]. *)
Lemma ordering_needs_compatible_operands_witness :
  BasicExpr_Eval in_order
    (CompExpr (LiteralValue (Arr [Int 1])) Less (LiteralValue (Int 2)))
    Nil Nil = false.
Proof.
  apply (proj1 (ordering_needs_compatible_operands in_order
                  (LiteralValue (Arr [Int 1])) (LiteralValue (Int 2))
                  Less Nil Nil eq_refl));
    reflexivity.
Defined.

(** [@.a] and [@.b], and a node whose member [b] is a JSON null. *)
Definition at_a : PathQuery := NewPathQuery false [Child [NameSelector "a"]].
Definition at_b : PathQuery := NewPathQuery false [Child [NameSelector "b"]].
Definition b_is_null : any := Obj [("b", Nil)].

Lemma equalTo_Nothing_l (v : any) :
  equalTo Nothing v = (isNothing v || isNil v).
Proof. destruct v; reflexivity. Qed.

Lemma equalTo_Nothing_r (v : any) :
  equalTo v Nothing = (isNothing v || isNil v).
Proof. destruct v; reflexivity. Qed.

(** [==] when both operands are [Nothing] is true, and [==] between
    [Nothing] and a value other than the [nil] of a document is false. *)
Lemma equal_with_Nothing
      (ord : range_oracle) (l r : CompValue) (current root : any) :
  CompValue_Value ord l current root = Nothing ->
  BasicExpr_Eval ord (CompExpr l Equal r) current root =
  (isNothing (CompValue_Value ord r current root)
   || isNil (CompValue_Value ord r current root)).
Proof.
  intros Hl. simpl. rewrite Hl. apply equalTo_Nothing_l.
Qed.

(** C4, at the failing input: in [?@.a == @.b] on a node [{"b": null}] the
    left operand selects no node ([Nothing]), the right operand selects the
    JSON null of the document, and the comparison evaluates to true. *)
Theorem equal_missing_vs_document_null (ord : range_oracle) (root : any) :
  PathQuery_Select ord at_a b_is_null root = [] /\
  PathQuery_Select ord at_b b_is_null root = [Nil] /\
  CompValue_Value ord (QueryValue at_a) b_is_null root = Nothing /\
  CompValue_Value ord (QueryValue at_b) b_is_null root = Nil /\
  BasicExpr_Eval ord (CompExpr (QueryValue at_a) Equal (QueryValue at_b))
                 b_is_null root = true.
Proof. repeat split; reflexivity. Qed.

End FilterFacts.

Module PathFacts.

Import Ast JsonPath.

(** C10: on the zero-value [Path], whose compiled query is nil, [Select]
    and [SelectLocated] return the nil slice for every input, and [String]
    returns the empty string; none of them panics on the nil query. *)
Theorem zero_path_is_safe
        (ord : range_oracle) (Quote : string -> string) (input : any) :
  Select ord (mkPath None) input = Returns None /\
  SelectLocated ord (mkPath None) input = Returns None /\
  String_ Quote (mkPath None) = Returns "".
Proof. repeat split; reflexivity. Qed.

End PathFacts.

Module SliceFacts.

Import Ast JsonPath SliceSpec.

Lemma wrap64_small (z : Z) : - 2 ^ 63 <= z < 2 ^ 63 -> wrap64 z = z.
Proof.
  intros H. unfold wrap64.
  rewrite Z.mod_small by lia. lia.
Qed.

Lemma iterate_up_stable (n m : nat) (i end_ step : Z) :
  0 < step ->
  (Z.to_nat (end_ - i) <= n)%nat -> (Z.to_nat (end_ - i) <= m)%nat ->
  iterate_up n i end_ step = iterate_up m i end_ step.
Proof.
  intros Hs. revert m i.
  induction n as [|n IH]; intros [|m] i Hn Hm; simpl; try reflexivity;
    destruct (Z.ltb_spec i end_) as [Hlt|Hge]; try reflexivity; try lia.
  f_equal. apply IH; lia.
Qed.

(** The iteration count used by [slice_with] is enough: more steps select
    nothing further. *)
Lemma iterate_up_enough (n : nat) (i end_ step : Z) :
  0 < step -> (Z.to_nat (end_ - i) <= n)%nat ->
  iterate_up n i end_ step = iterate_up (Z.to_nat (end_ - i)) i end_ step.
Proof.
  intros Hs Hn. apply iterate_up_stable; [exact Hs|exact Hn|lia].
Qed.

Lemma iterate_down_stable (n m : nat) (i end_ step : Z) :
  step < 0 ->
  (Z.to_nat (i - end_) <= n)%nat -> (Z.to_nat (i - end_) <= m)%nat ->
  iterate_down n i end_ step = iterate_down m i end_ step.
Proof.
  intros Hs. revert m i.
  induction n as [|n IH]; intros [|m] i Hn Hm; simpl; try reflexivity;
    destruct (Z.gtb_spec i end_) as [Hlt|Hge]; try reflexivity; try lia.
  f_equal. apply IH; lia.
Qed.

Lemma iterate_down_enough (n : nat) (i end_ step : Z) :
  step < 0 -> (Z.to_nat (i - end_) <= n)%nat ->
  iterate_down n i end_ step = iterate_down (Z.to_nat (i - end_)) i end_ step.
Proof.
  intros Hs Hn. apply iterate_down_stable; [exact Hs|exact Hn|lia].
Qed.

Lemma indices_up_iterate (n : nat) (acc : list Z) (i end_ step L : Z) :
  0 < step <= maxIndex -> 0 <= i -> end_ <= L -> L < 2 ^ 62 ->
  indices_up n acc i end_ step L = acc ++ iterate_up n i end_ step.
Proof.
  intros Hs. revert acc i.
  induction n as [|n IH]; intros acc i Hi He HL; simpl.
  - now rewrite app_nil_r.
  - destruct (Z.ltb_spec i end_) as [Hlt|Hge]; [|now rewrite app_nil_r].
    destruct (Z.geb_spec i 0); [|lia].
    destruct (Z.ltb_spec i L); [|lia]. simpl.
    rewrite wrap64_small by (unfold maxIndex in Hs; lia).
    rewrite IH by lia. now rewrite <- app_assoc.
Qed.

Lemma indices_down_iterate (n : nat) (acc : list Z) (i end_ step L : Z) :
  - maxIndex <= step < 0 -> i < L -> -1 <= end_ -> L < 2 ^ 62 ->
  indices_down n acc i end_ step L = acc ++ iterate_down n i end_ step.
Proof.
  intros Hs. revert acc i.
  induction n as [|n IH]; intros acc i Hi He HL; simpl.
  - now rewrite app_nil_r.
  - destruct (Z.gtb_spec i end_) as [Hlt|Hge]; [|now rewrite app_nil_r].
    destruct (Z.geb_spec i 0); [|lia].
    destruct (Z.ltb_spec i L); [|lia]. simpl.
    rewrite wrap64_small by (unfold maxIndex in Hs; lia).
    rewrite IH by lia. now rewrite <- app_assoc.
Qed.

Lemma iterate_up_empty (n : nat) (i end_ step : Z) :
  end_ <= i -> iterate_up n i end_ step = [].
Proof.
  intros H. destruct n; simpl; [reflexivity|].
  destruct (Z.ltb_spec i end_); [lia|reflexivity].
Qed.

Lemma iterate_down_empty (n : nat) (i end_ step : Z) :
  i <= end_ -> iterate_down n i end_ step = [].
Proof.
  intros H. destruct n; simpl; [reflexivity|].
  destruct (Z.gtb_spec i end_); [lia|reflexivity].
Qed.

Lemma iterate_up_agree (cs ce ss se step : Z) :
  (cs < ce -> cs = ss /\ ce = se) -> (ce <= cs -> se <= ss) ->
  iterate_up (Z.to_nat (ce - cs)) cs ce step =
  iterate_up (Z.to_nat (se - ss)) ss se step.
Proof.
  intros Hlt Hge. destruct (Z.lt_ge_cases cs ce) as [H|H].
  - destruct (Hlt H) as [-> ->]. reflexivity.
  - rewrite !iterate_up_empty by auto. reflexivity.
Qed.

Lemma iterate_down_agree (cs ce ss se step : Z) :
  (ce < cs -> cs = ss /\ ce = se) -> (cs <= ce -> ss <= se) ->
  iterate_down (Z.to_nat (cs - ce)) cs ce step =
  iterate_down (Z.to_nat (ss - se)) ss se step.
Proof.
  intros Hlt Hge. destruct (Z.lt_ge_cases ce cs) as [H|H].
  - destruct (Hlt H) as [-> ->]. reflexivity.
  - rewrite !iterate_down_empty by auto. reflexivity.
Qed.

Ltac split_comparisons :=
  repeat match goal with
         | |- context [Z.ltb ?a ?b] => destruct (Z.ltb_spec a b)
         | |- context [Z.gtb ?a ?b] => destruct (Z.gtb_spec a b)
         | |- context [Z.geb ?a ?b] => destruct (Z.geb_spec a b)
         | |- context [Z.eqb ?a ?b] => destruct (Z.eqb_spec a b)
         end; simpl; try lia.

(** A positive step: the bounds [normalizeSliceBounds] returns select what
    the clamped bounds select. *)
Lemma positive_step_bounds (s0 e0 step L : Z) :
  0 < L < 2 ^ 62 -> 0 < step <= maxIndex ->
  (let '(start, end_) := normalizeSliceBounds s0 e0 step L in
   indices_up (Z.to_nat (end_ - start)) [] start end_ step L) =
  (let start := clamp 0 L (if s0 <? 0 then s0 + L else s0) in
   let end_ := clamp 0 L (if e0 <? 0 then e0 + L else e0) in
   iterate_up (Z.to_nat (end_ - start)) start end_ step).
Proof.
  intros HL Hs. unfold normalizeSliceBounds, clamp. cbv zeta.
  split_comparisons;
    (rewrite indices_up_iterate by lia; simpl;
     apply iterate_up_agree; lia).
Qed.

(** A negative step, against the clamp of [start] into [[-1, L-1]]. *)
Lemma negative_step_bounds (s0 e0 step L : Z) :
  0 < L < 2 ^ 62 -> - maxIndex <= step < 0 ->
  (let '(start, end_) := normalizeSliceBounds s0 e0 step L in
   indices_down (Z.to_nat (start - end_)) [] start end_ step L) =
  (let start := clamp (-1) (L - 1) (if s0 <? 0 then s0 + L else s0) in
   let end_ := clamp (-1) (L - 1) (if e0 <? 0 then e0 + L else e0) in
   iterate_down (Z.to_nat (start - end_)) start end_ step).
Proof.
  intros HL Hs. unfold normalizeSliceBounds, clamp. cbv zeta.
  split_comparisons;
    (rewrite indices_down_iterate by lia; simpl;
     apply iterate_down_agree; lia).
Qed.

(** [sliceIndices] selects the indices of [slice_rfc]. *)
Lemma sliceIndices_rfc (a : SliceArgs) (L : Z) :
  0 <= L < 2 ^ 62 -> slice_in_range a ->
  sliceIndices a L = slice_rfc a L.
Proof.
  intros HL (Hstart & Hend & Hstep).
  unfold sliceIndices, slice_rfc, slice_with.
  assert (Hstep' : in_index_range (if HasStep a then Step a else 1)).
  { destruct (HasStep a); [auto|unfold in_index_range, maxIndex; lia]. }
  set (step := if HasStep a then Step a else 1) in *.
  unfold in_index_range in Hstep'.
  destruct (Z.eqb_spec L 0) as [->|HL0].
  - destruct (Z.eqb_spec step 0); [reflexivity|].
    destruct (Z.gtb_spec step 0); unfold clamp; simpl.
    + now rewrite iterate_up_empty by lia.
    + now rewrite iterate_down_empty by lia.
  - destruct (Z.eqb_spec step 0); [reflexivity|].
    destruct (Z.gtb_spec step 0).
    + apply positive_step_bounds; lia.
    + apply negative_step_bounds; lia.
Qed.

Lemma appendSlice_indices (out arr : list any) (a : SliceArgs) :
  appendSlice out arr a =
  out ++ map (index_at arr) (sliceIndices a (len arr)).
Proof.
  unfold appendSlice. generalize (sliceIndices a (len arr)) as idxs.
  intros idxs. revert out.
  induction idxs as [|i idxs IH]; intros out; simpl.
  - now rewrite app_nil_r.
  - rewrite IH. now rewrite <- app_assoc.
Qed.

(** The property as the specification words it: the top-level evaluator
    appends [arr[i]] for the indices selected with [start] clamped into
    [[0, L-1]] under a negative step. *)
Definition top_level_slice_as_specified : Prop :=
  forall (out arr : list any) (a : SliceArgs),
    len arr < 2 ^ 62 -> slice_in_range a ->
    appendSlice out arr a =
    out ++ map (index_at arr) (slice_as_specified a (len arr)).

(** [$[-10::-1]]. *)
Definition from_minus_ten_backwards : SliceArgs :=
  mkSliceArgs (-10) 0 (-1) true false true.

(** C2, counterexample: on a three-element array the slice [-10::-1]
    selects nothing in the top-level evaluator, while the clamp of [start]
    into [[0, L-1]] would select the first element. *)
Lemma slice_start_below_array_selects_nothing :
  ~ top_level_slice_as_specified.
Proof.
  intros H.
  specialize (H [] [Int 0; Int 1; Int 2] from_minus_ten_backwards).
  assert (Hr : slice_in_range from_minus_ten_backwards).
  { unfold slice_in_range, in_index_range, maxIndex. simpl. lia. }
  specialize (H ltac:(unfold len; simpl; lia) Hr).
  vm_compute in H. discriminate H.
Qed.

(** C2 (amended): for a slice selector applied by the top-level evaluator
    to an array of length [L], [step] defaults to 1 and a zero step selects
    nothing; for a positive step [start] defaults to 0 and [end] to [L], for
    a negative step [start] defaults to [L-1] and [end] to [-L-1]; negative
    bounds are normalized once by adding [L]; the bounds are clamped, for a
    positive step both into [[0, L]], for a negative step [start] into
    [[-1, L-1]] and [end] into [[-1, L-1]]; and [arr[i]] is appended for
    [i = start, start+step, ...] while [i < end] (positive step) or
    [i > end] (negative step). *)
Theorem top_level_slice_rfc (out arr : list any) (a : SliceArgs) :
  len arr < 2 ^ 62 -> slice_in_range a ->
  appendSlice out arr a = out ++ map (index_at arr) (slice_rfc a (len arr)).
Proof.
  intros HL Hr. rewrite appendSlice_indices.
  rewrite sliceIndices_rfc; [reflexivity| |exact Hr].
  unfold len in *. lia.
Qed.

Lemma top_level_slice_rfc_witness :
  appendSlice [] [Int 0; Int 1; Int 2; Int 3; Int 4]
              (mkSliceArgs 3 0 (-2) true false true)
  = [Int 3; Int 1].
Proof.
  rewrite (top_level_slice_rfc [] [Int 0; Int 1; Int 2; Int 3; Int 4]
             (mkSliceArgs 3 0 (-2) true false true)).
  - reflexivity.
  - unfold len; simpl; lia.
  - unfold slice_in_range, in_index_range, maxIndex; simpl; lia.
Defined.

End SliceFacts.

Module EvalFacts.

Import Ast JsonPath.

(** ** Unfolding equations of the evaluator of package ast *)

Lemma PathQuery_Select_eq (ord : range_oracle) (segs : list Segment)
      (isRoot : bool) (current root : any) :
  PathQuery_Select ord (mkPathQuery segs isRoot) current root =
  fold_left (fun result seg => Segment_Apply ord seg result root) segs
            [if negb isRoot then current else root].
Proof. reflexivity. Qed.

Lemma Segment_Apply_eq (ord : range_oracle) (sels : list Selector)
      (desc : bool) (nodes : list any) (root : any) :
  Segment_Apply ord (mkSegment sels desc) nodes root =
  if len nodes =? 0 then nodes
  else if desc
       then fold_left (fun result node =>
                         Ast.appendDescendant ord result sels node root)
                      nodes []
       else fold_left (fun result node =>
                         Ast.appendSelectors ord result sels node root)
                      nodes [].
Proof. reflexivity. Qed.

(** ** Singular queries *)

Lemma Selector_Apply_singular (ord : range_oracle) (s : Selector)
      (node root : any) :
  Selector_IsSingular s = true ->
  (List.length (Selector_Apply ord s [] node root) <= 1)%nat.
Proof.
  destruct s; simpl; try discriminate; intros _.
  - destruct node; simpl; auto. destruct (map_lookup name m); simpl; auto.
  - destruct node; simpl; auto.
    match goal with |- context [if ?c then _ else _] => destruct c end;
      simpl; auto.
Qed.

Lemma appendSelector_singular (ord : range_oracle) (s : Selector)
      (node root : any) :
  Selector_IsSingular s = true ->
  (List.length (appendSelector ord [] s node root) <= 1)%nat.
Proof.
  destruct s; simpl; try discriminate; intros _.
  - destruct node; simpl; auto. destruct (map_lookup name m); simpl; auto.
  - destruct node; simpl; auto.
    match goal with |- context [if ?c then _ else _] => destruct c end;
      simpl; auto.
Qed.

Lemma singular_segment_shape (s : Segment) :
  IsDescendant s = false -> Segment_IsSingular s = true ->
  exists s0, s = mkSegment [s0] false /\ Selector_IsSingular s0 = true.
Proof.
  destruct s as [sels d]. simpl. intros -> H. simpl in H.
  destruct (Z.eqb_spec (len sels) 1) as [Hlen|Hlen]; simpl in H;
    [|discriminate].
  unfold len in Hlen.
  destruct sels as [|s0 [|s1 rest]]; simpl in Hlen; try lia.
  exists s0. auto.
Qed.

Lemma Segment_Apply_singular (ord : range_oracle) (s0 : Selector)
      (nodes : list any) (root : any) :
  Selector_IsSingular s0 = true -> (List.length nodes <= 1)%nat ->
  (List.length (Segment_Apply ord (mkSegment [s0] false) nodes root) <= 1)%nat.
Proof.
  intros Hs Hn. rewrite Segment_Apply_eq.
  destruct nodes as [|n [|n' rest]]; simpl in *; try lia.
  unfold Ast.appendSelectors. simpl.
  now apply Selector_Apply_singular.
Qed.

Lemma applySegment_singular (ord : range_oracle) (s0 : Selector)
      (nodes : list any) (root : any) :
  Selector_IsSingular s0 = true -> (List.length nodes <= 1)%nat ->
  (List.length (applySegment ord (mkSegment [s0] false) nodes root) <= 1)%nat.
Proof.
  intros Hs Hn. unfold applySegment.
  destruct nodes as [|n [|n' rest]]; simpl in *; try lia.
  unfold JsonPath.appendSelectors. simpl.
  now apply appendSelector_singular.
Qed.

Lemma singular_segments (segs : list Segment) (isRoot : bool) :
  IsSingular (mkPathQuery segs isRoot) = true ->
  Forall (fun s => exists s0, s = mkSegment [s0] false
                              /\ Selector_IsSingular s0 = true) segs.
Proof.
  unfold IsSingular. simpl Segments.
  induction segs as [|s r IH]; intros H; constructor; simpl in H;
    destruct (IsDescendant s) eqn:Hd; try discriminate;
    destruct (Segment_IsSingular s) eqn:Hs; try discriminate.
  - now apply singular_segment_shape.
  - now apply IH.
Qed.

Lemma fold_singular {A} (step : Segment -> list A -> list A)
      (segs : list Segment) (start : list A) :
  (forall s0 nodes, Selector_IsSingular s0 = true ->
                    (List.length nodes <= 1)%nat ->
                    (List.length (step (mkSegment [s0] false) nodes) <= 1)%nat) ->
  Forall (fun s => exists s0, s = mkSegment [s0] false
                              /\ Selector_IsSingular s0 = true) segs ->
  (List.length start <= 1)%nat ->
  (List.length (fold_left (fun res seg => step seg res) segs start) <= 1)%nat.
Proof.
  intros Hstep Hall. revert start.
  induction Hall as [|s r (s0 & -> & Hs0) _ IH]; intros start Hstart; simpl.
  - exact Hstart.
  - apply IH. now apply Hstep.
Qed.

(** C8: a query whose [IsSingular] holds selects at most one node, for
    every document and current node, in the evaluator of package ast
    ([PathQuery.Select]) and in the top-level evaluator ([Path.Select]). *)
Theorem singular_query_selects_at_most_one
        (ord : range_oracle) (q : PathQuery) (current root : any) :
  IsSingular q = true ->
  (List.length (PathQuery_Select ord q current root) <= 1)%nat /\
  (List.length (selectNodes ord q root) <= 1)%nat.
Proof.
  destruct q as [segs isRoot]. intros Hq.
  assert (Hall : Forall (fun s => exists s0, s = mkSegment [s0] false
                                  /\ Selector_IsSingular s0 = true) segs).
  { apply (singular_segments segs isRoot). exact Hq. }
  split.
  - rewrite PathQuery_Select_eq.
    apply (fold_singular (fun seg res => Segment_Apply ord seg res root));
      auto.
    intros. now apply Segment_Apply_singular.
  - unfold selectNodes. simpl.
    apply (fold_singular (fun seg res => applySegment ord seg res root));
      auto.
    intros. now apply applySegment_singular.
Qed.

(** [$["a"][1]] on [{"a": [10, 20]}] selects the single node [20]. *)
Lemma singular_query_selects_at_most_one_witness :
  (List.length
     (PathQuery_Select in_order
        (NewPathQuery true [Child [NameSelector "a"];
                            Child [IndexSelector 1]])
        Nil (Obj [("a", Arr [Int 10; Int 20])])) <= 1)%nat /\
  (List.length
     (selectNodes in_order
        (NewPathQuery true [Child [NameSelector "a"];
                            Child [IndexSelector 1]])
        (Obj [("a", Arr [Int 10; Int 20])])) <= 1)%nat.
Proof.
  apply (singular_query_selects_at_most_one in_order
           (NewPathQuery true [Child [NameSelector "a"];
                               Child [IndexSelector 1]])
           Nil (Obj [("a", Arr [Int 10; Int 20])])).
  reflexivity.
Defined.

(** ** The two evaluators on a slice that starts below the array *)

(** [$[-10::-1]], and [$[?@[-10::-1]]] whose filter runs the same slice
    as a sub-query of each element. *)
Definition backwards_from_below : PathQuery :=
  NewPathQuery true [Child [SliceSelector SliceFacts.from_minus_ten_backwards]].

Definition has_backwards_from_below : PathQuery :=
  NewPathQuery true
    [Child [FilterSelector
              (mkFilterExpr
                 [[ExistExpr
                     (NewPathQuery false
                        [Child [SliceSelector
                                  SliceFacts.from_minus_ten_backwards]])]])]].

Definition three_numbers : any := Arr [Int 0; Int 1; Int 2].

(** C9, at the failing input: on [[0, 1, 2]] the query [$[-10::-1]]
    selects nothing in the top-level evaluator and the first element in the
    evaluator of package ast; so the filter [?@[-10::-1]] keeps the element
    [[0, 1, 2]] of a document although the same slice, evaluated at the top
    level on that element, is empty. *)
Theorem slice_evaluators_disagree (ord : range_oracle) (current : any) :
  selectNodes ord backwards_from_below three_numbers = [] /\
  PathQuery_Select ord backwards_from_below current three_numbers = [Int 0] /\
  selectNodes ord has_backwards_from_below (Arr [three_numbers])
  = [three_numbers].
Proof. repeat split; reflexivity. Qed.

End EvalFacts.

Module ListFacts.

Lemma pick_seq_from {A} (pre l : list A) :
  pick (seq (List.length pre) (List.length l)) (pre ++ l) = l.
Proof.
  revert pre. induction l as [|x l IH]; intros pre; simpl.
  - reflexivity.
  - rewrite nth_error_app2 by lia. rewrite Nat.sub_diag. simpl.
    f_equal.
    specialize (IH (pre ++ [x])).
    rewrite length_app in IH. simpl in IH.
    rewrite Nat.add_1_r in IH. rewrite <- app_assoc in IH. exact IH.
Qed.

Lemma pick_seq {A} (l : list A) : pick (seq 0 (List.length l)) l = l.
Proof. exact (pick_seq_from [] l). Qed.

Lemma pick_perm {A} (idxs : list nat) (l : list A) :
  Permutation idxs (seq 0 (List.length l)) -> Permutation (pick idxs l) l.
Proof.
  intros H. unfold pick.
  rewrite (Permutation_flat_map _ H).
  fold (pick (seq 0 (List.length l)) l). now rewrite pick_seq.
Qed.

Lemma ranged_perm (ord : range_oracle) (m : list (string * any)) :
  oracle_ok ord -> Permutation (ranged ord m) m.
Proof. intros H. apply pick_perm, H. Qed.

Lemma pick_map {A B} (f : A -> B) (idxs : list nat) (l : list A) :
  pick idxs (map f l) = map f (pick idxs l).
Proof.
  unfold pick. induction idxs as [|i idxs IH]; simpl; [reflexivity|].
  rewrite map_app, IH. f_equal.
  rewrite nth_error_map. now destruct (nth_error l i).
Qed.

Lemma ranged_in_order (m : list (string * any)) : ranged in_order m = m.
Proof. apply pick_seq. Qed.

Lemma Permutation_filter_ext {A} (f g : A -> bool) (l1 l2 : list A) :
  Permutation l1 l2 -> (forall x, f x = g x) ->
  Permutation (filter f l1) (filter g l2).
Proof.
  intros HP Hfg. rewrite (filter_ext f g Hfg).
  induction HP; simpl.
  - constructor.
  - destruct (g x); auto.
  - destruct (g x), (g y); auto. constructor.
  - etransitivity; eauto.
Qed.

Lemma Permutation_flat_map_pointwise {A B} (f g : A -> list B) (l : list A) :
  Forall (fun x => Permutation (f x) (g x)) l ->
  Permutation (flat_map f l) (flat_map g l).
Proof.
  induction 1; simpl; [constructor|].
  now apply Permutation_app.
Qed.

Lemma Permutation_flat_map_both {A B} (f g : A -> list B) (l1 l2 : list A) :
  Permutation l1 l2 -> (forall x, Permutation (f x) (g x)) ->
  Permutation (flat_map f l1) (flat_map g l2).
Proof.
  intros HP Hfg. rewrite (Permutation_flat_map f HP).
  apply Permutation_flat_map_pointwise.
  apply Forall_forall. auto.
Qed.

Lemma Permutation_concat {A} (l1 l2 : list (list A)) :
  Permutation l1 l2 -> Permutation (List.concat l1) (List.concat l2).
Proof.
  induction 1; simpl.
  - constructor.
  - now apply Permutation_app_head.
  - rewrite !app_assoc. apply Permutation_app_tail, Permutation_app_comm.
  - etransitivity; eauto.
Qed.

Lemma fold_left_appending_on {A B} (F : list B -> A -> list B) (l : list A)
      (out : list B) :
  Forall (fun x => forall out, F out x = out ++ F [] x) l ->
  fold_left F l out = out ++ flat_map (F []) l.
Proof.
  intros HF. revert out.
  induction HF as [|x l Hx _ IH]; intros out; simpl.
  - now rewrite app_nil_r.
  - rewrite IH, Hx. now rewrite <- app_assoc.
Qed.

Lemma fold_left_appending {A B} (F : list B -> A -> list B) (l : list A)
      (out : list B) :
  (forall out x, F out x = out ++ F [] x) ->
  fold_left F l out = out ++ flat_map (F []) l.
Proof.
  intros HF. apply fold_left_appending_on.
  apply Forall_forall. auto.
Qed.

End ListFacts.

Module AppendFacts.

Import Ast ListFacts.

(** Every evaluator function appends to its [out] argument. *)

Lemma slice_up_appends (fuel : nat) (out arr : list any) (i end_ step : Z) :
  slice_up fuel out arr i end_ step = out ++ slice_up fuel [] arr i end_ step.
Proof.
  revert out i. induction fuel as [|fuel IH]; intros out i; simpl.
  - now rewrite app_nil_r.
  - destruct (i <? end_); [|now rewrite app_nil_r].
    rewrite IH. rewrite (IH [index_at arr i]). now rewrite <- app_assoc.
Qed.

Lemma slice_down_appends (fuel : nat) (out arr : list any) (i end_ step : Z) :
  slice_down fuel out arr i end_ step =
  out ++ slice_down fuel [] arr i end_ step.
Proof.
  revert out i. induction fuel as [|fuel IH]; intros out i; simpl.
  - now rewrite app_nil_r.
  - destruct (i >? end_); [|now rewrite app_nil_r].
    rewrite IH. rewrite (IH [index_at arr i]). now rewrite <- app_assoc.
Qed.

Lemma applySlice_appends (a : SliceArgs) (out arr : list any) :
  applySlice a out arr = out ++ applySlice a [] arr.
Proof.
  unfold applySlice.
  destruct (len arr =? 0); [now rewrite app_nil_r|].
  destruct ((if negb (HasStep a) then 1 else Step a) =? 0);
    [now rewrite app_nil_r|].
  destruct ((if negb (HasStep a) then 1 else Step a) >? 0).
  - apply slice_up_appends.
  - apply slice_down_appends.
Qed.

Lemma Selector_Apply_appends (ord : range_oracle) (s : Selector)
      (out : list any) (node root : any) :
  Selector_Apply ord s out node root = out ++ Selector_Apply ord s [] node root.
Proof.
  destruct s; simpl.
  - destruct node; try now rewrite app_nil_r.
    destruct (map_lookup name m); [reflexivity|now rewrite app_nil_r].
  - destruct node; try now rewrite app_nil_r.
    match goal with |- context [if ?c then _ else _] => destruct c end;
      [reflexivity|now rewrite app_nil_r].
  - destruct node; try now rewrite app_nil_r.
    apply applySlice_appends.
  - destruct node; simpl; try reflexivity; now rewrite app_nil_r.
  - destruct node; simpl; try reflexivity; now rewrite app_nil_r.
Qed.

Lemma appendSelectors_flat_map (ord : range_oracle) (out : list any)
      (sels : list Selector) (node root : any) :
  Ast.appendSelectors ord out sels node root =
  out ++ flat_map (fun s => Selector_Apply ord s [] node root) sels.
Proof.
  unfold Ast.appendSelectors.
  apply (fold_left_appending
           (fun out sel => Selector_Apply ord sel out node root)).
  intros. apply Selector_Apply_appends.
Qed.

(** The nodes [descend] visits below [node], in the order of the visit. *)
Definition children_results (ord : range_oracle)
           (app : list any -> any -> list any) (node : any) : list any :=
  match node with
  | Obj m =>
      List.concat (pick (ord m)
                        (map (fun kv => descend ord app [] (snd kv)) m))
  | Arr l => flat_map (descend ord app []) l
  | _ => []
  end.

Lemma descend_appends (ord : range_oracle)
      (app : list any -> any -> list any) :
  (forall out n, app out n = out ++ app [] n) ->
  forall node out,
    descend ord app out node = out ++ descend ord app [] node.
Proof.
  intros Happ node.
  induction node as [| | | | | | |l IH|m IH] using any_ind';
    intros out; simpl; try (rewrite Happ; now rewrite ?app_nil_r).
  - rewrite (fold_left_appending_on
               (fun out v => descend ord app out v) l (app out (Arr l)))
      by exact IH.
    rewrite (fold_left_appending_on
               (fun out v => descend ord app out v) l (app [] (Arr l)))
      by exact IH.
    rewrite Happ. now rewrite <- app_assoc.
  - rewrite Happ. now rewrite <- app_assoc.
Qed.

Lemma descend_unfold (ord : range_oracle)
      (app : list any -> any -> list any) (node : any) :
  (forall out n, app out n = out ++ app [] n) ->
  descend ord app [] node = app [] node ++ children_results ord app node.
Proof.
  intros Happ. destruct node; simpl; try now rewrite app_nil_r.
  - apply fold_left_appending_on.
    apply Forall_forall. intros v _ out. now apply descend_appends.
  - reflexivity.
Qed.

End AppendFacts.

Module OrderFacts.

Import Ast AstInd ListFacts AppendFacts.

(** Two argument values a function may receive from two evaluations that
    range over maps in different orders: the same value, or two node lists
    with the same nodes. *)
Definition arg_equiv (a b : any) : Prop :=
  a = b \/ exists l1 l2, a = Arr l1 /\ b = Arr l2 /\ Permutation l1 l2.

(** A function whose result does not depend on the order of the nodes in
    the node lists it receives. *)
Definition order_insensitive (fn : Function) : Prop :=
  forall args1 args2,
    Forall2 arg_equiv args1 args2 -> Call fn args1 = Call fn args2.

Section EvalArgs.

Variable ord : range_oracle.
Variable argTypes : list ArgType.
Variables current root : any.

(** The argument loop of [FuncExpr.Call]. *)
Fixpoint evalArgs (args : list FuncArg) (i : nat) : list any :=
  match args with
  | [] => []
  | a :: rest =>
      FuncArg_eval ord a (nth_error argTypes i) current root
      :: evalArgs rest (S i)
  end.

End EvalArgs.

Lemma FuncExpr_Call_eq (ord : range_oracle) (name : string) (fn : Function)
      (args : list FuncArg) (argTypes : list ArgType) (current root : any) :
  FuncExpr_Call ord (mkFuncExpr name fn args argTypes) current root =
  Call fn (evalArgs ord argTypes current root args O).
Proof. reflexivity. Qed.

Definition LogicalOr_Eval (ord : range_oracle) (lo : list (list BasicExpr))
           (current root : any) : bool :=
  existsb (fun la => forallb (fun e => BasicExpr_Eval ord e current root) la)
          lo.

Lemma singleton_or_default {A} (d : A) (l1 l2 : list A) :
  Permutation l1 l2 ->
  match l1 with [n] => n | _ => d end = match l2 with [n] => n | _ => d end.
Proof.
  intros H. destruct l1 as [|a [|b l1]].
  - apply Permutation_nil in H. now subst.
  - apply Permutation_length_1_inv in H. now subst.
  - apply Permutation_length in H.
    destruct l2 as [|c [|e l2]]; simpl in H; try discriminate. reflexivity.
Qed.

Section Invariance.

Variables o1 o2 : range_oracle.
Hypothesis Ho1 : oracle_ok o1.
Hypothesis Ho2 : oracle_ok o2.

Lemma ranged_both (m : list (string * any)) :
  Permutation (ranged o1 m) (ranged o2 m).
Proof.
  transitivity m; [now apply ranged_perm|].
  symmetry. now apply ranged_perm.
Qed.

Lemma descend_perm (app1 app2 : list any -> any -> list any) :
  (forall out n, app1 out n = out ++ app1 [] n) ->
  (forall out n, app2 out n = out ++ app2 [] n) ->
  (forall n, Permutation (app1 [] n) (app2 [] n)) ->
  forall node,
    Permutation (descend o1 app1 [] node) (descend o2 app2 [] node).
Proof.
  intros H1 H2 H12 node.
  induction node as [| | | | | | |l IH|m IH] using any_ind';
    rewrite (descend_unfold o1 app1) by exact H1;
    rewrite (descend_unfold o2 app2) by exact H2;
    apply Permutation_app; try apply H12; simpl; try constructor.
  - now apply Permutation_flat_map_pointwise.
  - transitivity
      (List.concat (map (fun kv => descend o1 app1 [] (snd kv)) m)).
    { apply Permutation_concat, pick_perm.
      rewrite length_map. apply Ho1. }
    transitivity
      (List.concat (map (fun kv => descend o2 app2 [] (snd kv)) m)).
    { rewrite <- !flat_map_concat_map.
      now apply Permutation_flat_map_pointwise. }
    symmetry. apply Permutation_concat, pick_perm.
    rewrite length_map. apply Ho2.
Qed.

Definition funcs_ok (fs : list Function) : Prop :=
  Forall order_insensitive fs.

Definition PSel (s : Selector) : Prop :=
  funcs_ok (Selector_funcs s) ->
  forall node root,
    Permutation (Selector_Apply o1 s [] node root)
                (Selector_Apply o2 s [] node root).

Definition PFilter (f : FilterExpr) : Prop :=
  funcs_ok (FilterExpr_funcs f) ->
  forall current root,
    FilterExpr_Eval o1 f current root = FilterExpr_Eval o2 f current root.

Definition PBasic (e : BasicExpr) : Prop :=
  funcs_ok (BasicExpr_funcs e) ->
  forall current root,
    BasicExpr_Eval o1 e current root = BasicExpr_Eval o2 e current root.

Definition PComp (c : CompValue) : Prop :=
  funcs_ok (CompValue_funcs c) ->
  forall current root,
    CompValue_Value o1 c current root = CompValue_Value o2 c current root.

Definition PFunc (fe : FuncExpr) : Prop :=
  funcs_ok (FuncExpr_funcs fe) ->
  forall current root,
    FuncExpr_Call o1 fe current root = FuncExpr_Call o2 fe current root.

Definition PArg (a : FuncArg) : Prop :=
  funcs_ok (FuncArg_funcs a) ->
  forall ty current root,
    arg_equiv (FuncArg_eval o1 a ty current root)
              (FuncArg_eval o2 a ty current root).

Definition PQuery (q : PathQuery) : Prop :=
  funcs_ok (PathQuery_funcs q) ->
  forall current root,
    Permutation (PathQuery_Select o1 q current root)
                (PathQuery_Select o2 q current root).

Definition PSeg (s : Segment) : Prop :=
  funcs_ok (Segment_funcs s) ->
  forall nodes1 nodes2 root,
    Permutation nodes1 nodes2 ->
    Permutation (Segment_Apply o1 s nodes1 root)
                (Segment_Apply o2 s nodes2 root).

Lemma LogicalOr_Eval_invariant (lo : list (list BasicExpr))
      (current root : any) :
  Forall (Forall PBasic) lo ->
  funcs_ok (flat_map (flat_map BasicExpr_funcs) lo) ->
  LogicalOr_Eval o1 lo current root = LogicalOr_Eval o2 lo current root.
Proof.
  unfold LogicalOr_Eval, funcs_ok.
  induction 1 as [|la lo Hla _ IH]; intros Hf; simpl; [reflexivity|].
  apply Forall_app in Hf. destruct Hf as [Hfa Hfo].
  rewrite (IH Hfo). f_equal.
  clear IH Hfo. induction Hla as [|e la He _ IH]; simpl; [reflexivity|].
  simpl in Hfa. apply Forall_app in Hfa. destruct Hfa as [Hfe Hfa].
  rewrite (IH Hfa). f_equal. now apply He.
Qed.

Lemma evalArgs_invariant (argTypes : list ArgType) (current root : any)
      (args : list FuncArg) (i : nat) :
  Forall PArg args ->
  funcs_ok (flat_map FuncArg_funcs args) ->
  Forall2 arg_equiv (evalArgs o1 argTypes current root args i)
                    (evalArgs o2 argTypes current root args i).
Proof.
  unfold funcs_ok. intros H. revert i.
  induction H as [|a args Ha _ IH]; intros i Hf; simpl; constructor.
  - simpl in Hf. apply Forall_app in Hf. now apply Ha.
  - simpl in Hf. apply Forall_app in Hf. now apply IH.
Qed.

Lemma appendSelectors_invariant (sels : list Selector) (node root : any) :
  Forall PSel sels ->
  funcs_ok (flat_map Selector_funcs sels) ->
  Permutation (Ast.appendSelectors o1 [] sels node root)
              (Ast.appendSelectors o2 [] sels node root).
Proof.
  unfold funcs_ok. intros H Hf.
  rewrite !appendSelectors_flat_map. simpl.
  apply Permutation_flat_map_pointwise.
  apply Forall_flat_map in Hf.
  rewrite Forall_forall in *. intros s Hs.
  apply (H s Hs). exact (Hf s Hs).
Qed.

Lemma Segment_Apply_invariant (sels : list Selector) (desc : bool) :
  Forall PSel sels -> PSeg (mkSegment sels desc).
Proof.
  intros H Hf nodes1 nodes2 root HP. simpl in Hf.
  rewrite !EvalFacts.Segment_Apply_eq.
  assert (Hlen : len nodes1 = len nodes2).
  { unfold len. now rewrite (Permutation_length HP). }
  rewrite Hlen. destruct (len nodes2 =? 0); [exact HP|].
  destruct desc.
  - rewrite (fold_left_appending
               (fun result node => Ast.appendDescendant o1 result sels node root)).
    2:{ intros. apply descend_appends.
        intros. rewrite appendSelectors_flat_map.
        now rewrite (appendSelectors_flat_map _ []). }
    rewrite (fold_left_appending
               (fun result node => Ast.appendDescendant o2 result sels node root)).
    2:{ intros. apply descend_appends.
        intros. rewrite appendSelectors_flat_map.
        now rewrite (appendSelectors_flat_map _ []). }
    simpl. apply Permutation_flat_map_both; [exact HP|].
    intros node. apply descend_perm.
    + intros. rewrite appendSelectors_flat_map.
      now rewrite (appendSelectors_flat_map _ []).
    + intros. rewrite appendSelectors_flat_map.
      now rewrite (appendSelectors_flat_map _ []).
    + intros. now apply appendSelectors_invariant.
  - rewrite (fold_left_appending
               (fun result node => Ast.appendSelectors o1 result sels node root)).
    2:{ intros. rewrite appendSelectors_flat_map.
        now rewrite (appendSelectors_flat_map _ []). }
    rewrite (fold_left_appending
               (fun result node => Ast.appendSelectors o2 result sels node root)).
    2:{ intros. rewrite appendSelectors_flat_map.
        now rewrite (appendSelectors_flat_map _ []). }
    simpl. apply Permutation_flat_map_both; [exact HP|].
    intros node. now apply appendSelectors_invariant.
Qed.

Lemma PathQuery_Select_invariant (segs : list Segment) (isRoot : bool) :
  Forall PSeg segs -> PQuery (mkPathQuery segs isRoot).
Proof.
  intros H Hf current root. simpl in Hf.
  rewrite !EvalFacts.PathQuery_Select_eq.
  generalize (Permutation_refl [if negb isRoot then current else root]).
  generalize [if negb isRoot then current else root] at 1 3 as l1.
  generalize [if negb isRoot then current else root] as l2.
  unfold funcs_ok in Hf.
  induction H as [|s segs Hs _ IH]; intros l2 l1 HP; simpl; [exact HP|].
  simpl in Hf. apply Forall_app in Hf. destruct Hf as [Hfs Hfr].
  apply IH; [exact Hfr|]. now apply Hs.
Qed.

Lemma PSel_Name (name : string) : PSel (NameSelector name).
Proof. intros _ node root. reflexivity. Qed.

Lemma PSel_Index (idx : Z) : PSel (IndexSelector idx).
Proof. intros _ node root. reflexivity. Qed.

Lemma PSel_Slice (a : SliceArgs) : PSel (SliceSelector a).
Proof. intros _ node root. reflexivity. Qed.

Lemma PSel_Wildcard : PSel WildcardSelector.
Proof.
  intros _ node root. destruct node; simpl; try reflexivity.
  apply Permutation_map, ranged_both.
Qed.

Lemma PSel_Filter (f : FilterExpr) : PFilter f -> PSel (FilterSelector f).
Proof.
  intros Hf Hfs node root. simpl in Hfs.
  destruct node; simpl; try reflexivity.
  - apply Permutation_filter_ext; [reflexivity|].
    intros x. now apply Hf.
  - apply Permutation_filter_ext; [apply Permutation_map, ranged_both|].
    intros x. now apply Hf.
Qed.

Lemma PFilter_mk (lo : list (list BasicExpr)) :
  Forall (Forall PBasic) lo -> PFilter (mkFilterExpr lo).
Proof.
  intros H Hf current root. simpl in Hf.
  now apply (LogicalOr_Eval_invariant lo current root).
Qed.

Lemma PBasic_Exist (q : PathQuery) : PQuery q -> PBasic (ExistExpr q).
Proof.
  intros H Hf current root. simpl in *.
  destruct (len (Segments q) =? 0); [reflexivity|].
  unfold len. now rewrite (Permutation_length (H Hf current root)).
Qed.

Lemma PBasic_NonExist (q : PathQuery) : PQuery q -> PBasic (NonExistExpr q).
Proof.
  intros H Hf current root. simpl in *.
  destruct (len (Segments q) =? 0); [reflexivity|].
  unfold len. now rewrite (Permutation_length (H Hf current root)).
Qed.

Lemma PBasic_Paren (lo : list (list BasicExpr)) :
  Forall (Forall PBasic) lo -> PBasic (ParenExpr lo).
Proof.
  intros H Hf current root. simpl in Hf.
  now apply (LogicalOr_Eval_invariant lo current root).
Qed.

Lemma PBasic_NotParen (lo : list (list BasicExpr)) :
  Forall (Forall PBasic) lo -> PBasic (NotParenExpr lo).
Proof.
  intros H Hf current root. simpl in Hf.
  change (negb (LogicalOr_Eval o1 lo current root) =
          negb (LogicalOr_Eval o2 lo current root)).
  f_equal. now apply LogicalOr_Eval_invariant.
Qed.

Lemma PBasic_NegFunc (fe : FuncExpr) : PFunc fe -> PBasic (NegFuncExpr fe).
Proof.
  intros H Hf current root. simpl in *. now rewrite (H Hf).
Qed.

Lemma PBasic_Comp (l : CompValue) (op : CompOp) (r : CompValue) :
  PComp l -> PComp r -> PBasic (CompExpr l op r).
Proof.
  intros Hl Hr Hf current root. simpl in *.
  apply Forall_app in Hf. destruct Hf as [Hfl Hfr].
  now rewrite (Hl Hfl), (Hr Hfr).
Qed.

Lemma PBasic_FuncTest (fe : FuncExpr) : PFunc fe -> PBasic (FuncTest fe).
Proof.
  intros H Hf current root. simpl in *. now rewrite (H Hf).
Qed.

Lemma PComp_Literal (v : any) : PComp (LiteralValue v).
Proof. intros _ current root. reflexivity. Qed.

Lemma PComp_Query (q : PathQuery) : PQuery q -> PComp (QueryValue q).
Proof.
  intros H Hf current root. simpl in *.
  apply singleton_or_default. now apply H.
Qed.

Lemma PComp_Func (fe : FuncExpr) : PFunc fe -> PComp (FuncValue fe).
Proof. intros H Hf current root. simpl in *. now apply H. Qed.

Lemma PFunc_mk (name : string) (fn : Function) (args : list FuncArg)
      (argTypes : list ArgType) :
  Forall PArg args -> PFunc (mkFuncExpr name fn args argTypes).
Proof.
  intros H Hf current root. simpl in Hf.
  rewrite !FuncExpr_Call_eq.
  inversion Hf as [|? ? Hfn Hargs]; subst.
  apply Hfn. now apply evalArgs_invariant.
Qed.

Lemma PArg_Query (q : PathQuery) : PQuery q -> PArg (ArgQuery q).
Proof.
  intros H Hf ty current root. simpl in *.
  specialize (H Hf current root).
  assert (Hnodes : arg_equiv (Arr (PathQuery_Select o1 q current root))
                             (Arr (PathQuery_Select o2 q current root))).
  { right. eauto. }
  assert (Hone : arg_equiv
                   (if IsSingular q
                    then match PathQuery_Select o1 q current root with
                         | [n] => n
                         | _ => Nil
                         end
                    else Arr (PathQuery_Select o1 q current root))
                   (if IsSingular q
                    then match PathQuery_Select o2 q current root with
                         | [n] => n
                         | _ => Nil
                         end
                    else Arr (PathQuery_Select o2 q current root))).
  { destruct (IsSingular q); [|exact Hnodes].
    left. now apply singleton_or_default. }
  destruct ty as [[]|]; assumption.
Qed.

Lemma PArg_Func (fe : FuncExpr) : PFunc fe -> PArg (ArgFunc fe).
Proof. intros H Hf ty current root. simpl in *. left. now apply H. Qed.

Lemma PArg_Comp (c : CompValue) : PComp c -> PArg (ArgComp c).
Proof. intros H Hf ty current root. simpl in *. left. now apply H. Qed.

Lemma PArg_Other (v : any) : PArg (ArgOther v).
Proof. intros _ ty current root. now left. Qed.

(** The node list of a query does not depend on the order in which maps
    are ranged over, up to the order of the nodes. *)
Lemma PathQuery_Select_order (q : PathQuery) : PQuery q.
Proof.
  apply (PathQuery_ok PSel PFilter PBasic PComp PFunc PArg PQuery PSeg
           PSel_Name PSel_Index PSel_Slice PSel_Wildcard PSel_Filter
           PFilter_mk PBasic_Exist PBasic_NonExist PBasic_Paren
           PBasic_NotParen PBasic_NegFunc PBasic_Comp PBasic_FuncTest
           PComp_Literal PComp_Query PComp_Func PFunc_mk
           PArg_Query PArg_Func PArg_Comp PArg_Other
           PathQuery_Select_invariant Segment_Apply_invariant).
Qed.

(** The verdict of a filter does not depend on that order at all. *)
Lemma FilterExpr_Eval_order (f : FilterExpr) : PFilter f.
Proof.
  apply (FilterExpr_ok PSel PFilter PBasic PComp PFunc PArg PQuery PSeg
           PSel_Name PSel_Index PSel_Slice PSel_Wildcard PSel_Filter
           PFilter_mk PBasic_Exist PBasic_NonExist PBasic_Paren
           PBasic_NotParen PBasic_NegFunc PBasic_Comp PBasic_FuncTest
           PComp_Literal PComp_Query PComp_Func PFunc_mk
           PArg_Query PArg_Func PArg_Comp PArg_Other
           PathQuery_Select_invariant Segment_Apply_invariant).
Qed.

End Invariance.

End OrderFacts.

Module LocatedFacts.

Import Ast JsonPath ListFacts.

Lemma fold_left_simulation {A B C} (V : B -> C)
      (F : list B -> A -> list B) (G : list C -> A -> list C)
      (l : list A) (out : list B) :
  (forall out x, map V (F out x) = G (map V out) x) ->
  map V (fold_left F l out) = fold_left G l (map V out).
Proof.
  intros H. revert out.
  induction l as [|x l IH]; intros out; simpl; [reflexivity|].
  now rewrite IH, H.
Qed.

Lemma fold_left_map_arg {A B C} (h : A -> B) (G : C -> B -> C)
      (l : list A) (acc : C) :
  fold_left (fun out n => G out (h n)) l acc = fold_left G (map h l) acc.
Proof.
  revert acc. induction l as [|x l IH]; intros acc; simpl; auto.
Qed.

Lemma map_snd_indexed (l : list any) : map snd (indexed l) = l.
Proof.
  unfold indexed.
  assert (H : forall (ks : list Z), List.length ks = List.length l ->
                                    map snd (combine ks l) = l).
  { induction l as [|x l IH]; intros [|k ks] Hk; simpl in *;
      try discriminate; try reflexivity.
    f_equal. apply IH. lia. }
  apply H. now rewrite length_map, length_seq.
Qed.

Section Projection.

Variable ord : range_oracle.

Lemma appendSliceLocated_values (out : list LocatedNode) (arr : list any)
      (path : NormalizedPath) (a : SliceArgs) :
  map Value (appendSliceLocated out arr path a) =
  appendSlice (map Value out) arr a.
Proof.
  unfold appendSliceLocated, appendSlice.
  apply fold_left_simulation.
  intros o x. now rewrite map_app.
Qed.

Lemma appendSelectorLocated_values (out : list LocatedNode) (sel : Selector)
      (node : any) (path : NormalizedPath) (root : any) :
  map Value (appendSelectorLocated ord out sel node path root) =
  appendSelector ord (map Value out) sel node root.
Proof.
  destruct sel; simpl.
  - destruct node; try reflexivity.
    destruct (map_lookup name m); [now rewrite map_app|reflexivity].
  - destruct node; try reflexivity.
    match goal with |- context [if ?c then _ else _] => destruct c end;
      [now rewrite map_app|reflexivity].
  - destruct node; try reflexivity.
    apply appendSliceLocated_values.
  - destruct node; try reflexivity.
    + rewrite map_app, map_map. simpl. f_equal.
      change (map (fun x : Z * any => snd x) (indexed l) = l).
      apply map_snd_indexed.
    + rewrite map_app, map_map. reflexivity.
  - destruct node; try reflexivity.
    + rewrite map_app, map_map. simpl. f_equal.
      rewrite <- (map_snd_indexed l) at 2.
      generalize (indexed l) as ivs. intros ivs.
      induction ivs as [|iv ivs IH]; simpl; [reflexivity|].
      destruct (FilterExpr_Eval ord expr (snd iv) root); simpl;
        now rewrite IH.
    + rewrite map_app, map_map. simpl. f_equal.
      generalize (ranged ord m) as kvs. intros kvs.
      induction kvs as [|kv kvs IH]; simpl; [reflexivity|].
      destruct (FilterExpr_Eval ord expr (snd kv) root); simpl;
        now rewrite IH.
Qed.

Lemma appendSelectorsLocated_values (out : list LocatedNode)
      (sels : list Selector) (node : any) (path : NormalizedPath)
      (root : any) :
  map Value (appendSelectorsLocated ord out sels node path root) =
  JsonPath.appendSelectors ord (map Value out) sels node root.
Proof.
  unfold appendSelectorsLocated, JsonPath.appendSelectors.
  apply fold_left_simulation.
  intros. apply appendSelectorLocated_values.
Qed.

Lemma appendDescendantLocated_values (seg : Segment) (root : any)
      (node : any) :
  forall (out : list LocatedNode) (path : NormalizedPath),
    map Value (appendDescendantLocated ord out seg node path root) =
    JsonPath.appendDescendant ord (map Value out) seg node root.
Proof.
  induction node as [| | | | | | |l IH|m IH] using any_ind';
    intros out path; simpl; try apply appendSelectorsLocated_values.
  - rewrite <- appendSelectorsLocated_values with (path := path).
    generalize (appendSelectorsLocated ord out (Selectors seg) (Arr l)
                                       path root) as out0.
    generalize 0 as idx.
    induction IH as [|child rest Hchild _ IHrest]; intros idx out0; simpl.
    + reflexivity.
    + rewrite IHrest. now rewrite Hchild.
  - rewrite map_app, appendSelectorsLocated_values. f_equal.
    rewrite concat_map. f_equal.
    rewrite <- pick_map, map_map. f_equal.
    apply map_ext_Forall.
    rewrite Forall_forall in *. intros kv Hkv.
    now rewrite (IH kv Hkv).
Qed.

Lemma applySegmentLocated_values (seg : Segment) (nodes : list LocatedNode)
      (root : any) :
  map Value (applySegmentLocated ord seg nodes root) =
  applySegment ord seg (map Value nodes) root.
Proof.
  unfold applySegmentLocated, applySegment.
  assert (Hlen : len (map Value nodes) = len nodes).
  { unfold len. now rewrite length_map. }
  rewrite Hlen. destruct (len nodes =? 0); [reflexivity|].
  destruct (IsDescendant seg).
  - rewrite (fold_left_simulation Value
               (fun out n => appendDescendantLocated ord out seg (Value n)
                                                     (Path_ n) root)
               (fun out n => JsonPath.appendDescendant ord out seg
                                                       (Value n) root)).
    + simpl.
      apply (fold_left_map_arg Value
               (fun out n => JsonPath.appendDescendant ord out seg n root)).
    + intros. apply appendDescendantLocated_values.
  - rewrite (fold_left_simulation Value
               (fun out n => appendSelectorsLocated ord out (Selectors seg)
                                                    (Value n) (Path_ n) root)
               (fun out n => JsonPath.appendSelectors ord out (Selectors seg)
                                                      (Value n) root)).
    + simpl.
      apply (fold_left_map_arg Value
               (fun out n => JsonPath.appendSelectors ord out (Selectors seg)
                                                      n root)).
    + intros. apply appendSelectorsLocated_values.
Qed.

(** The values of the located result are the bare result, element by
    element, when both evaluations range over maps in the same order. *)
Lemma selectLocatedNodes_values (q : PathQuery) (input : any) :
  map Value (selectLocatedNodes ord q input) = selectNodes ord q input.
Proof.
  unfold selectLocatedNodes, selectNodes.
  change [input] with (map Value [mkLocatedNode input []]).
  generalize [mkLocatedNode input []] as res.
  induction (Segments q) as [|seg segs IH]; intros res; simpl.
  - reflexivity.
  - rewrite IH. now rewrite applySegmentLocated_values.
Qed.

End Projection.

End LocatedFacts.

Module TopLevelFacts.

Import Ast AstInd JsonPath ListFacts AppendFacts OrderFacts.

Lemma appendSlice_appends (out arr : list any) (a : SliceArgs) :
  appendSlice out arr a = out ++ appendSlice [] arr a.
Proof. now rewrite !SliceFacts.appendSlice_indices. Qed.

Lemma appendSelector_appends (ord : range_oracle) (out : list any)
      (sel : Selector) (node root : any) :
  appendSelector ord out sel node root =
  out ++ appendSelector ord [] sel node root.
Proof.
  destruct sel; simpl.
  - destruct node; try now rewrite app_nil_r.
    destruct (map_lookup name m); [reflexivity|now rewrite app_nil_r].
  - destruct node; try now rewrite app_nil_r.
    match goal with |- context [if ?c then _ else _] => destruct c end;
      [reflexivity|now rewrite app_nil_r].
  - destruct node; try now rewrite app_nil_r.
    apply appendSlice_appends.
  - destruct node; simpl; try reflexivity; now rewrite app_nil_r.
  - destruct node; simpl; try reflexivity; now rewrite app_nil_r.
Qed.

Lemma top_appendSelectors_flat_map (ord : range_oracle) (out : list any)
      (sels : list Selector) (node root : any) :
  JsonPath.appendSelectors ord out sels node root =
  out ++ flat_map (fun s => appendSelector ord [] s node root) sels.
Proof.
  unfold JsonPath.appendSelectors.
  apply (fold_left_appending
           (fun out sel => appendSelector ord out sel node root)).
  intros. apply appendSelector_appends.
Qed.

Lemma appendSelectors_appends (ord : range_oracle) (out : list any)
      (sels : list Selector) (node root : any) :
  JsonPath.appendSelectors ord out sels node root =
  out ++ JsonPath.appendSelectors ord [] sels node root.
Proof.
  rewrite top_appendSelectors_flat_map.
  now rewrite (top_appendSelectors_flat_map ord []).
Qed.

Lemma fold_left_ext_on {A B} (f g : B -> A -> B) (l : list A) (acc : B) :
  Forall (fun x => forall acc, f acc x = g acc x) l ->
  fold_left f l acc = fold_left g l acc.
Proof.
  intros H. revert acc.
  induction H as [|x l Hx _ IH]; intros acc; simpl; [reflexivity|].
  now rewrite Hx, IH.
Qed.

(** The recursion of [appendDescendant] in jsonpath.go is the one of
    segment.go, with the top-level [appendSelectors]. *)
Lemma appendDescendant_descend (ord : range_oracle) (seg : Segment)
      (root : any) (node : any) :
  forall out,
    JsonPath.appendDescendant ord out seg node root =
    descend ord (fun out n =>
                   JsonPath.appendSelectors ord out (Selectors seg) n root)
            out node.
Proof.
  induction node as [| | | | | | |l IH|m IH] using any_ind';
    intros out; simpl; try reflexivity.
  - apply fold_left_ext_on. exact IH.
  - do 3 f_equal. apply map_ext_Forall.
    revert IH. apply Forall_impl. intros kv H. apply H.
Qed.

Section Invariance.

Variables o1 o2 : range_oracle.
Hypothesis Ho1 : oracle_ok o1.
Hypothesis Ho2 : oracle_ok o2.

Lemma appendSelector_order (sel : Selector) (node root : any) :
  funcs_ok (Selector_funcs sel) ->
  Permutation (appendSelector o1 [] sel node root)
              (appendSelector o2 [] sel node root).
Proof.
  intros Hf. destruct sel; simpl; try reflexivity.
  - destruct node; simpl; try reflexivity.
    apply Permutation_map. now apply ranged_both.
  - simpl in Hf. destruct node; simpl; try reflexivity.
    + apply Permutation_filter_ext; [reflexivity|].
      intros x. now apply FilterExpr_Eval_order.
    + apply Permutation_filter_ext.
      * apply Permutation_map. now apply ranged_both.
      * intros x. now apply FilterExpr_Eval_order.
Qed.

Lemma appendSelectors_order (sels : list Selector) (node root : any) :
  funcs_ok (flat_map Selector_funcs sels) ->
  Permutation (JsonPath.appendSelectors o1 [] sels node root)
              (JsonPath.appendSelectors o2 [] sels node root).
Proof.
  unfold funcs_ok. intros Hf.
  rewrite !top_appendSelectors_flat_map. simpl.
  apply Permutation_flat_map_pointwise.
  apply Forall_flat_map in Hf.
  rewrite Forall_forall in *. intros s Hs.
  apply appendSelector_order. exact (Hf s Hs).
Qed.

Lemma applySegment_order (seg : Segment) (nodes1 nodes2 : list any)
      (root : any) :
  funcs_ok (Segment_funcs seg) -> Permutation nodes1 nodes2 ->
  Permutation (applySegment o1 seg nodes1 root)
              (applySegment o2 seg nodes2 root).
Proof.
  destruct seg as [sels desc]. simpl. intros Hf HP.
  unfold applySegment. simpl.
  assert (Hlen : len nodes1 = len nodes2).
  { unfold len. now rewrite (Permutation_length HP). }
  rewrite Hlen. destruct (len nodes2 =? 0); [exact HP|].
  destruct desc.
  - rewrite (fold_left_appending
               (fun out n =>
                  JsonPath.appendDescendant o1 out (mkSegment sels true)
                                            n root)).
    2:{ intros. rewrite !appendDescendant_descend.
        apply descend_appends. intros. apply appendSelectors_appends. }
    rewrite (fold_left_appending
               (fun out n =>
                  JsonPath.appendDescendant o2 out (mkSegment sels true)
                                            n root)).
    2:{ intros. rewrite !appendDescendant_descend.
        apply descend_appends. intros. apply appendSelectors_appends. }
    simpl. apply Permutation_flat_map_both; [exact HP|].
    intros node. rewrite !appendDescendant_descend.
    apply descend_perm; auto.
    + intros. apply appendSelectors_appends.
    + intros. apply appendSelectors_appends.
    + intros. now apply appendSelectors_order.
  - rewrite (fold_left_appending
               (fun out n => JsonPath.appendSelectors o1 out sels n root)).
    2:{ intros. apply appendSelectors_appends. }
    rewrite (fold_left_appending
               (fun out n => JsonPath.appendSelectors o2 out sels n root)).
    2:{ intros. apply appendSelectors_appends. }
    simpl. apply Permutation_flat_map_both; [exact HP|].
    intros node. now apply appendSelectors_order.
Qed.

(** The bare result does not depend on the order in which maps are ranged
    over, up to the order of its nodes. *)
Lemma selectNodes_order (q : PathQuery) (input : any) :
  funcs_ok (PathQuery_funcs q) ->
  Permutation (selectNodes o1 q input) (selectNodes o2 q input).
Proof.
  destruct q as [segs isRoot]. unfold selectNodes, funcs_ok. simpl.
  generalize (Permutation_refl [input]).
  generalize [input] at 1 3 as l1.
  generalize [input] as l2.
  induction segs as [|s segs IH]; intros l2 l1 HP Hf; simpl; [exact HP|].
  apply Forall_app in Hf. destruct Hf as [Hfs Hfr].
  apply IH; [|exact Hfr]. now apply applySegment_order.
Qed.

End Invariance.

(** The oracle that visits the members in reverse order. *)
Definition reversed : range_oracle := fun m => rev (seq 0 (List.length m)).

Lemma in_order_ok : oracle_ok in_order.
Proof. intros m. reflexivity. Qed.

Lemma reversed_ok : oracle_ok reversed.
Proof. intros m. symmetry. apply Permutation_rev. Qed.

(** The values of the located result of a query equal its bare result
    as multisets, whatever the orders in which the two evaluations range
    over maps (the functions called in filters not depending on the order
    of their node lists), and element by element when both evaluations
    range over maps in the same order. *)
Lemma selectLocatedNodes_values_order
      (o1 o2 : range_oracle) (q : PathQuery) (input : any) :
  oracle_ok o1 -> oracle_ok o2 ->
  Forall order_insensitive (PathQuery_funcs q) ->
  Permutation (map Value (selectLocatedNodes o1 q input))
              (selectNodes o2 q input)
  /\ map Value (selectLocatedNodes o1 q input) = selectNodes o1 q input.
Proof.
  intros Ho1 Ho2 Hf. split.
  - rewrite LocatedFacts.selectLocatedNodes_values.
    now apply selectNodes_order.
  - apply LocatedFacts.selectLocatedNodes_values.
Qed.

(** [{"x": {"a": 1}, "y": [{"a": 2}, 3]}]. *)
Definition nested_doc : any :=
  Obj [("x", Obj [("a", Int 1)]);
       ("y", Arr [Obj [("a", Int 2)]; Int 3])].

End TopLevelFacts.

Module LexerFacts.

Import Lexer.

(** What remains to be read: nothing once the current rune is the end
    marker, else the current rune and the bytes from [nextPos]. *)
Definition measure (l : Lexer) : nat :=
  if r l <? 0 then O else S (String.length (src l) - nextPos l).

(** A lexer that holds a rune has read it from a source that is not
    empty. *)
Definition wf (l : Lexer) : Prop :=
  r l < 0 \/ (1 <= nextPos l /\ 1 <= String.length (src l))%nat.

Lemma substring_length (s : string) :
  forall n m : nat,
    (n + m <= String.length s)%nat -> String.length (substring n m s) = m.
Proof.
  induction s as [|c s IH]; intros n m H; simpl in *.
  - destruct n, m; simpl in *; try reflexivity; lia.
  - destruct n as [|n].
    + destruct m as [|m]; simpl; [reflexivity|].
      f_equal. apply IH. lia.
    + apply IH. lia.
Qed.

Lemma DecodeRuneInString_width (s : string) :
  s <> EmptyString -> (1 <= snd (Utf8.DecodeRuneInString s))%nat.
Proof.
  intros Hs. unfold Utf8.DecodeRuneInString.
  destruct s as [|c0 rest]; [congruence|].
  repeat match goal with
         | |- context [match ?x with _ => _ end] => destruct x
         end; simpl; lia.
Qed.

Lemma rune_at_width (s : string) (pos : nat) :
  (pos < String.length s)%nat -> (1 <= snd (rune_at s pos))%nat.
Proof.
  intros H. unfold rune_at.
  destruct (byte_at s pos >=? Utf8.RuneSelf); [|simpl; lia].
  apply DecodeRuneInString_width. intros E.
  assert (L : String.length (from s pos) = (String.length s - pos)%nat)
    by (apply substring_length; lia).
  rewrite E in L. simpl in L. lia.
Qed.

Lemma src_next (l : Lexer) : src (next l) = src l.
Proof.
  unfold next. destruct (nextPos l <? String.length (src l))%nat;
    [destruct (rune_at _ _)|]; reflexivity.
Qed.

Lemma next_wf (l : Lexer) : wf (next l).
Proof.
  unfold next, wf.
  destruct (Nat.ltb_spec (nextPos l) (String.length (src l))) as [H|H].
  - pose proof (rune_at_width _ _ H) as W.
    destruct (rune_at _ _) as [x w]. simpl in *. right. lia.
  - left. simpl. lia.
Qed.

Lemma next_lt (l : Lexer) :
  0 <= r l -> (measure (next l) < measure l)%nat.
Proof.
  intros Hr. unfold measure at 2.
  destruct (Z.ltb_spec (r l) 0) as [|_]; [lia|].
  unfold next, measure.
  destruct (Nat.ltb_spec (nextPos l) (String.length (src l))) as [H|H].
  - pose proof (rune_at_width _ _ H) as W.
    destruct (rune_at _ _) as [x w]. simpl in *.
    destruct (x <? 0); lia.
  - simpl. lia.
Qed.

Lemma measure_bound (l : Lexer) : wf l -> (measure l < bound l)%nat.
Proof.
  unfold wf, measure, bound. intros [H|H].
  - destruct (Z.ltb_spec (r l) 0); lia.
  - destruct (r l <? 0); lia.
Qed.


Ltac eval_ch :=
  repeat match goal with
         | |- context [ch ?c] =>
             let v := eval vm_compute in (ch c) in change (ch c) with v
         | H : context [ch ?c] |- _ =>
             let v := eval vm_compute in (ch c) in
             change (ch c) with v in H
         end.

Ltac compare_all :=
  eval_ch;
  repeat match goal with
         | H : context [?a =? ?b] |- _ => destruct (Z.eqb_spec a b)
         | H : context [?a <? ?b] |- _ => destruct (Z.ltb_spec a b)
         | H : context [?a <=? ?b] |- _ => destruct (Z.leb_spec a b)
         | H : context [?a >=? ?b] |- _ =>
             rewrite (Z.geb_leb a b) in H
         | |- context [?a =? ?b] => destruct (Z.eqb_spec a b)
         | |- context [?a <? ?b] => destruct (Z.ltb_spec a b)
         | |- context [?a <=? ?b] => destruct (Z.leb_spec a b)
         | |- context [?a >=? ?b] => rewrite (Z.geb_leb a b)
         end;
  cbn [andb orb negb] in *; try reflexivity; try discriminate; try lia.

(** The conditions of the loops are false on the end marker. *)
Definition stops_at_end (cond : Z -> bool) : Prop :=
  forall x, x < 0 -> cond x = false.

Lemma stops_nonneg (cond : Z -> bool) (x : Z) :
  stops_at_end cond -> cond x = true -> 0 <= x.
Proof.
  intros Hc Hx. destruct (Z.lt_ge_cases x 0) as [H|H]; [|exact H].
  rewrite (Hc x H) in Hx. discriminate.
Qed.

Lemma isBlankSpace_stops : stops_at_end isBlankSpace.
Proof. intros x Hx. unfold isBlankSpace. compare_all. Qed.

Lemma isDigit_stops : stops_at_end isDigit.
Proof. intros x Hx. unfold isDigit. compare_all. Qed.

Lemma isNameFirst_stops : stops_at_end isNameFirst.
Proof. intros x Hx. unfold isNameFirst. compare_all. Qed.

Lemma isNameChar_stops : stops_at_end isNameChar.
Proof.
  intros x Hx. unfold isNameChar.
  now rewrite (isNameFirst_stops x Hx), (isDigit_stops x Hx).
Qed.

Lemma hexVal_nonneg (x : Z) : (hexVal x <? 0) = false -> 0 <= x.
Proof.
  unfold hexVal. intros H.
  destruct (Z.lt_ge_cases x 0) as [Hx|Hx]; [|exact Hx].
  exfalso. compare_all.
Qed.

Lemma isUnescaped_nonneg (x quote : Z) :
  isUnescaped x quote = true -> 0 <= x.
Proof.
  unfold isUnescaped. destruct (x =? quote); [discriminate|].
  intros H. destruct (Z.lt_ge_cases x 0) as [Hx|Hx]; [|exact Hx].
  exfalso. compare_all.
Qed.

Lemma skip_while_src (cond : Z -> bool) (fuel : nat) :
  forall l, src (skip_while cond fuel l) = src l.
Proof.
  induction fuel as [|fuel IH]; intros l; simpl; [reflexivity|].
  destruct (cond (r l)); [|reflexivity]. now rewrite IH, src_next.
Qed.

Lemma skip_while_wf (cond : Z -> bool) (fuel : nat) :
  forall l, wf l -> wf (skip_while cond fuel l).
Proof.
  induction fuel as [|fuel IH]; intros l H; simpl; [exact H|].
  destruct (cond (r l)); [|exact H]. apply IH, next_wf.
Qed.

Lemma skip_while_le (cond : Z -> bool) (fuel : nat) :
  stops_at_end cond ->
  forall l, (measure (skip_while cond fuel l) <= measure l)%nat.
Proof.
  intros Hc. induction fuel as [|fuel IH]; intros l; simpl; [lia|].
  destruct (cond (r l)) eqn:E; [|lia].
  pose proof (next_lt l (stops_nonneg _ _ Hc E)). specialize (IH (next l)).
  lia.
Qed.

Lemma skip_while_lt (cond : Z -> bool) (fuel : nat) (l : Lexer) :
  stops_at_end cond -> cond (r l) = true ->
  (measure (skip_while cond (S fuel) l) < measure l)%nat.
Proof.
  intros Hc E. simpl. rewrite E.
  pose proof (next_lt l (stops_nonneg _ _ Hc E)).
  pose proof (skip_while_le cond fuel Hc (next l)). lia.
Qed.

(** A loop leaves by its condition, and not by its bound: the bound of
    its caller or a larger one give the same lexer. *)
Lemma skip_while_fuel (cond : Z -> bool) (k : nat) :
  stops_at_end cond ->
  forall fuel l,
    (measure l < fuel)%nat ->
    skip_while cond (fuel + k) l = skip_while cond fuel l
    /\ cond (r (skip_while cond fuel l)) = false.
Proof.
  intros Hc. induction fuel as [|fuel IH]; intros l H; [lia|].
  simpl. destruct (cond (r l)) eqn:E; [|now split].
  apply IH. pose proof (next_lt l (stops_nonneg _ _ Hc E)). lia.
Qed.

Lemma skip_while_bound (cond : Z -> bool) (k : nat) (l : Lexer) :
  stops_at_end cond -> wf l ->
  skip_while cond (bound l + k) l = skip_while cond (bound l) l
  /\ cond (r (skip_while cond (bound l) l)) = false.
Proof.
  intros Hc Hl. apply skip_while_fuel; [exact Hc|].
  now apply measure_bound.
Qed.


(** A scanned token: the lexer it leaves is well-formed, and unless the
    token is invalid less remains to be read. *)
Definition advances (l : Lexer) (res : Token * Lexer) : Prop :=
  wf (snd res)
  /\ (Kind_ (fst res) = Kind.Invalid
      \/ (measure (snd res) < measure l)%nat).

Lemma errToken_advances (l0 l : Lexer) (start : nat) (msg : string) :
  advances l0 (errToken l start msg).
Proof. split; [left; simpl; lia|left; reflexivity]. Qed.

Lemma peek_next (l : Lexer) (c : Z) :
  (peek l =? c) = true -> 0 <= c -> r (next l) = c.
Proof.
  unfold peek, next. intros H Hc. apply Z.eqb_eq in H.
  destruct (nextPos l <? String.length (src l))%nat; [|simpl in *; lia].
  destruct (rune_at _ _); exact H.
Qed.

Ltac stops :=
  first [ exact isDigit_stops | exact isNameChar_stops
        | exact isNameFirst_stops | exact isBlankSpace_stops ].

Ltac rfact :=
  first
    [ assumption
    | match goal with
      | H : (?x =? ?c) = true |- 0 <= ?x =>
          rewrite (proj1 (Z.eqb_eq x c) H);
          first [assumption | apply Z.leb_le; vm_compute; reflexivity]
      | H : negb (?x =? ?c) = false |- 0 <= ?x =>
          rewrite (proj1 (Z.eqb_eq x c) (proj1 (negb_false_iff _) H));
          first [assumption | apply Z.leb_le; vm_compute; reflexivity]
      | H : isDigit ?x = true |- 0 <= ?x =>
          exact (stops_nonneg _ _ isDigit_stops H)
      | H : negb (isDigit ?x) = false |- 0 <= ?x =>
          exact (stops_nonneg _ _ isDigit_stops
                              (proj1 (negb_false_iff _) H))
      | H : isNameFirst ?x = true |- 0 <= ?x =>
          exact (stops_nonneg _ _ isNameFirst_stops H)
      | H : (hexVal ?x <? 0) = false |- 0 <= ?x => exact (hexVal_nonneg _ H)
      | H : isUnescaped ?x _ = true |- 0 <= ?x =>
          exact (isUnescaped_nonneg _ _ H)
      | H : (?x <? 0) = false |- 0 <= ?x => exact (proj1 (Z.ltb_ge _ _) H)
      | H : (?x =? ?a) || (?x =? ?b) = true |- 0 <= ?x =>
          let E := fresh in
          destruct (proj1 (orb_true_iff _ _) H) as [E|E];
          rewrite (proj1 (Z.eqb_eq _ _) E);
          apply Z.leb_le; vm_compute; reflexivity
      end ].

Ltac wf_tac :=
  repeat first [ assumption | apply next_wf | apply skip_while_wf ].

Ltac le_chain :=
  first
    [ apply Nat.le_refl
    | match goal with
      | |- (measure (next ?Y) <= _)%nat =>
          apply (Nat.le_trans _ (measure Y));
          [apply Nat.lt_le_incl, next_lt; rfact | le_chain]
      | |- (measure (skip_while ?c ?f ?Y) <= _)%nat =>
          apply (Nat.le_trans _ (measure Y));
          [apply skip_while_le; stops | le_chain]
      end
    | lia ].

Ltac lt_chain :=
  match goal with
  | |- (measure _ < measure ?L)%nat =>
      first
        [ apply (Nat.le_lt_trans _ (measure (next L)));
          [le_chain | apply next_lt; rfact]
        | apply (Nat.le_lt_trans _ (measure (skip_while isDigit (bound L) L)));
          [le_chain | apply skip_while_lt; [stops | assumption]]
        | apply (Nat.le_lt_trans _
                   (measure (skip_while isNameChar (bound L) L)));
          [le_chain | apply skip_while_lt; [stops | assumption]] ]
  end.

Ltac split_ifs :=
  repeat (cbv beta iota zeta;
          match goal with
          | |- context [if ?b then _ else _] => destruct b eqn:?
          end);
  cbv beta iota zeta.

Ltac finish :=
  first [ apply errToken_advances
        | split; [cbn [fst snd]; wf_tac | right; cbn [fst snd]; lt_chain] ].

Lemma one_advances (k : Kind.t) (l : Lexer) :
  0 <= r l -> advances l (one k l).
Proof. intros H. unfold one. finish. Qed.

Lemma two_advances (l : Lexer) (second : Z) (k2 : Kind.t)
      (otherwise : Lexer -> Token * Lexer) :
  0 <= r l -> 0 <= second ->
  advances l (otherwise (next l)) ->
  advances l (two l second k2 otherwise).
Proof.
  intros H Hs Ho. unfold two. split_ifs; [|exact Ho].
  split; [cbn [fst snd]; wf_tac|right; cbn [fst snd]].
  apply (Nat.lt_trans _ (measure (next l))); apply next_lt; [|exact H].
  now rewrite (peek_next l second).
Qed.

Lemma scanIdent_advances (l : Lexer) :
  wf l -> isNameFirst (r l) = true -> advances l (scanIdent l).
Proof.
  intros Hl H. unfold scanIdent.
  assert (Hc : isNameChar (r l) = true) by (unfold isNameChar; now rewrite H).
  split_ifs; finish.
Qed.

Lemma scanNumber_advances (l : Lexer) :
  wf l -> (r l =? ch "-") || isDigit (r l) = true ->
  advances l (scanNumber l).
Proof.
  intros Hl H. unfold scanNumber. split_ifs; finish.
Qed.


Lemma scanHex_le (n : nat) :
  forall acc l,
    wf l ->
    wf (snd (scanHex n acc l))
    /\ (measure (snd (scanHex n acc l)) <= measure l)%nat.
Proof.
  induction n as [|n IH]; intros acc l Hl; simpl; [split; [exact Hl|lia]|].
  destruct (hexVal (r l) <? 0) eqn:E; simpl; [split; [exact Hl|lia]|].
  destruct (IH (acc * 16 + hexVal (r l)) (next l) (next_wf l)) as [Hw Hm].
  split; [exact Hw|].
  pose proof (next_lt l (hexVal_nonneg _ E)). lia.
Qed.

(** An escape sequence consumes at least its backslash. *)
Definition consumes (l : Lexer) (res : option string * Lexer) : Prop :=
  wf (snd res) /\ (measure (snd res) < measure l)%nat.

Lemma scanUnicodeEscape_le (l : Lexer) (buf : string) :
  0 <= r l ->
  wf (snd (scanUnicodeEscape l buf))
  /\ (measure (snd (scanUnicodeEscape l buf)) <= measure l)%nat.
Proof.
  intros Hr. unfold scanUnicodeEscape, scanHex4.
  pose proof (next_lt l Hr) as H0.
  destruct (scanHex_le 4 0 (next l) (next_wf l)) as [Hw1 Hm1].
  destruct (scanHex 4 0 (next l)) as [r1 l1]. cbn [fst snd] in *.
  split_ifs; cbn [fst snd]; try (split; [wf_tac|le_chain]).
  destruct (scanHex_le 4 0 (next (next l1)) (next_wf _)) as [Hw2 Hm2].
  destruct (scanHex 4 0 (next (next l1))) as [low l2]. cbn [fst snd] in *.
  assert (Hn : (measure (next (next l1)) <= measure l1)%nat) by le_chain.
  split_ifs; cbn [fst snd]; (split; [assumption|lia]).
Qed.

Lemma scanEscape_consumes (l : Lexer) (quote : Z) (buf : string) :
  0 <= r l -> 0 <= quote -> consumes l (scanEscape l quote buf).
Proof.
  intros Hr Hq. unfold scanEscape, consumes.
  pose proof (next_lt l Hr) as H0.
  split_ifs; cbn [fst snd];
    try (split; [wf_tac | lt_chain]).
  assert (Hu : 0 <= r (next l)) by rfact.
  destruct (scanUnicodeEscape_le (next l) buf Hu) as [Hw Hm].
  split; [exact Hw|lia].
Qed.


Lemma errToken_invalid (l : Lexer) (start : nat) (msg : string) (P : Prop) :
  wf (snd (errToken l start msg))
  /\ (Kind_ (fst (errToken l start msg)) = Kind.Invalid \/ P).
Proof. split; [left; simpl; lia|left; reflexivity]. Qed.

(** The loop of [scanString] ends by its own tests: its bound or a larger
    one give the same token. *)
Lemma scanString_loop_spec (start : nat) (quote : Z) (k : nat) :
  0 <= quote ->
  forall fuel l buf,
    wf l -> (measure l < fuel)%nat ->
    (wf (snd (scanString_loop fuel l start quote buf))
     /\ (Kind_ (fst (scanString_loop fuel l start quote buf)) = Kind.Invalid
         \/ (measure (snd (scanString_loop fuel l start quote buf))
             <= measure l)%nat))
    /\ scanString_loop (fuel + k) l start quote buf
       = scanString_loop fuel l start quote buf.
Proof.
  intros Hq. induction fuel as [|fuel IH]; intros l buf Hl Hf; [lia|].
  simpl.
  destruct (r l >=? 0) eqn:Hr;
    [|split; [apply errToken_invalid|reflexivity]].
  assert (Hr' : 0 <= r l) by (rewrite Z.geb_leb in Hr; lia).
  pose proof (next_lt l Hr') as Hn.
  destruct (r l =? quote) eqn:E1.
  { split; [|reflexivity]. cbn [fst snd].
    split; [apply next_wf|right; lia]. }
  destruct (r l =? ch "\") eqn:E2.
  { destruct (scanEscape_consumes l quote buf Hr' Hq) as [Hw Hm].
    destruct (scanEscape l quote buf) as [[buf'|] l']; cbn [fst snd] in *.
    - destruct (IH l' buf' Hw ltac:(lia)) as [[Hw' Hm'] Hk].
      split; [|exact Hk]. split; [exact Hw'|].
      destruct Hm' as [Hm'|Hm']; [now left|right; lia].
    - split; [apply errToken_invalid|reflexivity]. }
  destruct (isUnescaped (r l) quote) eqn:E3;
    [|split; [apply errToken_invalid|reflexivity]].
  destruct (IH (next l) (buf +s+ Utf8.EncodeRune (r l)) (next_wf l)
               ltac:(lia)) as [[Hw' Hm'] Hk].
  split; [|exact Hk]. split; [exact Hw'|].
  destruct Hm' as [Hm'|Hm']; [now left|right; lia].
Qed.

Lemma scanString_advances (l : Lexer) :
  wf l -> 0 <= r l -> advances l (scanString l).
Proof.
  intros Hl Hr. unfold scanString.
  pose proof (next_lt l Hr) as Hn. pose proof (measure_bound l Hl) as Hb.
  destruct (scanString_loop_spec (rPos l) (r l) 0 Hr (bound l) (next l) ""
              (next_wf l) ltac:(lia)) as [[Hw Hm] _].
  split; [exact Hw|]. destruct Hm as [Hm|Hm]; [now left|right; lia].
Qed.

Lemma scanString_bound (l : Lexer) (k : nat) :
  wf l -> 0 <= r l ->
  scanString_loop (bound l + k) (next l) (rPos l) (r l) "" = scanString l.
Proof.
  intros Hl Hr. unfold scanString.
  pose proof (next_lt l Hr) as Hn. pose proof (measure_bound l Hl) as Hb.
  apply scanString_loop_spec; [exact Hr|apply next_wf|lia].
Qed.

Lemma advances_mono (l0 l : Lexer) (res : Token * Lexer) :
  (measure l0 <= measure l)%nat -> advances l0 res -> advances l res.
Proof.
  intros Hm [Hw [H|H]]; (split; [exact Hw|]); [now left|right; lia].
Qed.

(** [Scan] returns the end of the input, an invalid token, or a token
    that it has consumed. *)
Lemma Scan_advances (l : Lexer) :
  wf l ->
  Kind_ (fst (Scan l)) = Kind.EOF \/ advances l (Scan l).
Proof.
  intros Hl. unfold Scan.
  pose proof (skip_while_le isBlankSpace (bound l) isBlankSpace_stops l)
    as Hm.
  pose proof (skip_while_wf isBlankSpace (bound l) l Hl) as Hw.
  set (l1 := skip_while isBlankSpace (bound l) l) in *.
  destruct (r l1 <? 0) eqn:Hr; [now left|right].
  apply (advances_mono l1 l _ Hm).
  assert (Hr' : 0 <= r l1) by (apply Z.ltb_ge; exact Hr).
  cbv zeta.
  repeat lazymatch goal with
         | |- advances _ (if ?b then _ else _) =>
             destruct b eqn:?;
             [ first
                 [ apply one_advances; exact Hr'
                 | apply two_advances;
                   [ exact Hr'
                   | apply Z.leb_le; vm_compute; reflexivity
                   | cbv beta; finish ]
                 | apply scanString_advances; assumption
                 | apply scanNumber_advances; [exact Hw|];
                   apply orb_true_iff; auto
                 | apply scanIdent_advances; assumption ]
             | ]
         end.
  apply errToken_advances.
Qed.

(** The end of the input and the invalid token end the scanning. *)
Definition terminal (tok : Token) : bool :=
  Kind.eqb (Kind_ tok) Kind.EOF || Kind.eqb (Kind_ tok) Kind.Invalid.

(** The loop of [New] ends with a terminal token, and its bound or a
    larger one give the same tokens. *)
Lemma scan_all_spec (k : nat) :
  forall fuel l tokens,
    wf l -> (measure l < fuel)%nat ->
    scan_all (fuel + k) l tokens = scan_all fuel l tokens
    /\ exists ts tok,
         scan_all fuel l tokens = tokens ++ ts ++ [tok]
         /\ terminal tok = true
         /\ forallb (fun t => negb (terminal t)) ts = true.
Proof.
  induction fuel as [|fuel IH]; intros l tokens Hl Hf; [lia|].
  simpl. pose proof (Scan_advances l Hl) as Hs.
  destruct (Scan l) as [tok l']. cbn [fst snd] in Hs.
  fold (terminal tok). destruct (terminal tok) eqn:Ht.
  - split; [reflexivity|]. exists [], tok. now repeat split.
  - assert (Ha : advances l (tok, l')).
    { destruct Hs as [Hs|Hs]; [|exact Hs].
      unfold terminal in Ht. rewrite Hs in Ht. discriminate. }
    destruct Ha as [Hw [Hi|Hm]].
    { unfold terminal in Ht. cbn [fst] in Hi. rewrite Hi in Ht.
      discriminate. }
    cbn [snd] in *.
    destruct (IH l' (tokens ++ [tok]) Hw ltac:(lia))
      as [Hk (ts & last_ & E & Hlast & Hts)].
    split; [exact Hk|]. exists (tok :: ts), last_. repeat split.
    + rewrite E, <- app_assoc. reflexivity.
    + exact Hlast.
    + simpl. now rewrite Ht, Hts.
Qed.

(** The scanning of [New] ends within its bound, with the end of the
    input or with an invalid token, which no earlier token is. *)
Lemma tokenize_spec (s : string) :
  (forall k, scan_all (S (String.length s) + k) (New s) [] = tokenize s)
  /\ exists ts tok,
       tokenize s = ts ++ [tok]
       /\ terminal tok = true
       /\ forallb (fun t => negb (terminal t)) ts = true.
Proof.
  assert (Hm : (measure (New s) < S (String.length s))%nat).
  { pose proof (measure_bound (New s) (next_wf _)) as H.
    unfold bound, New in H. rewrite src_next in H. exact H. }
  split.
  - intros k. apply (scan_all_spec k _ _ [] (next_wf _) Hm).
  - apply (scan_all_spec 0 _ _ [] (next_wf _) Hm).
Qed.

End LexerFacts.

Module RuneFacts.
Import Functions.

Lemma substring_length_le (s : string) :
  forall n m : nat, (String.length (substring n m s) <= m)%nat.
Proof.
  induction s as [|c s IH]; intros n m; simpl.
  - destruct n, m; simpl; lia.
  - destruct n as [|n]; [|apply IH].
    destruct m as [|m]; simpl; [lia|]. specialize (IH O m). lia.
Qed.

(** The loop over the runes of a string ends with the string: its bound
    or a larger one give the same runes. *)
Lemma runes_of_fuel_enough (k : nat) :
  forall fuel s,
    (String.length s <= fuel)%nat ->
    runes_of_fuel (fuel + k) s = runes_of_fuel fuel s.
Proof.
  induction fuel as [|fuel IH]; intros s H.
  - destruct s; [|simpl in H; lia]. destruct k; reflexivity.
  - destruct s as [|c rest]; [reflexivity|].
    cbn [Nat.add runes_of_fuel].
    pose proof (LexerFacts.DecodeRuneInString_width (String c rest)
                  ltac:(discriminate)) as W.
    destruct (Utf8.DecodeRuneInString (String c rest)) as [x w].
    cbn [snd] in W. f_equal. apply IH.
    pose proof (substring_length_le (String c rest) w
                  (String.length (String c rest) - w)) as L.
    revert H L. generalize (String.length (String c rest)).
    intros n H L. lia.
Qed.

End RuneFacts.

Module ParserFacts.

Import Ast AstInd Static Parser.

(** What a parsing computation guarantees from a read position: it does
    not run out of fuel, and a result satisfies [Q]. *)
Definition hoare {A} (m : P A) (pos : nat) (Q : A -> nat -> Prop) : Prop :=
  match m pos with
  | Ok a pos' => Q a pos'
  | Err _ => True
  | OutOfFuel => False
  end.

Lemma hoare_ret {A} (a : A) (pos : nat) (Q : A -> nat -> Prop) :
  Q a pos -> hoare (ret a) pos Q.
Proof. intros H. exact H. Qed.

Lemma hoare_fail {A} (e : nat -> error) (pos : nat) (Q : A -> nat -> Prop) :
  hoare (throw e) pos Q.
Proof. exact I. Qed.

Lemma hoare_bind {A B} (m : P A) (k : A -> P B) (pos : nat)
      (Q1 : A -> nat -> Prop) (Q2 : B -> nat -> Prop) :
  hoare m pos Q1 ->
  (forall a pos', Q1 a pos' -> hoare (k a) pos' Q2) ->
  hoare (bind m k) pos Q2.
Proof.
  unfold hoare, bind. intros Hm Hk.
  destruct (m pos) as [a pos'| |]; auto.
  now apply Hk.
Qed.

Lemma hoare_assoc {A B C} (m : P A) (k1 : A -> P B) (k2 : B -> P C)
      (pos : nat) (Q : C -> nat -> Prop) :
  hoare (bind m (fun x => bind (k1 x) k2)) pos Q ->
  hoare (bind (bind m k1) k2) pos Q.
Proof.
  unfold hoare, bind. now destruct (m pos).
Qed.

Lemma hoare_ret_bind {A B} (a : A) (k : A -> P B) (pos : nat)
      (Q : B -> nat -> Prop) :
  hoare (k a) pos Q -> hoare (bind (ret a) k) pos Q.
Proof. intros H. exact H. Qed.

Lemma hoare_weaken {A} (m : P A) (pos : nat) (Q Q' : A -> nat -> Prop) :
  hoare m pos Q -> (forall a pos', Q a pos' -> Q' a pos') -> hoare m pos Q'.
Proof.
  unfold hoare. intros Hm HQ. destruct (m pos); auto.
Qed.

Section Specs.

Variable src : string.
Variable tokens : list Lexer.Token.
Variable funcs : list (string * entry).
Variable ParseFloat : string -> option spec_float.

(** A property of the functions of the registry. *)
Variable Pfn : Function -> Prop.
Hypothesis funcs_ok :
  forall name fn, lookup name funcs = Some (IsFunction fn) -> Pfn fn.

(** A parsed node is fine when it respects the static rules and calls
    only functions of the registry. *)
Definition ok {A} (static : A -> bool) (fs : A -> list Function) (a : A)
  : Prop :=
  static a = true /\ Forall Pfn (fs a).

Definition LogicalOr_static (lo : LogicalOr) : bool :=
  forallb (forallb BasicExpr_static) lo.

Definition LogicalOr_funcs (lo : LogicalOr) : list Function :=
  flat_map (flat_map BasicExpr_funcs) lo.


Lemma check_at_in_range (k : Kind.t) (pos : nat) :
  check_at tokens k pos = true -> (pos < List.length tokens)%nat.
Proof.
  unfold check_at, isAtEnd.
  destruct (List.length tokens <=? pos)%nat eqn:H; simpl; [discriminate|].
  intros _. now apply Nat.leb_gt.
Qed.

(** [match] consumes one token when it succeeds, none otherwise. *)
Lemma match_spec (k : Kind.t) (pos : nat) :
  hoare (match_ tokens k) pos
        (fun b pos' => if b then pos' = S pos /\ (pos < List.length tokens)%nat
                       else pos' = pos).
Proof.
  unfold hoare, match_.
  destruct (check_at tokens k pos) eqn:Hc; [|reflexivity].
  pose proof (check_at_in_range k pos Hc) as Hlt.
  unfold check_at in Hc. unfold bind, advance, ret.
  destruct (isAtEnd tokens pos); [discriminate|]. simpl. auto.
Qed.

Lemma advance_spec (pos : nat) :
  hoare (advance tokens) pos (fun _ pos' => (pos <= pos')%nat).
Proof.
  unfold hoare, advance. destruct (isAtEnd tokens pos); simpl; lia.
Qed.

Lemma check_spec (k : Kind.t) (pos : nat) :
  hoare (check tokens k) pos (fun _ pos' => pos' = pos).
Proof. reflexivity. Qed.

Lemma atEnd_spec (pos : nat) :
  hoare (atEnd tokens) pos (fun _ pos' => pos' = pos).
Proof. reflexivity. Qed.

Lemma get_previous_spec (pos : nat) :
  hoare (get_previous tokens) pos (fun _ pos' => pos' = pos).
Proof. reflexivity. Qed.

Lemma checkCompOp_spec (pos : nat) :
  hoare (checkCompOp tokens) pos (fun _ pos' => pos' = pos).
Proof. reflexivity. Qed.

Lemma check_name_spec (pos : nat) :
  hoare (check_name tokens) pos (fun _ pos' => pos' = pos).
Proof. reflexivity. Qed.

Lemma check_literal_spec (pos : nat) :
  hoare (check_literal tokens) pos (fun _ pos' => pos' = pos).
Proof. reflexivity. Qed.

Lemma no_space_after_spec (tok : Lexer.Token) (msg : string) (pos : nat) :
  hoare (no_space_after tokens tok msg) pos (fun _ pos' => pos' = pos).
Proof.
  unfold hoare, no_space_after.
  now destruct (negb (isAtEnd tokens pos)
                && (Lexer.End_ tok <? Lexer.Start (peek tokens pos))%nat).
Qed.

Lemma error_spec {A} (msg : string) (pos : nat) (Q : A -> nat -> Prop) :
  hoare (error_ tokens msg) pos Q.
Proof. exact I. Qed.

(** One step of a proof about a parsing function: the specification of
    the first computation of a [bind], then the rest. *)
Ltac prim_spec :=
  first [ apply match_spec | apply advance_spec | apply check_spec
        | apply atEnd_spec | apply get_previous_spec
        | apply checkCompOp_spec | apply check_name_spec
        | apply check_literal_spec | apply no_space_after_spec ].

Ltac tidy :=
  repeat match goal with
         | H : _ /\ _ |- _ => destruct H
         | H : negb _ = false |- _ => apply negb_false_iff in H
         | H : negb _ = true |- _ => apply negb_true_iff in H
         | H : ?x = true |- _ => is_var x; subst x
         | H : ?x = false |- _ => is_var x; subst x
         | H : context [if true then _ else _] |- _ => cbv iota in H
         | H : context [if false then _ else _] |- _ => cbv iota in H
         | H : ?x = S _ |- _ => is_var x; subst x
         | H : ?x = ?y |- _ => is_var x; is_var y; subst x
         end.

Ltac hstep spec :=
  lazymatch goal with
  | |- hoare (bind (if ?b then _ else _) _) _ _ => destruct b eqn:?; tidy
  | |- hoare (bind (bind _ _) _) _ _ => apply hoare_assoc
  | |- hoare (bind (ret _) _) _ _ => apply hoare_ret_bind
  | |- hoare (bind _ _) _ _ =>
      eapply hoare_bind;
      [first [prim_spec | spec]|cbv beta; intros ? ? ?; tidy]
  | |- hoare (if ?b then _ else _) _ _ => destruct b eqn:?; tidy
  | |- hoare (match ?x with _ => _ end) _ _ => destruct x eqn:?; tidy
  | |- hoare (ret _) _ _ => apply hoare_ret
  | |- hoare (error_ _ _) _ _ => apply error_spec
  | |- hoare (throw _) _ _ => apply hoare_fail
  | |- hoare _ _ _ =>
      eapply hoare_weaken;
      [first [prim_spec | spec]|cbv beta; intros ? ? ?; tidy]
  end.

Ltac hsteps spec := repeat (hstep spec).

Ltac static_solve :=
  unfold LogicalOr_static, is_logical in *;
  repeat match goal with
         | H : negb _ = false |- _ => apply negb_false_iff in H
         | H : negb _ = true |- _ => apply negb_true_iff in H
         end;
  simpl; rewrite ?forallb_app; simpl;
  repeat (apply andb_true_intro; split);
  try assumption; try reflexivity;
  try (apply negb_true_iff; assumption).

Ltac funcs_solve :=
  unfold LogicalOr_funcs in *;
  simpl; rewrite ?flat_map_app; simpl; rewrite ?app_nil_r;
  repeat first [ assumption
               | apply Forall_nil
               | apply Forall_app; split
               | apply Forall_cons ].

Ltac open_ok :=
  unfold ok in *;
  repeat match goal with
         | H : _ /\ _ |- _ => destruct H
         end.

Ltac ok_solve := open_ok; split; [static_solve | funcs_solve].

Lemma parseCompOp_spec (pos : nat) :
  hoare (parseCompOp tokens) pos (fun _ pos' => (pos <= pos')%nat).
Proof. unfold parseCompOp. hsteps ltac:(fail); lia. Qed.

Lemma parseLiteralValue_spec (pos : nat) :
  hoare (parseLiteralValue src tokens ParseFloat) pos
        (fun _ pos' => (pos <= pos')%nat).
Proof. unfold parseLiteralValue. hsteps ltac:(fail); lia. Qed.

Lemma parseBound_spec (tok : Lexer.Token) (pos : nat) :
  hoare (parseBound src tokens tok) pos (fun _ pos' => pos' = pos).
Proof. unfold parseBound. hsteps ltac:(fail); reflexivity. Qed.

Lemma parseSlice_spec (start : Z) (hasStart : bool) (pos : nat) :
  hoare (parseSlice src tokens start hasStart) pos
        (fun s pos' => (pos <= pos')%nat
                       /\ ok Selector_static Selector_funcs s).
Proof.
  unfold parseSlice. hsteps ltac:(apply parseBound_spec); tidy;
    (split; [lia|ok_solve]).
Qed.

Lemma parseIndexOrSlice_spec (pos : nat) :
  hoare (parseIndexOrSlice src tokens) pos
        (fun s pos' => (pos <= pos')%nat
                       /\ ok Selector_static Selector_funcs s).
Proof.
  unfold parseIndexOrSlice.
  hsteps ltac:(first [apply parseBound_spec | apply parseSlice_spec]); tidy;
    (split; [lia|ok_solve]).
Qed.

Lemma parseDotChild_spec (pos : nat) :
  hoare (parseDotChild src tokens) pos
        (fun s pos' => (pos <= pos')%nat
                       /\ ok Selector_static Selector_funcs s).
Proof.
  unfold parseDotChild. hsteps ltac:(fail); tidy; (split; [lia|ok_solve]).
Qed.

Lemma finishFunctionExpr_spec (name : string) (args : list FuncArg)
      (pos : nat) :
  ok (forallb FuncArg_static) (flat_map FuncArg_funcs) args ->
  hoare (finishFunctionExpr funcs name args) pos
        (fun fe pos' => pos' = pos /\ ok FuncExpr_static FuncExpr_funcs fe).
Proof.
  intros [Hs Hf]. unfold finishFunctionExpr.
  destruct (lookup name funcs) as [[funcObj|]|] eqn:Hl; try exact I.
  destruct (Validate funcObj (map argType_of args)); [exact I|].
  apply hoare_ret. split; [reflexivity|]. split; [exact Hs|].
  simpl. constructor; [exact (funcs_ok _ _ Hl)|exact Hf].
Qed.

(** A parsing function of rank [rank] is good at [fuel] when, from every
    position that leaves it enough fuel, it does not run out of fuel, never
    moves backwards, and returns only results that satisfy [ok]. *)
Definition good {A} (rank : nat) (fine : A -> Prop) (f : P A) (fuel : nat)
  : Prop :=
  forall pos,
    (20 * (List.length tokens - pos) + rank <= fuel)%nat ->
    hoare f pos (fun a pos' => (pos <= pos')%nat /\ fine a).

Record inv (fuel : nat) : Prop := mk_inv {
  inv_Segments :
    forall segs, ok (forallb Segment_static) (flat_map Segment_funcs) segs ->
      good 1 (ok (forallb Segment_static) (flat_map Segment_funcs))
           (parseSegments src tokens funcs ParseFloat fuel segs) fuel;
  inv_DescendantSegment :
    good 1 (ok Segment_static Segment_funcs)
         (parseDescendantSegment src tokens funcs ParseFloat fuel) fuel;
  inv_BracketedSelection :
    forall sels, ok (forallb Selector_static) (flat_map Selector_funcs) sels ->
      good 2 (ok (forallb Selector_static) (flat_map Selector_funcs))
           (parseBracketedSelection src tokens funcs ParseFloat fuel sels)
           fuel;
  inv_Selector :
    good 1 (ok Selector_static Selector_funcs)
         (parseSelector src tokens funcs ParseFloat fuel) fuel;
  inv_FilterExpr :
    good 7 (ok FilterExpr_static FilterExpr_funcs)
         (parseFilterExpr src tokens funcs ParseFloat fuel) fuel;
  inv_LogicalOr :
    good 6 (ok LogicalOr_static LogicalOr_funcs)
         (parseLogicalOr src tokens funcs ParseFloat fuel) fuel;
  inv_LogicalOr_rest :
    forall ands, ok LogicalOr_static LogicalOr_funcs ands ->
      good 1 (ok LogicalOr_static LogicalOr_funcs)
           (parseLogicalOr_rest src tokens funcs ParseFloat fuel ands) fuel;
  inv_LogicalAnd :
    good 5 (ok (forallb BasicExpr_static) (flat_map BasicExpr_funcs))
         (parseLogicalAnd src tokens funcs ParseFloat fuel) fuel;
  inv_LogicalAnd_rest :
    forall exprs, ok (forallb BasicExpr_static) (flat_map BasicExpr_funcs) exprs ->
      good 1 (ok (forallb BasicExpr_static) (flat_map BasicExpr_funcs))
           (parseLogicalAnd_rest src tokens funcs ParseFloat fuel exprs) fuel;
  inv_BasicExpr :
    good 4 (ok BasicExpr_static BasicExpr_funcs)
         (parseBasicExpr src tokens funcs ParseFloat fuel) fuel;
  inv_TestOrComparison :
    good 3 (ok BasicExpr_static BasicExpr_funcs)
         (parseTestOrComparison src tokens funcs ParseFloat fuel) fuel;
  inv_ComparisonFromLiteral :
    good 3 (ok BasicExpr_static BasicExpr_funcs)
         (parseComparisonFromLiteral src tokens funcs ParseFloat fuel) fuel;
  inv_FunctionExpr :
    good 1 (ok FuncExpr_static FuncExpr_funcs)
         (parseFunctionExpr src tokens funcs ParseFloat fuel) fuel;
  inv_FunctionArgs :
    forall args, ok (forallb FuncArg_static) (flat_map FuncArg_funcs) args ->
      good 3 (ok (forallb FuncArg_static) (flat_map FuncArg_funcs))
           (parseFunctionArgs src tokens funcs ParseFloat fuel args) fuel;
  inv_FunctionArg :
    good 2 (ok FuncArg_static FuncArg_funcs)
         (parseFunctionArg src tokens funcs ParseFloat fuel) fuel;
  inv_FilterQuery :
    good 1 (ok PathQuery_static PathQuery_funcs)
         (parseFilterQuery src tokens funcs ParseFloat fuel) fuel;
  inv_CompValue :
    good 2 (ok CompValue_static CompValue_funcs)
         (parseCompValue src tokens funcs ParseFloat fuel) fuel
}.

Section Step.

Variable fuel : nat.
Hypothesis IH : inv fuel.

Ltac rec_spec :=
  first
    [ apply (inv_Segments _ IH); [ok_solve|lia]
    | apply (inv_DescendantSegment _ IH); lia
    | apply (inv_BracketedSelection _ IH); [ok_solve|lia]
    | apply (inv_Selector _ IH); lia
    | apply (inv_FilterExpr _ IH); lia
    | apply (inv_LogicalOr _ IH); lia
    | apply (inv_LogicalOr_rest _ IH); [ok_solve|lia]
    | apply (inv_LogicalAnd _ IH); lia
    | apply (inv_LogicalAnd_rest _ IH); [ok_solve|lia]
    | apply (inv_BasicExpr _ IH); lia
    | apply (inv_TestOrComparison _ IH); lia
    | apply (inv_ComparisonFromLiteral _ IH); lia
    | apply (inv_FunctionExpr _ IH); lia
    | apply (inv_FunctionArgs _ IH); [ok_solve|lia]
    | apply (inv_FunctionArg _ IH); lia
    | apply (inv_FilterQuery _ IH); lia
    | apply (inv_CompValue _ IH); lia
    | apply parseCompOp_spec | apply parseLiteralValue_spec
    | apply parseIndexOrSlice_spec | apply parseSlice_spec
    | apply parseDotChild_spec
    | apply finishFunctionExpr_spec; ok_solve ].

Ltac run := hsteps ltac:(rec_spec); tidy; try (split; [lia|ok_solve]).

Lemma step_Segments (segs : list Segment) :
  ok (forallb Segment_static) (flat_map Segment_funcs) segs ->
  good 1 (ok (forallb Segment_static) (flat_map Segment_funcs))
       (parseSegments src tokens funcs ParseFloat (S fuel) segs) (S fuel).
Proof. intros Hs pos Hf. simpl. run. Qed.

Lemma step_DescendantSegment :
  good 1 (ok Segment_static Segment_funcs)
       (parseDescendantSegment src tokens funcs ParseFloat (S fuel)) (S fuel).
Proof. intros pos Hf. simpl. run. Qed.

Lemma step_BracketedSelection (sels : list Selector) :
  ok (forallb Selector_static) (flat_map Selector_funcs) sels ->
  good 2 (ok (forallb Selector_static) (flat_map Selector_funcs))
       (parseBracketedSelection src tokens funcs ParseFloat (S fuel) sels)
       (S fuel).
Proof. intros Hs pos Hf. simpl. run. Qed.

Lemma step_Selector :
  good 1 (ok Selector_static Selector_funcs)
       (parseSelector src tokens funcs ParseFloat (S fuel)) (S fuel).
Proof. intros pos Hf. simpl. run. Qed.

Lemma step_FilterExpr :
  good 7 (ok FilterExpr_static FilterExpr_funcs)
       (parseFilterExpr src tokens funcs ParseFloat (S fuel)) (S fuel).
Proof. intros pos Hf. simpl. run. Qed.

Lemma step_LogicalOr :
  good 6 (ok LogicalOr_static LogicalOr_funcs)
       (parseLogicalOr src tokens funcs ParseFloat (S fuel)) (S fuel).
Proof. intros pos Hf. simpl. run. Qed.

Lemma step_LogicalOr_rest (ands : list LogicalAnd) :
  ok LogicalOr_static LogicalOr_funcs ands ->
  good 1 (ok LogicalOr_static LogicalOr_funcs)
       (parseLogicalOr_rest src tokens funcs ParseFloat (S fuel) ands)
       (S fuel).
Proof. intros Hs pos Hf. simpl. run. Qed.

Lemma step_LogicalAnd :
  good 5 (ok (forallb BasicExpr_static) (flat_map BasicExpr_funcs))
       (parseLogicalAnd src tokens funcs ParseFloat (S fuel)) (S fuel).
Proof. intros pos Hf. simpl. run. Qed.

Lemma step_LogicalAnd_rest (exprs : list BasicExpr) :
  ok (forallb BasicExpr_static) (flat_map BasicExpr_funcs) exprs ->
  good 1 (ok (forallb BasicExpr_static) (flat_map BasicExpr_funcs))
       (parseLogicalAnd_rest src tokens funcs ParseFloat (S fuel) exprs)
       (S fuel).
Proof. intros Hs pos Hf. simpl. run. Qed.

Lemma step_BasicExpr :
  good 4 (ok BasicExpr_static BasicExpr_funcs)
       (parseBasicExpr src tokens funcs ParseFloat (S fuel)) (S fuel).
Proof. intros pos Hf. simpl. run. Qed.

Lemma step_TestOrComparison :
  good 3 (ok BasicExpr_static BasicExpr_funcs)
       (parseTestOrComparison src tokens funcs ParseFloat (S fuel)) (S fuel).
Proof. intros pos Hf. simpl. run. Qed.

Lemma step_ComparisonFromLiteral :
  good 3 (ok BasicExpr_static BasicExpr_funcs)
       (parseComparisonFromLiteral src tokens funcs ParseFloat (S fuel))
       (S fuel).
Proof. intros pos Hf. simpl. run. Qed.

Lemma step_FunctionExpr :
  good 1 (ok FuncExpr_static FuncExpr_funcs)
       (parseFunctionExpr src tokens funcs ParseFloat (S fuel)) (S fuel).
Proof. intros pos Hf. simpl. run. Qed.

Lemma step_FunctionArgs (args : list FuncArg) :
  ok (forallb FuncArg_static) (flat_map FuncArg_funcs) args ->
  good 3 (ok (forallb FuncArg_static) (flat_map FuncArg_funcs))
       (parseFunctionArgs src tokens funcs ParseFloat (S fuel) args)
       (S fuel).
Proof. intros Hs pos Hf. simpl. run. Qed.

Lemma step_FunctionArg :
  good 2 (ok FuncArg_static FuncArg_funcs)
       (parseFunctionArg src tokens funcs ParseFloat (S fuel)) (S fuel).
Proof. intros pos Hf. simpl. run. Qed.

Lemma step_FilterQuery :
  good 1 (ok PathQuery_static PathQuery_funcs)
       (parseFilterQuery src tokens funcs ParseFloat (S fuel)) (S fuel).
Proof. intros pos Hf. simpl. run. Qed.

Lemma step_CompValue :
  good 2 (ok CompValue_static CompValue_funcs)
       (parseCompValue src tokens funcs ParseFloat (S fuel)) (S fuel).
Proof. intros pos Hf. simpl. run. Qed.

End Step.

Lemma inv_all (fuel : nat) : inv fuel.
Proof.
  induction fuel as [|fuel IH].
  - constructor; intros; intros pos Hf; lia.
  - constructor.
    + apply step_Segments, IH.
    + apply step_DescendantSegment, IH.
    + apply step_BracketedSelection, IH.
    + apply step_Selector, IH.
    + apply step_FilterExpr, IH.
    + apply step_LogicalOr, IH.
    + apply step_LogicalOr_rest, IH.
    + apply step_LogicalAnd, IH.
    + apply step_LogicalAnd_rest, IH.
    + apply step_BasicExpr, IH.
    + apply step_TestOrComparison, IH.
    + apply step_ComparisonFromLiteral, IH.
    + apply step_FunctionExpr, IH.
    + apply step_FunctionArgs, IH.
    + apply step_FunctionArg, IH.
    + apply step_FilterQuery, IH.
    + apply step_CompValue, IH.
Qed.

(** [Parse] stays within its recursion bound, and a query it returns
    respects the static rules. *)
Lemma Parse_within_bound :
  match Parse src tokens funcs ParseFloat with
  | Ok q _ => ok PathQuery_static PathQuery_funcs q
  | Err _ => True
  | OutOfFuel => False
  end.
Proof.
  unfold Parse.
  destruct ((0 <? String.length src)%nat
            && isBlankSpace (Lexer.byte_at src 0)); [exact I|].
  destruct ((0 <? String.length src)%nat
            && isBlankSpace (Lexer.byte_at src (String.length src - 1)));
    [exact I|].
  change (hoare
            (dollar <- match_ tokens Kind.Dollar ;;
             at_ <- (if dollar then ret true else match_ tokens Kind.At) ;;
             if negb at_ then error_ tokens "expected $ or @"
             else
               segments <- parseSegments src tokens funcs ParseFloat
                                         (bound tokens) [] ;;
               e <- atEnd tokens ;;
               if negb e then error_ tokens "unexpected token after path"
               else ret (NewPathQuery dollar segments))
            O (fun q _ => ok PathQuery_static PathQuery_funcs q)).
  assert (Hnil : ok (forallb Segment_static) (flat_map Segment_funcs) [])
    by (split; [reflexivity|constructor]).
  pose proof (inv_Segments _ (inv_all (bound tokens)) [] Hnil) as Hseg.
  unfold good, bound in Hseg.
  hsteps ltac:(apply Hseg; lia); tidy; ok_solve.
Qed.

End Specs.

(** [New] followed by [Parse] returns an error or a query that respects
    the static rules and calls only functions of the registry. *)
Lemma New_Parse_ok (ParseFloat : string -> option spec_float)
      (src : string) (funcs : list (string * entry))
      (Pfn : Function -> Prop) :
  (forall name fn, lookup name funcs = Some (IsFunction fn) -> Pfn fn) ->
  match New_Parse ParseFloat src funcs with
  | Ok q _ => PathQuery_static q = true /\ Forall Pfn (PathQuery_funcs q)
  | Err _ => True
  | OutOfFuel => False
  end.
Proof.
  intros Hreg. unfold New_Parse.
  destruct (last (Lexer.tokenize src) (zeroToken Kind.EOF)) as [k st en msg].
  destruct k; try (apply Parse_within_bound; exact Hreg). exact I.
Qed.

Lemma New_Parse_static (ParseFloat : string -> option spec_float)
      (src : string) (funcs : list (string * entry)) :
  match New_Parse ParseFloat src funcs with
  | Ok q _ => PathQuery_static q = true
  | Err _ => True
  | OutOfFuel => False
  end.
Proof.
  pose proof (New_Parse_ok ParseFloat src funcs (fun _ => True)
                           (fun _ _ _ => I)) as H.
  destruct (New_Parse ParseFloat src funcs); auto. apply H.
Qed.

(** The rejected queries of the three rules, with the built-in
    functions. *)
Lemma Compile_rejects_examples
      (ParseFloat : string -> option spec_float) (Compiled : Type)
      (syntax_Parse : string -> option Syntax.Regexp)
      (compile_printed : Syntax.Regexp -> option Compiled)
      (MatchString : Compiled -> string -> bool) :
  let Parse := Compile.Parse ParseFloat Compiled syntax_Parse
                             compile_printed MatchString in
  Parse "$[?@.a == @.b.*]"
  = Compile.ErrPathParse (ErrParsePosition
           "non-singular query is not allowed in comparison" 15)
  /\ Parse "$[?length(@.a)]"
     = Compile.ErrPathParse (ErrParsePosition "value function must be used in comparison" 14)
  /\ Parse "$[?!length(@.a)]"
     = Compile.ErrPathParse (ErrParsePosition "only logical functions can be negated" 15)
  /\ Parse "$[?@.a == match(@.b, 'x')]"
     = Compile.ErrPathParse (ErrParsePosition "logical function result cannot be compared" 25)
  /\ Parse "$[?match(@.b, 'x') == true]"
     = Compile.ErrPathParse (ErrParsePosition "logical function result cannot be compared" 19).
Proof. repeat split; vm_compute; reflexivity. Qed.


End ParserFacts.

Module CanonicalFacts.

Import Ast.

(** The query that [$[?@.a]] compiles to. *)
Definition exists_a : PathQuery :=
  NewPathQuery true
    [Child [FilterSelector
              (mkFilterExpr
                 [[ExistExpr
                     (NewPathQuery false [Child [NameSelector "a"]])]])]].

(** A filter selector writes a question mark and nothing of its
    expression. *)
Lemma Selector_writeTo_filter (Quote : string -> string) (f : FilterExpr)
      (buf : string) :
  Selector_writeTo Quote (FilterSelector f) buf = buf +s+ "?".
Proof. reflexivity. Qed.

Lemma String_single_filter (Quote : string -> string) (f : FilterExpr) :
  PathQuery_String Quote (NewPathQuery true [Child [FilterSelector f]])
  = "$[?]".
Proof. reflexivity. Qed.

(** C3: [$[?@.a]] compiles, the canonical string of the compiled query is
    [$[?]], and compiling that string returns a parse error: the canonical
    string of a query with a filter selector cannot be parsed back. *)
Theorem filter_canonical_string_is_rejected
        (ParseFloat : string -> option spec_float) (Compiled : Type)
        (syntax_Parse : string -> option Syntax.Regexp)
        (compile_printed : Syntax.Regexp -> option Compiled)
        (MatchString : Compiled -> string -> bool)
        (Quote : string -> string) :
  Compile.Parse ParseFloat Compiled syntax_Parse compile_printed MatchString
                "$[?@.a]"
  = Compile.Parsed (JsonPath.mkPath (Some exists_a))
  /\ JsonPath.String_ Quote (JsonPath.mkPath (Some exists_a))
     = JsonPath.Returns "$[?]"
  /\ Compile.Parse ParseFloat Compiled syntax_Parse compile_printed
                   MatchString "$[?]"
     = Compile.ErrPathParse
         (Parser.ErrParsePosition "expected filter expression" 3).
Proof.
  split; [|split].
  - vm_compute. reflexivity.
  - reflexivity.
  - vm_compute. reflexivity.
Qed.

End CanonicalFacts.

Module FunctionFacts.

Import Ast Syntax Functions.

Fixpoint has_AnyChar (re : Regexp) : bool :=
  match re with
  | Node op sub _ => is_AnyChar op || existsb has_AnyChar sub
  end.

(** After [replaceDot] the tree holds no [OpAnyChar] node. *)
Lemma replaceDot_no_AnyChar (re : Regexp) :
  has_AnyChar (replaceDot re) = false.
Proof.
  revert re. fix IH 1. intros [op sub rune]. simpl.
  destruct (is_AnyChar op) eqn:Hop; [reflexivity|].
  simpl. rewrite Hop. simpl.
  induction sub as [|r sub IHsub]; simpl; [reflexivity|].
  rewrite IH. exact IHsub.
Qed.

(** The class that replaces the dot holds every rune but line feed and
    carriage return. *)
Lemma crlf_class (x : Z) :
  0 <= x <= Utf8.MaxRune ->
  GoRegexp.in_class [0; 9; 11; 12; 14; Utf8.MaxRune] x
  = negb (x =? 10) && negb (x =? 13).
Proof.
  intros Hx. unfold GoRegexp.in_class, GoRegexp.in_ranges. simpl.
  repeat match goal with
         | |- context [?a <=? ?b] => destruct (Z.leb_spec a b)
         | |- context [?a =? ?b] => destruct (Z.eqb_spec a b)
         end; simpl; try reflexivity; lia.
Qed.

Section WithRegexp.

Variable Compiled : Type.
Variable syntax_Parse : string -> option Regexp.
Variable compile_printed : Regexp -> option Compiled.
Variable MatchString : Compiled -> string -> bool.

Let MatchFunc_Call :=
  Functions.MatchFunc_Call Compiled syntax_Parse compile_printed MatchString.
Let SearchFunc_Call :=
  Functions.SearchFunc_Call Compiled syntax_Parse compile_printed MatchString.

Definition is_Str (v : any) : bool :=
  match v with Str _ => true | _ => false end.

(** A non-string argument makes [match] and [search] return false. *)
Lemma Call_not_strings (a0 a1 : any) (rest : list any) :
  is_Str a0 && is_Str a1 = false ->
  MatchFunc_Call (a0 :: a1 :: rest) = Bool false
  /\ SearchFunc_Call (a0 :: a1 :: rest) = Bool false.
Proof.
  intros H. destruct a0, a1; try discriminate H; split; reflexivity.
Qed.

(** A pattern the library rejects makes [search] return false. *)
Lemma SearchFunc_Call_invalid (str pattern : string) (rest : list any) :
  syntax_Parse pattern = None ->
  SearchFunc_Call (Str str :: Str pattern :: rest) = Bool false.
Proof.
  intros H. unfold SearchFunc_Call, Functions.SearchFunc_Call,
              compileIRegexp, compileIRegexpUncached.
  now rewrite H.
Qed.

(** [search] is the match of the compiled pattern, the dot replaced,
    anywhere in the string. *)
Lemma SearchFunc_Call_valid (str pattern : string) (rest : list any)
      (parsed : Regexp) (re : Compiled) :
  syntax_Parse pattern = Some parsed ->
  compile_printed (replaceDot parsed) = Some re ->
  SearchFunc_Call (Str str :: Str pattern :: rest)
  = Bool (MatchString re str).
Proof.
  intros H1 H2. unfold SearchFunc_Call, Functions.SearchFunc_Call,
                  compileIRegexp, compileIRegexpUncached.
  now rewrite H1, H2.
Qed.

(** The result of a built-in function does not depend on the order of the
    nodes in a node list it receives. *)
Lemma Builtins_order_insensitive :
  Forall OrderFacts.order_insensitive
         (Builtins Compiled syntax_Parse compile_printed MatchString).
Proof.
  assert (Hlen : forall l1 l2 : list any,
             Permutation l1 l2 -> len l1 = len l2).
  { intros l1 l2 Hp. unfold len. now rewrite (Permutation_length Hp). }
  assert (Hstr : forall a b, OrderFacts.arg_equiv a b ->
                             a = b \/ (is_Str a = false /\ is_Str b = false)).
  { intros a b [->|(l1 & l2 & -> & -> & _)]; [now left|now right]. }
  repeat constructor; intros args1 args2 Hargs; simpl.
  - destruct Hargs as [|a b r1 r2 [->|(l1 & l2 & -> & -> & Hp)] _];
      [reflexivity|reflexivity|].
    simpl. now rewrite (Hlen _ _ Hp).
  - destruct Hargs as [|a b r1 r2 [->|(l1 & l2 & -> & -> & Hp)] _];
      [reflexivity|reflexivity|].
    simpl. now rewrite (Hlen _ _ Hp).
  - destruct Hargs as [|a0 b0 r1 r2 H0 [|a1 b1 r1' r2' H1 _]];
      try reflexivity.
    destruct (Hstr _ _ H0) as [->|[Ea Eb]].
    + destruct (Hstr _ _ H1) as [->|[Ea Eb]].
      * destruct b0, b1; reflexivity.
      * destruct b0; try reflexivity;
          destruct a1; try discriminate Ea;
          destruct b1; try discriminate Eb; reflexivity.
    + destruct a0; try discriminate Ea;
        destruct b0; try discriminate Eb; reflexivity.
  - destruct Hargs as [|a0 b0 r1 r2 H0 [|a1 b1 r1' r2' H1 _]];
      try reflexivity.
    destruct (Hstr _ _ H0) as [->|[Ea Eb]].
    + destruct (Hstr _ _ H1) as [->|[Ea Eb]].
      * destruct b0, b1; reflexivity.
      * destruct b0; try reflexivity;
          destruct a1; try discriminate Ea;
          destruct b1; try discriminate Eb; reflexivity.
    + destruct a0; try discriminate Ea;
        destruct b0; try discriminate Eb; reflexivity.
  - destruct Hargs as [|a b r1 r2 [->|(l1 & l2 & -> & -> & Hp)] _];
      [reflexivity|reflexivity|].
    simpl. destruct l1 as [|x [|y l1]].
    + apply Permutation_nil in Hp. now subst.
    + apply Permutation_length_1_inv in Hp. now subst.
    + pose proof (Permutation_length Hp) as E.
      destruct l2 as [|x2 [|y2 l2]]; try discriminate E. reflexivity.
Qed.

End WithRegexp.

(** The pattern that [match] compiles for [a|b]: the anchors belong to
    the first and to the last alternative. *)
Lemma anchored_alternation_parse :
  GoRegexp.Parse "\Aa|b\z"
  = Some (Node OpAlternate
               [Node OpConcat [Node OpBeginText [] []; GoRegexp.Lit 97] [];
                Node OpConcat [GoRegexp.Lit 98; Node OpEndText [] []] []]
               []).
Proof. vm_compute. reflexivity. Qed.

(** C7: [match] with the string [ab] and the pattern [a|b] returns true,
    although [ab] as a whole does not match [a|b]: the anchors put around
    the pattern bind to its first and last alternatives only. *)
Theorem match_alternation_is_not_anchored :
  GoRegexp.MatchFunc_Call [Str "ab"; Str "a|b"] = Bool true
  /\ GoRegexp.whole_match "a|b" "ab" = false
  /\ GoRegexp.SearchFunc_Call [Str "ab"; Str "a|b"] = Bool true.
Proof. repeat split; vm_compute; reflexivity. Qed.

End FunctionFacts.

Module CompiledFacts.

Import Ast AstInd JsonPath.

Section WithLibraries.

Variable ParseFloat : string -> option spec_float.
Variable Compiled : Type.
Variable syntax_Parse : string -> option Syntax.Regexp.
Variable compile_printed : Syntax.Regexp -> option Compiled.
Variable MatchString : Compiled -> string -> bool.

(** The functions of the registry are the built-in ones: a registered
    function is no function for the internal parser. *)
Lemma registry_builtin (p : Compile.Parser_) (name : string)
      (fn : Function) :
  Parser.lookup name
    (Compile.registry Compiled syntax_Parse compile_printed MatchString p)
  = Some (Parser.IsFunction fn) ->
  In fn (Functions.Builtins Compiled syntax_Parse compile_printed
                            MatchString).
Proof.
  unfold Compile.registry. destruct p as [fns]. simpl.
  induction fns as [|[k f] fns IH]; simpl.
  - intros H.
    repeat match type of H with
           | (if ?b then _ else _) = _ =>
               destruct b; [injection H as <-; simpl; tauto|]
           end.
    discriminate.
  - destruct (k =? name)%string; [discriminate|exact IH].
Qed.

(** A compiled query calls only functions whose result does not depend on
    the order of the node lists they receive. *)
Lemma compiled_funcs_order_insensitive (p : Compile.Parser_)
      (expr : string) (path : Path) :
  Compile.Parser_Parse ParseFloat Compiled syntax_Parse compile_printed
                       MatchString p expr = Compile.Parsed path ->
  exists q,
    query path = Some q
    /\ Forall OrderFacts.order_insensitive (PathQuery_funcs q).
Proof.
  unfold Compile.Parser_Parse. intros H.
  pose proof (ParserFacts.New_Parse_ok ParseFloat expr
                (Compile.registry Compiled syntax_Parse compile_printed
                                  MatchString p)
                OrderFacts.order_insensitive) as Hok.
  destruct (Parser.New_Parse ParseFloat expr _) as [q pos'| |];
    try discriminate.
  injection H as <-. exists q. split; [reflexivity|].
  apply Hok. intros name fn Hl.
  pose proof (FunctionFacts.Builtins_order_insensitive
                Compiled syntax_Parse compile_printed MatchString) as Hb.
  rewrite Forall_forall in Hb. apply Hb.
  exact (registry_builtin p name fn Hl).
Qed.

End WithLibraries.


(** The query for the nodes, at any depth, with at least one child,
    compiled with the built-in functions. *)
Definition with_children_compiled : Compile.parsed :=
  Compile.Parse (fun _ => None) Syntax.Regexp GoRegexp.Parse
                GoRegexp.compile_printed GoRegexp.MatchString
                "$..[?count(@.*) > 0]".

Definition with_children : Path :=
  match with_children_compiled with
  | Compile.Parsed path => path
  | _ => mkPath None
  end.

(** On the nested document the two orders of ranging over the root give
    the same three nodes in two different orders. *)
Lemma with_children_orders :
  Select in_order with_children TopLevelFacts.nested_doc
  = Returns (Some [Obj [("a", Int 1)]; Arr [Obj [("a", Int 2)]; Int 3];
                   Obj [("a", Int 2)]])
  /\ Select TopLevelFacts.reversed with_children TopLevelFacts.nested_doc
     = Returns (Some [Arr [Obj [("a", Int 2)]; Int 3]; Obj [("a", Int 1)];
                      Obj [("a", Int 2)]]).
Proof. split; vm_compute; reflexivity. Qed.


End CompiledFacts.

Module LexerProps.

Import Lexer LexerFacts.

(** The positions of a lexer lie within the source. *)
Definition pos_ok (l : Lexer) : Prop :=
  (rPos l <= nextPos l <= String.length (src l))%nat.

(** [l'] reads the source of [l] from a position that is not before the
    one of [l]. *)
Definition reach (l l' : Lexer) : Prop :=
  pos_ok l -> pos_ok l' /\ src l' = src l /\ (rPos l <= rPos l')%nat.

Lemma DecodeRuneInString_within (s : string) :
  (snd (Utf8.DecodeRuneInString s) <= String.length s)%nat.
Proof.
  unfold Utf8.DecodeRuneInString.
  destruct s as [|c0 [|c1 [|c2 [|c3 rest]]]];
    repeat match goal with
           | |- context [match ?x with _ => _ end] => destruct x
           end; simpl; lia.
Qed.

Lemma rune_at_within (s : string) (pos : nat) :
  (pos < String.length s)%nat ->
  (pos + snd (rune_at s pos) <= String.length s)%nat.
Proof.
  intros H. unfold rune_at.
  destruct (byte_at s pos >=? Utf8.RuneSelf); [|simpl; lia].
  pose proof (DecodeRuneInString_within (from s pos)) as W.
  assert (L : String.length (from s pos) = (String.length s - pos)%nat)
    by (apply substring_length; lia).
  lia.
Qed.

Lemma reach_refl (l : Lexer) : reach l l.
Proof. intros H. repeat split; [apply H | apply H | lia]. Qed.

Lemma reach_trans (l1 l2 l3 : Lexer) :
  reach l1 l2 -> reach l2 l3 -> reach l1 l3.
Proof.
  intros H12 H23 H1. destruct (H12 H1) as (H2 & E2 & L2).
  destruct (H23 H2) as (H3 & E3 & L3).
  repeat split; try apply H3; [congruence|lia].
Qed.

Lemma reach_next (l : Lexer) : reach l (next l).
Proof.
  intros [H1 H2]. unfold next, pos_ok.
  destruct (Nat.ltb_spec (nextPos l) (String.length (src l))) as [H|H].
  - pose proof (rune_at_within _ _ H) as W.
    destruct (rune_at _ _) as [x w]. simpl in *. repeat split; lia.
  - simpl. repeat split; lia.
Qed.

Lemma reach_skip_while (cond : Z -> bool) (fuel : nat) :
  forall l, reach l (skip_while cond fuel l).
Proof.
  induction fuel as [|fuel IH]; intros l; simpl; [apply reach_refl|].
  destruct (cond (r l)); [|apply reach_refl].
  exact (reach_trans _ _ _ (reach_next l) (IH (next l))).
Qed.

Ltac reach_tac :=
  repeat first
    [ assumption
    | apply reach_refl
    | match goal with
      | |- reach _ (next ?Y) =>
          apply (reach_trans _ Y); [|apply reach_next]
      | |- reach _ (skip_while ?c ?f ?Y) =>
          apply (reach_trans _ Y); [|apply reach_skip_while]
      end ].

(** A scanned token lies between the position of the lexer before the
    scan and the position of the lexer after it, where it ends. *)
Definition spans (l : Lexer) (res : Token * Lexer) : Prop :=
  reach l (snd res)
  /\ (pos_ok l ->
      (rPos l <= Start (fst res) <= End_ (fst res))%nat
      /\ End_ (fst res) = rPos (snd res)).

Lemma spans_intro (l l0 l' : Lexer) (k : Kind.t) (msg : string) :
  reach l l0 -> reach l0 l' ->
  spans l (mkToken k (rPos l0) (rPos l') msg, l').
Proof.
  intros H0 H'. split; [exact (reach_trans _ _ _ H0 H')|].
  intros Hl. cbn [fst snd Start End_].
  destruct (H0 Hl) as (Hl0 & _ & L0). destruct (H' Hl0) as (_ & _ & L').
  repeat split; lia.
Qed.

Lemma errToken_spans (l l0 l' : Lexer) (msg : string) :
  reach l l0 -> reach l0 l' -> spans l (errToken l' (rPos l0) msg).
Proof.
  intros H0 H'. unfold errToken. split; cbn [fst snd Start End_].
  - intros Hl. destruct (H0 Hl) as (Hl0 & E0 & L0).
    destruct (H' Hl0) as (Hl' & E' & L').
    unfold pos_ok in *. simpl. repeat split; try lia. congruence.
  - intros Hl. destruct (H0 Hl) as (Hl0 & _ & L0).
    destruct (H' Hl0) as (_ & _ & L'). repeat split; lia.
Qed.

Ltac spans_tac :=
  first [ apply spans_intro; reach_tac
        | apply errToken_spans; reach_tac ].

Lemma one_spans (l0 l : Lexer) (k : Kind.t) :
  reach l0 l -> spans l0 (one k l).
Proof. intros H. unfold one. spans_tac. Qed.

Lemma two_spans (l0 l : Lexer) (second : Z) (k2 : Kind.t)
      (otherwise : Lexer -> Token * Lexer) :
  reach l0 l -> spans l0 (otherwise (next l)) ->
  spans l0 (two l second k2 otherwise).
Proof.
  intros H Ho. unfold two. destruct (peek l =? second); [|exact Ho].
  spans_tac.
Qed.

Lemma scanIdent_spans (l0 l : Lexer) :
  reach l0 l -> spans l0 (scanIdent l).
Proof. intros H. unfold scanIdent. split_ifs; spans_tac. Qed.

Lemma scanNumber_spans (l0 l : Lexer) :
  reach l0 l -> spans l0 (scanNumber l).
Proof. intros H. unfold scanNumber. split_ifs; spans_tac. Qed.


Lemma scanHex_reach (n : nat) :
  forall acc l, reach l (snd (scanHex n acc l)).
Proof.
  induction n as [|n IH]; intros acc l; simpl; [apply reach_refl|].
  destruct (hexVal (r l) <? 0); simpl; [apply reach_refl|].
  exact (reach_trans _ _ _ (reach_next l) (IH _ (next l))).
Qed.

Lemma scanUnicodeEscape_reach (l : Lexer) (buf : string) :
  reach l (snd (scanUnicodeEscape l buf)).
Proof.
  unfold scanUnicodeEscape, scanHex4.
  pose proof (scanHex_reach 4 0 (next l)) as H1.
  destruct (scanHex 4 0 (next l)) as [r1 l1]. cbn [snd] in H1.
  assert (Hl1 : reach l l1) by (apply (reach_trans _ (next l)); reach_tac).
  split_ifs; cbn [snd]; try reach_tac.
  pose proof (scanHex_reach 4 0 (next (next l1))) as H2.
  destruct (scanHex 4 0 (next (next l1))) as [low l2]. cbn [snd] in H2.
  assert (Hl2 : reach l l2)
    by (apply (reach_trans _ (next (next l1))); reach_tac).
  split_ifs; cbn [snd]; exact Hl2.
Qed.

Lemma scanEscape_reach (l : Lexer) (quote : Z) (buf : string) :
  reach l (snd (scanEscape l quote buf)).
Proof.
  unfold scanEscape. split_ifs; cbn [snd]; try reach_tac.
  apply (reach_trans _ (next l)); [reach_tac|].
  apply scanUnicodeEscape_reach.
Qed.

Lemma scanString_loop_spans (l0 ls : Lexer) (quote : Z) :
  reach l0 ls ->
  forall fuel l buf,
    reach ls l ->
    spans l0 (scanString_loop fuel l (rPos ls) quote buf).
Proof.
  intros H0. induction fuel as [|fuel IH]; intros l buf Hl; simpl.
  - spans_tac.
  - destruct (r l >=? 0); [|spans_tac].
    destruct (r l =? quote); [spans_tac|].
    destruct (r l =? ch "\").
    + pose proof (scanEscape_reach l quote buf) as He.
      destruct (scanEscape l quote buf) as [[buf'|] l']; cbn [snd] in He.
      * apply IH. exact (reach_trans _ _ _ Hl He).
      * apply errToken_spans; [exact H0|].
        exact (reach_trans _ _ _ Hl He).
    + destruct (isUnescaped (r l) quote); [|spans_tac].
      apply IH. reach_tac.
Qed.

Lemma scanString_spans (l0 l : Lexer) :
  reach l0 l -> spans l0 (scanString l).
Proof.
  intros H. unfold scanString.
  apply scanString_loop_spans; [exact H|reach_tac].
Qed.

(** The token that [Scan] returns lies within the source, at or after
    the position of the lexer, and ends where the lexer stands after the
    scan. *)
Lemma Scan_spans (l : Lexer) : spans l (Scan l).
Proof.
  unfold Scan.
  pose proof (reach_skip_while isBlankSpace (bound l) l) as Hs.
  set (l1 := skip_while isBlankSpace (bound l) l) in *.
  destruct (r l1 <? 0); [spans_tac|].
  cbv zeta.
  repeat lazymatch goal with
         | |- spans _ (if ?b then _ else _) =>
             destruct b;
             [ first
                 [ apply one_spans; exact Hs
                 | apply two_spans; [exact Hs|cbv beta; spans_tac]
                 | apply scanString_spans; exact Hs
                 | apply scanNumber_spans; exact Hs
                 | apply scanIdent_spans; exact Hs ]
             | ]
         end.
  spans_tac.
Qed.

(** Tokens that follow one another from the position [p]: each lies
    within the source, and begins at or after the end of the one before. *)
Fixpoint in_sequence (n : nat) (p : nat) (tokens : list Token) : Prop :=
  match tokens with
  | [] => True
  | t :: rest =>
      (p <= Start t <= End_ t)%nat /\ (End_ t <= n)%nat
      /\ in_sequence n (End_ t) rest
  end.

Lemma scan_all_acc :
  forall fuel l tokens,
    scan_all fuel l tokens = tokens ++ scan_all fuel l [].
Proof.
  induction fuel as [|fuel IH]; intros l tokens; simpl.
  - now rewrite app_nil_r.
  - destruct (Scan l) as [tok l'].
    destruct (Kind.eqb (Kind_ tok) Kind.EOF
              || Kind.eqb (Kind_ tok) Kind.Invalid); [reflexivity|].
    rewrite (IH l' (tokens ++ [tok])), (IH l' [tok]).
    now rewrite <- app_assoc.
Qed.

Lemma scan_all_in_sequence :
  forall fuel l,
    pos_ok l ->
    in_sequence (String.length (src l)) (rPos l) (scan_all fuel l []).
Proof.
  induction fuel as [|fuel IH]; intros l Hl; simpl; [exact I|].
  destruct (Scan_spans l) as [Hr Hs].
  destruct (Scan l) as [tok l']. cbn [fst snd] in *.
  destruct (Hr Hl) as (Hl' & E & L). destruct (Hs Hl) as [Hse He].
  assert (Hend : (End_ tok <= String.length (src l))%nat).
  { rewrite He, <- E. unfold pos_ok in Hl'. lia. }
  destruct (Kind.eqb (Kind_ tok) Kind.EOF
            || Kind.eqb (Kind_ tok) Kind.Invalid); simpl.
  - repeat split; try lia; exact Hend.
  - rewrite scan_all_acc. simpl. repeat split; try lia.
    specialize (IH l' Hl'). rewrite E, <- He in IH. exact IH.
Qed.

(** X2: the tokens that [New] scans from a source lie within the source
    ([Start <= End <= len(src)]), in the order of the source and without
    overlap: a token begins at or after the end of the one before.  So
    [Token.Val], the slice [src[t.Start:t.End]], is within bounds for each
    of them. *)
Theorem tokens_within_source_in_order (s : string) :
  in_sequence (String.length s) 0 (tokenize s).
Proof.
  unfold tokenize.
  assert (Hn : pos_ok (New s)).
  { unfold New. apply (reach_next (mkLexer s (-1) 0 0)).
    unfold pos_ok. simpl. lia. }
  pose proof (scan_all_in_sequence (S (String.length s)) (New s) Hn) as H.
  assert (E : src (New s) = s) by (unfold New; now rewrite src_next).
  rewrite E in H.
  assert (Hp : forall n p q ts, (q <= p)%nat ->
                                in_sequence n p ts -> in_sequence n q ts).
  { intros n p q [|t ts] Hq; simpl; [auto|].
    intros (H1 & H2 & H3). repeat split; try lia; assumption. }
  apply (Hp _ (rPos (New s)) O); [lia|exact H].
Qed.

(** X1: the scanning of a source ends, within its bound, with the end of
    the input or with an invalid token, and no token before the last one
    is either of them: the token list is never empty and ends with
    exactly one terminal token. *)
Theorem tokens_end_with_one_terminal (s : string) :
  exists ts tok,
    tokenize s = ts ++ [tok]
    /\ terminal tok = true
    /\ forallb (fun t => negb (terminal t)) ts = true.
Proof.
  assert (Hm : (measure (New s) < S (String.length s))%nat).
  { pose proof (measure_bound (New s) (next_wf _)) as H.
    unfold bound, New in H. rewrite src_next in H. exact H. }
  exact (proj2 (scan_all_spec 0 _ _ [] (next_wf _) Hm)).
Qed.

End LexerProps.


(* ================================================================== *)
(** * The range of the indices of a compiled query *)
(* ================================================================== *)

Module Bounds.

Import Ast.

(** [-maxIndex <= z <= maxIndex]. *)
Definition in_rangeb (z : Z) : bool :=
  (- maxIndex <=? z) && (z <=? maxIndex).

Arguments in_rangeb : simpl never.

(** The index of every index selector and the three bounds of every slice
    selector, everywhere inside an AST node, lie within
    [[-maxIndex, maxIndex]]. *)
Fixpoint Selector_bounds (s : Selector) : bool :=
  match s with
  | IndexSelector idx => in_rangeb idx
  | SliceSelector a =>
      in_rangeb (Start a) && in_rangeb (End_ a) && in_rangeb (Step a)
  | FilterSelector f => FilterExpr_bounds f
  | _ => true
  end
with FilterExpr_bounds (f : FilterExpr) : bool :=
  match f with
  | mkFilterExpr lo => forallb (forallb BasicExpr_bounds) lo
  end
with BasicExpr_bounds (e : BasicExpr) : bool :=
  match e with
  | ExistExpr q | NonExistExpr q => PathQuery_bounds q
  | ParenExpr lo | NotParenExpr lo => forallb (forallb BasicExpr_bounds) lo
  | NegFuncExpr fe | FuncTest fe => FuncExpr_bounds fe
  | CompExpr l _ r => CompValue_bounds l && CompValue_bounds r
  end
with CompValue_bounds (c : CompValue) : bool :=
  match c with
  | LiteralValue _ => true
  | QueryValue q => PathQuery_bounds q
  | FuncValue fe => FuncExpr_bounds fe
  end
with FuncExpr_bounds (fe : FuncExpr) : bool :=
  match fe with
  | mkFuncExpr _ _ args _ => forallb FuncArg_bounds args
  end
with FuncArg_bounds (a : FuncArg) : bool :=
  match a with
  | ArgQuery q => PathQuery_bounds q
  | ArgFunc fe => FuncExpr_bounds fe
  | ArgComp c => CompValue_bounds c
  | ArgOther _ => true
  end
with PathQuery_bounds (q : PathQuery) : bool :=
  match q with
  | mkPathQuery segs _ => forallb Segment_bounds segs
  end
with Segment_bounds (s : Segment) : bool :=
  match s with
  | mkSegment sels _ => forallb Selector_bounds sels
  end.

End Bounds.

Module ParserBounds.

Import Ast Bounds Parser ParserFacts.

Section Specs.

Variable src : string.
Variable tokens : list Lexer.Token.
Variable funcs : list (string * entry).
Variable ParseFloat : string -> option spec_float.


(** One step of a proof about a parsing function: the specification of
    the first computation of a [bind], then the rest. *)
Ltac prim_spec :=
  first [ apply match_spec | apply advance_spec | apply check_spec
        | apply atEnd_spec | apply get_previous_spec
        | apply checkCompOp_spec | apply check_name_spec
        | apply check_literal_spec | apply no_space_after_spec ].

Ltac tidy :=
  repeat match goal with
         | H : _ /\ _ |- _ => destruct H
         | H : negb _ = false |- _ => apply negb_false_iff in H
         | H : negb _ = true |- _ => apply negb_true_iff in H
         | H : ?x = true |- _ => is_var x; subst x
         | H : ?x = false |- _ => is_var x; subst x
         | H : context [if true then _ else _] |- _ => cbv iota in H
         | H : context [if false then _ else _] |- _ => cbv iota in H
         | H : ?x = S _ |- _ => is_var x; subst x
         | H : ?x = ?y |- _ => is_var x; is_var y; subst x
         end.

Ltac hstep spec :=
  lazymatch goal with
  | |- hoare (bind (if ?b then _ else _) _) _ _ => destruct b eqn:?; tidy
  | |- hoare (bind (bind _ _) _) _ _ => apply hoare_assoc
  | |- hoare (bind (ret _) _) _ _ => apply hoare_ret_bind
  | |- hoare (bind _ _) _ _ =>
      eapply hoare_bind;
      [first [prim_spec | spec]|cbv beta; intros ? ? ?; tidy]
  | |- hoare (if ?b then _ else _) _ _ => destruct b eqn:?; tidy
  | |- hoare (match ?x with _ => _ end) _ _ => destruct x eqn:?; tidy
  | |- hoare (ret _) _ _ => apply hoare_ret
  | |- hoare (error_ _ _) _ _ => apply error_spec
  | |- hoare (throw _) _ _ => apply hoare_fail
  | |- hoare _ _ _ =>
      eapply hoare_weaken;
      [first [prim_spec | spec]|cbv beta; intros ? ? ?; tidy]
  end.

Ltac hsteps spec := repeat (hstep spec).

Definition LogicalOr_bounds (lo : LogicalOr) : bool :=
  forallb (forallb BasicExpr_bounds) lo.

Ltac bounds_solve :=
  unfold LogicalOr_bounds in *;
  repeat match goal with
         | H : negb _ = false |- _ => apply negb_false_iff in H
         | H : negb _ = true |- _ => apply negb_true_iff in H
         end;
  simpl; rewrite ?forallb_app; simpl;
  repeat first [ assumption | reflexivity
               | apply andb_true_intro; split ].

Lemma parseBound_in_range (tok : Lexer.Token) (pos : nat) :
  hoare (parseBound src tokens tok) pos
        (fun n pos' => pos' = pos /\ in_rangeb n = true).
Proof.
  unfold parseBound.
  destruct (ParseInt (Lexer.Val tok src)) as [n|]; [|exact I].
  destruct ((n =? 0) && starts_with_minus (Lexer.Val tok src)); [exact I|].
  destruct ((n <? - maxIndex) || (n >? maxIndex)) eqn:E; [exact I|].
  apply hoare_ret. split; [reflexivity|].
  apply orb_false_iff in E. destruct E as [E1 E2].
  unfold in_rangeb. apply andb_true_intro.
  rewrite Z.gtb_ltb in E2. split; apply Z.leb_le.
  - apply Z.ltb_ge in E1. exact E1.
  - apply Z.ltb_ge in E2. exact E2.
Qed.

Lemma parseSlice_bounds (start : Z) (hasStart : bool) (pos : nat) :
  in_rangeb start = true ->
  hoare (parseSlice src tokens start hasStart) pos
        (fun s pos' => (pos <= pos')%nat /\ Selector_bounds s = true).
Proof.
  intros Hstart. unfold parseSlice.
  hsteps ltac:(apply parseBound_in_range); tidy;
    (split; [lia|bounds_solve]).
Qed.

Lemma parseIndexOrSlice_bounds (pos : nat) :
  hoare (parseIndexOrSlice src tokens) pos
        (fun s pos' => (pos <= pos')%nat /\ Selector_bounds s = true).
Proof.
  unfold parseIndexOrSlice.
  hsteps ltac:(first [ apply parseBound_in_range
                     | apply parseSlice_bounds; assumption ]); tidy;
    (split; [lia|bounds_solve]).
Qed.

Lemma parseDotChild_bounds (pos : nat) :
  hoare (parseDotChild src tokens) pos
        (fun s pos' => (pos <= pos')%nat /\ Selector_bounds s = true).
Proof.
  unfold parseDotChild. hsteps ltac:(fail); tidy; split; try reflexivity; lia.
Qed.

Lemma finishFunctionExpr_bounds (name : string) (args : list FuncArg)
      (pos : nat) :
  forallb FuncArg_bounds args = true ->
  hoare (finishFunctionExpr funcs name args) pos
        (fun fe pos' => pos' = pos /\ FuncExpr_bounds fe = true).
Proof.
  intros Hargs. unfold finishFunctionExpr. hsteps ltac:(fail). auto.
Qed.

(** A parsing function of rank [rank] is bgood at [fuel] when, from every
    position that leaves it enough fuel, it does not run out of fuel, never
    moves backwards, and returns only results that satisfy [ok]. *)
Definition bgood {A} (rank : nat) (ok : A -> bool) (f : P A) (fuel : nat)
  : Prop :=
  forall pos,
    (20 * (List.length tokens - pos) + rank <= fuel)%nat ->
    hoare f pos (fun a pos' => (pos <= pos')%nat /\ ok a = true).

Record binv (fuel : nat) : Prop := mk_binv {
  binv_Segments :
    forall segs, forallb Segment_bounds segs = true ->
      bgood 1 (forallb Segment_bounds)
           (parseSegments src tokens funcs ParseFloat fuel segs) fuel;
  binv_DescendantSegment :
    bgood 1 Segment_bounds
         (parseDescendantSegment src tokens funcs ParseFloat fuel) fuel;
  binv_BracketedSelection :
    forall sels, forallb Selector_bounds sels = true ->
      bgood 2 (forallb Selector_bounds)
           (parseBracketedSelection src tokens funcs ParseFloat fuel sels)
           fuel;
  binv_Selector :
    bgood 1 Selector_bounds
         (parseSelector src tokens funcs ParseFloat fuel) fuel;
  binv_FilterExpr :
    bgood 7 FilterExpr_bounds
         (parseFilterExpr src tokens funcs ParseFloat fuel) fuel;
  binv_LogicalOr :
    bgood 6 LogicalOr_bounds
         (parseLogicalOr src tokens funcs ParseFloat fuel) fuel;
  binv_LogicalOr_rest :
    forall ands, LogicalOr_bounds ands = true ->
      bgood 1 LogicalOr_bounds
           (parseLogicalOr_rest src tokens funcs ParseFloat fuel ands) fuel;
  binv_LogicalAnd :
    bgood 5 (forallb BasicExpr_bounds)
         (parseLogicalAnd src tokens funcs ParseFloat fuel) fuel;
  binv_LogicalAnd_rest :
    forall exprs, forallb BasicExpr_bounds exprs = true ->
      bgood 1 (forallb BasicExpr_bounds)
           (parseLogicalAnd_rest src tokens funcs ParseFloat fuel exprs) fuel;
  binv_BasicExpr :
    bgood 4 BasicExpr_bounds
         (parseBasicExpr src tokens funcs ParseFloat fuel) fuel;
  binv_TestOrComparison :
    bgood 3 BasicExpr_bounds
         (parseTestOrComparison src tokens funcs ParseFloat fuel) fuel;
  binv_ComparisonFromLiteral :
    bgood 3 BasicExpr_bounds
         (parseComparisonFromLiteral src tokens funcs ParseFloat fuel) fuel;
  binv_FunctionExpr :
    bgood 1 FuncExpr_bounds
         (parseFunctionExpr src tokens funcs ParseFloat fuel) fuel;
  binv_FunctionArgs :
    forall args, forallb FuncArg_bounds args = true ->
      bgood 3 (forallb FuncArg_bounds)
           (parseFunctionArgs src tokens funcs ParseFloat fuel args) fuel;
  binv_FunctionArg :
    bgood 2 FuncArg_bounds
         (parseFunctionArg src tokens funcs ParseFloat fuel) fuel;
  binv_FilterQuery :
    bgood 1 PathQuery_bounds
         (parseFilterQuery src tokens funcs ParseFloat fuel) fuel;
  binv_CompValue :
    bgood 2 CompValue_bounds
         (parseCompValue src tokens funcs ParseFloat fuel) fuel
}.

Section Step.

Variable fuel : nat.
Hypothesis IH : binv fuel.

Ltac rec_spec :=
  first
    [ apply (binv_Segments _ IH); [bounds_solve|lia]
    | apply (binv_DescendantSegment _ IH); lia
    | apply (binv_BracketedSelection _ IH); [bounds_solve|lia]
    | apply (binv_Selector _ IH); lia
    | apply (binv_FilterExpr _ IH); lia
    | apply (binv_LogicalOr _ IH); lia
    | apply (binv_LogicalOr_rest _ IH); [bounds_solve|lia]
    | apply (binv_LogicalAnd _ IH); lia
    | apply (binv_LogicalAnd_rest _ IH); [bounds_solve|lia]
    | apply (binv_BasicExpr _ IH); lia
    | apply (binv_TestOrComparison _ IH); lia
    | apply (binv_ComparisonFromLiteral _ IH); lia
    | apply (binv_FunctionExpr _ IH); lia
    | apply (binv_FunctionArgs _ IH); [bounds_solve|lia]
    | apply (binv_FunctionArg _ IH); lia
    | apply (binv_FilterQuery _ IH); lia
    | apply (binv_CompValue _ IH); lia
    | apply parseCompOp_spec | apply parseLiteralValue_spec
    | apply parseIndexOrSlice_bounds
    | apply parseSlice_bounds; reflexivity
    | apply parseDotChild_bounds
    | apply finishFunctionExpr_bounds; bounds_solve ].

Ltac run := hsteps ltac:(rec_spec); tidy; try (split; [lia|bounds_solve]).

Lemma bstep_Segments (segs : list Segment) :
  forallb Segment_bounds segs = true ->
  bgood 1 (forallb Segment_bounds)
       (parseSegments src tokens funcs ParseFloat (S fuel) segs) (S fuel).
Proof. intros Hs pos Hf. simpl. run. Qed.

Lemma bstep_DescendantSegment :
  bgood 1 Segment_bounds
       (parseDescendantSegment src tokens funcs ParseFloat (S fuel)) (S fuel).
Proof. intros pos Hf. simpl. run. Qed.

Lemma bstep_BracketedSelection (sels : list Selector) :
  forallb Selector_bounds sels = true ->
  bgood 2 (forallb Selector_bounds)
       (parseBracketedSelection src tokens funcs ParseFloat (S fuel) sels)
       (S fuel).
Proof. intros Hs pos Hf. simpl. run. Qed.

Lemma bstep_Selector :
  bgood 1 Selector_bounds
       (parseSelector src tokens funcs ParseFloat (S fuel)) (S fuel).
Proof. intros pos Hf. simpl. run. Qed.

Lemma bstep_FilterExpr :
  bgood 7 FilterExpr_bounds
       (parseFilterExpr src tokens funcs ParseFloat (S fuel)) (S fuel).
Proof. intros pos Hf. simpl. run. Qed.

Lemma bstep_LogicalOr :
  bgood 6 LogicalOr_bounds
       (parseLogicalOr src tokens funcs ParseFloat (S fuel)) (S fuel).
Proof. intros pos Hf. simpl. run. Qed.

Lemma bstep_LogicalOr_rest (ands : list LogicalAnd) :
  LogicalOr_bounds ands = true ->
  bgood 1 LogicalOr_bounds
       (parseLogicalOr_rest src tokens funcs ParseFloat (S fuel) ands)
       (S fuel).
Proof. intros Hs pos Hf. simpl. run. Qed.

Lemma bstep_LogicalAnd :
  bgood 5 (forallb BasicExpr_bounds)
       (parseLogicalAnd src tokens funcs ParseFloat (S fuel)) (S fuel).
Proof. intros pos Hf. simpl. run. Qed.

Lemma bstep_LogicalAnd_rest (exprs : list BasicExpr) :
  forallb BasicExpr_bounds exprs = true ->
  bgood 1 (forallb BasicExpr_bounds)
       (parseLogicalAnd_rest src tokens funcs ParseFloat (S fuel) exprs)
       (S fuel).
Proof. intros Hs pos Hf. simpl. run. Qed.

Lemma bstep_BasicExpr :
  bgood 4 BasicExpr_bounds
       (parseBasicExpr src tokens funcs ParseFloat (S fuel)) (S fuel).
Proof. intros pos Hf. simpl. run. Qed.

Lemma bstep_TestOrComparison :
  bgood 3 BasicExpr_bounds
       (parseTestOrComparison src tokens funcs ParseFloat (S fuel)) (S fuel).
Proof. intros pos Hf. simpl. run. Qed.

Lemma bstep_ComparisonFromLiteral :
  bgood 3 BasicExpr_bounds
       (parseComparisonFromLiteral src tokens funcs ParseFloat (S fuel))
       (S fuel).
Proof. intros pos Hf. simpl. run. Qed.

Lemma bstep_FunctionExpr :
  bgood 1 FuncExpr_bounds
       (parseFunctionExpr src tokens funcs ParseFloat (S fuel)) (S fuel).
Proof. intros pos Hf. simpl. run. Qed.

Lemma bstep_FunctionArgs (args : list FuncArg) :
  forallb FuncArg_bounds args = true ->
  bgood 3 (forallb FuncArg_bounds)
       (parseFunctionArgs src tokens funcs ParseFloat (S fuel) args)
       (S fuel).
Proof. intros Hs pos Hf. simpl. run. Qed.

Lemma bstep_FunctionArg :
  bgood 2 FuncArg_bounds
       (parseFunctionArg src tokens funcs ParseFloat (S fuel)) (S fuel).
Proof. intros pos Hf. simpl. run. Qed.

Lemma bstep_FilterQuery :
  bgood 1 PathQuery_bounds
       (parseFilterQuery src tokens funcs ParseFloat (S fuel)) (S fuel).
Proof. intros pos Hf. simpl. run. Qed.

Lemma bstep_CompValue :
  bgood 2 CompValue_bounds
       (parseCompValue src tokens funcs ParseFloat (S fuel)) (S fuel).
Proof. intros pos Hf. simpl. run. Qed.

End Step.

Lemma binv_all (fuel : nat) : binv fuel.
Proof.
  induction fuel as [|fuel IH].
  - constructor; intros; intros pos Hf; lia.
  - constructor.
    + apply bstep_Segments, IH.
    + apply bstep_DescendantSegment, IH.
    + apply bstep_BracketedSelection, IH.
    + apply bstep_Selector, IH.
    + apply bstep_FilterExpr, IH.
    + apply bstep_LogicalOr, IH.
    + apply bstep_LogicalOr_rest, IH.
    + apply bstep_LogicalAnd, IH.
    + apply bstep_LogicalAnd_rest, IH.
    + apply bstep_BasicExpr, IH.
    + apply bstep_TestOrComparison, IH.
    + apply bstep_ComparisonFromLiteral, IH.
    + apply bstep_FunctionExpr, IH.
    + apply bstep_FunctionArgs, IH.
    + apply bstep_FunctionArg, IH.
    + apply bstep_FilterQuery, IH.
    + apply bstep_CompValue, IH.
Qed.

(** [Parse] stays within its recursion bound, and a query it returns
    respects the static rules. *)
Lemma Parse_bounds :
  match Parse src tokens funcs ParseFloat with
  | Ok q _ => PathQuery_bounds q = true
  | Err _ => True
  | OutOfFuel => False
  end.
Proof.
  unfold Parse.
  destruct ((0 <? String.length src)%nat
            && isBlankSpace (Lexer.byte_at src 0)); [exact I|].
  destruct ((0 <? String.length src)%nat
            && isBlankSpace (Lexer.byte_at src (String.length src - 1)));
    [exact I|].
  change (hoare
            (dollar <- match_ tokens Kind.Dollar ;;
             at_ <- (if dollar then ret true else match_ tokens Kind.At) ;;
             if negb at_ then error_ tokens "expected $ or @"
             else
               segments <- parseSegments src tokens funcs ParseFloat
                                         (bound tokens) [] ;;
               e <- atEnd tokens ;;
               if negb e then error_ tokens "unexpected token after path"
               else ret (NewPathQuery dollar segments))
            O (fun q _ => PathQuery_bounds q = true)).
  pose proof (binv_Segments _ (binv_all (bound tokens)) [] eq_refl) as Hseg.
  unfold bgood, bound in Hseg.
  hsteps ltac:(apply Hseg; lia); tidy; assumption.
Qed.

End Specs.

(** [New] followed by [Parse] returns only queries whose indices are in
    range. *)
Lemma New_Parse_bounds (ParseFloat : string -> option spec_float)
      (src : string) (funcs : list (string * entry)) :
  match New_Parse ParseFloat src funcs with
  | Ok q _ => PathQuery_bounds q = true
  | Err _ => True
  | OutOfFuel => False
  end.
Proof.
  unfold New_Parse.
  destruct (last (Lexer.tokenize src) (zeroToken Kind.EOF)) as [k st en msg].
  destruct k; try apply Parse_bounds. exact I.
Qed.

Lemma in_rangeb_spec (z : Z) : in_rangeb z = true -> in_index_range z.
Proof.
  unfold in_rangeb, in_index_range. intros H.
  apply andb_true_iff in H. destruct H as [H1 H2].
  apply Z.leb_le in H1. apply Z.leb_le in H2. lia.
Qed.

Lemma slice_bounds_in_range (a : SliceArgs) :
  Selector_bounds (SliceSelector a) = true -> slice_in_range a.
Proof.
  simpl. intros H.
  apply andb_true_iff in H. destruct H as [H H3].
  apply andb_true_iff in H. destruct H as [H1 H2].
  unfold slice_in_range.
  split; [|split]; intros _; now apply in_rangeb_spec.
Qed.

(** X3: in a compiled query the index of every index selector and the
    start, end and step of every slice selector, at any depth (also in
    the queries of filters and of function arguments), lie within
    [-(2^53-1), 2^53-1]. *)
Theorem compiled_indices_in_range
        (ParseFloat : string -> option spec_float) (Compiled : Type)
        (syntax_Parse : string -> option Syntax.Regexp)
        (compile_printed : Syntax.Regexp -> option Compiled)
        (MatchString : Compiled -> string -> bool)
        (p : Compile.Parser_) (expr : string) (path : JsonPath.Path) :
  Compile.Parser_Parse ParseFloat Compiled syntax_Parse compile_printed
                       MatchString p expr = Compile.Parsed path ->
  exists q, JsonPath.query path = Some q /\ PathQuery_bounds q = true.
Proof.
  unfold Compile.Parser_Parse. intros H.
  pose proof (New_Parse_bounds ParseFloat expr
                (Compile.registry Compiled syntax_Parse compile_printed
                                  MatchString p)) as Hb.
  destruct (New_Parse ParseFloat expr _) as [q pos| |]; try discriminate.
  injection H as <-. exists q. split; [reflexivity|exact Hb].
Qed.

End ParserBounds.

Module CompileProps.

Import Ast AstInd JsonPath.

Section WithLibraries.

Variable Compiled : Type.
Variable syntax_Parse : string -> option Syntax.Regexp.
Variable compile_printed : Syntax.Regexp -> option Compiled.
Variable MatchString : Compiled -> string -> bool.

Lemma lookup_functions (l : list Function) (name : string)
      (fn : Function) :
  Parser.lookup name (map (fun fn => (Name fn, Parser.IsFunction fn)) l)
  = Some (Parser.IsFunction fn) ->
  In fn l /\ Name fn = name.
Proof.
  induction l as [|b l IH]; cbn [map Parser.lookup]; [discriminate|].
  destruct (String.eqb_spec (Name b) name) as [E|E].
  - intros H. injection H as <-. split; [now left|exact E].
  - intros H. destruct (IH H) as [Hin Hn]. split; [now right|exact Hn].
Qed.

(** An entry of the registry that is a function is a built-in function
    under its own name, which no registered function has. *)
Lemma registry_function (p : Compile.Parser_) (name : string)
      (fn : Function) :
  Parser.lookup name
    (Compile.registry Compiled syntax_Parse compile_printed MatchString p)
  = Some (Parser.IsFunction fn) ->
  In fn (Functions.Builtins Compiled syntax_Parse compile_printed
                            MatchString)
  /\ ~ In (Name fn) (map fst (Compile.functions p)).
Proof.
  unfold Compile.registry, Compile.newBuiltinRegistry.
  destruct p as [fns]. cbn [Compile.functions].
  induction fns as [|[k f] fns IH]; cbn [map app Parser.lookup fst].
  - intros H. destruct (lookup_functions _ _ _ H) as [Hin _].
    split; [exact Hin|tauto].
  - destruct (String.eqb_spec k name) as [E|E]; [discriminate|].
    intros H. destruct (IH H) as [Hb Hn]. split; [exact Hb|].
    intros [Hk|Hk]; [|exact (Hn Hk)].
    apply E. rewrite Hk. clear IH Hn Hk E.
    induction fns as [|[k' f'] fns IH];
      cbn [map app Parser.lookup fst] in H.
    + exact (proj2 (lookup_functions _ _ _ H)).
    + destruct (k' =? name)%string; [discriminate|exact (IH H)].
Qed.

End WithLibraries.

(** X4: a function registered with [WithFunctions] is never called.
    Every function that a compiled query calls, at any depth, is one of
    the five built-in functions, and no registered function has its name:
    a query that calls a registered name, also the name of a built-in
    function, is rejected. *)
Theorem registered_functions_are_never_called
        (ParseFloat : string -> option spec_float) (Compiled : Type)
        (syntax_Parse : string -> option Syntax.Regexp)
        (compile_printed : Syntax.Regexp -> option Compiled)
        (MatchString : Compiled -> string -> bool)
        (p : Compile.Parser_) (expr : string) (path : Path) :
  Compile.Parser_Parse ParseFloat Compiled syntax_Parse compile_printed
                       MatchString p expr = Compile.Parsed path ->
  exists q,
    query path = Some q
    /\ Forall (fun fn =>
                 In fn (Functions.Builtins Compiled syntax_Parse
                                           compile_printed MatchString)
                 /\ ~ In (Name fn) (map fst (Compile.functions p)))
              (PathQuery_funcs q).
Proof.
  unfold Compile.Parser_Parse. intros H.
  pose proof (ParserFacts.New_Parse_ok ParseFloat expr
                (Compile.registry Compiled syntax_Parse compile_printed
                                  MatchString p)
                (fun fn =>
                   In fn (Functions.Builtins Compiled syntax_Parse
                                             compile_printed MatchString)
                   /\ ~ In (Name fn) (map fst (Compile.functions p))))
    as Hok.
  destruct (Parser.New_Parse ParseFloat expr _) as [q pos'| |];
    try discriminate.
  injection H as <-. exists q. split; [reflexivity|].
  destruct Hok as [_ Hf]; [|exact Hf].
  intros name fn. apply registry_function.
Qed.

(** A function of the user, registered under the name [first]. *)
Definition first_of : Compile.Function :=
  Compile.mkFunction "first" Compile.FuncValue (fun _ => None)
                     (fun args => hd Nil args).

Definition with_first : Compile.Parser_ :=
  Compile.NewParser [Compile.WithFunctions [first_of]].

(** The query for the arrays of two elements, compiled by a parser that
    has [first] registered. *)
Definition pairs : Path :=
  match Compile.Parser_Parse (fun _ => None) Syntax.Regexp GoRegexp.Parse
                             GoRegexp.compile_printed GoRegexp.MatchString
                             with_first "$[?length(@) == 2]" with
  | Compile.Parsed path => path
  | _ => mkPath None
  end.

Lemma registered_functions_are_never_called_witness :
  exists q,
    query pairs = Some q
    /\ Forall (fun fn =>
                 In fn (Functions.Builtins Syntax.Regexp GoRegexp.Parse
                          GoRegexp.compile_printed GoRegexp.MatchString)
                 /\ ~ In (Name fn) (map fst (Compile.functions with_first)))
              (PathQuery_funcs q).
Proof.
  apply (registered_functions_are_never_called
           (fun _ => None) Syntax.Regexp GoRegexp.Parse
           GoRegexp.compile_printed GoRegexp.MatchString
           with_first "$[?length(@) == 2]" pairs).
  vm_compute. reflexivity.
Defined.

(** A query that calls the registered function is rejected. *)
Lemma call_of_registered_function_rejected :
  Compile.Parser_Parse (fun _ => None) Syntax.Regexp GoRegexp.Parse
                       GoRegexp.compile_printed GoRegexp.MatchString
                       with_first "$[?first(@) == 2]"
  = Compile.ErrPathParse (Parser.ErrInvalidFunction "first").
Proof. vm_compute. reflexivity. Qed.

(** X5: a query with blank space before it or after it is rejected,
    whatever lies between. *)
Theorem blank_space_around_is_rejected
        (ParseFloat : string -> option spec_float) (Compiled : Type)
        (syntax_Parse : string -> option Syntax.Regexp)
        (compile_printed : Syntax.Regexp -> option Compiled)
        (MatchString : Compiled -> string -> bool)
        (p : Compile.Parser_) (expr : string) :
  (0 < String.length expr)%nat ->
  Parser.isBlankSpace (Lexer.byte_at expr 0) = true
  \/ Parser.isBlankSpace
       (Lexer.byte_at expr (String.length expr - 1)) = true ->
  exists cause,
    Compile.Parser_Parse ParseFloat Compiled syntax_Parse compile_printed
                         MatchString p expr = Compile.ErrPathParse cause.
Proof.
  intros Hlen Hblank. unfold Compile.Parser_Parse, Parser.New_Parse.
  assert (Hp : forall tokens,
             exists e,
               Parser.Parse expr tokens
                 (Compile.registry Compiled syntax_Parse compile_printed
                                   MatchString p) ParseFloat
               = Parser.Err e).
  { intros tokens. unfold Parser.Parse.
    apply Nat.ltb_lt in Hlen. rewrite Hlen. simpl.
    destruct (Parser.isBlankSpace (Lexer.byte_at expr 0)); [eauto|].
    destruct Hblank as [Hb|Hb]; [discriminate|].
    rewrite Hb. eauto. }
  destruct (last (Lexer.tokenize expr) (Parser.zeroToken Kind.EOF))
    as [k st en msg].
  destruct k; try (destruct (Hp (Lexer.tokenize expr)) as [e ->]; eauto).
  eauto.
Qed.

Lemma blank_space_around_is_rejected_witness :
  exists cause,
    Compile.Parser_Parse (fun _ => None) Syntax.Regexp GoRegexp.Parse
                         GoRegexp.compile_printed GoRegexp.MatchString
                         (Compile.NewParser []) "$.a "
    = Compile.ErrPathParse cause.
Proof.
  apply (blank_space_around_is_rejected
           (fun _ => None) Syntax.Regexp GoRegexp.Parse
           GoRegexp.compile_printed GoRegexp.MatchString
           (Compile.NewParser []) "$.a ").
  - simpl. lia.
  - right. reflexivity.
Defined.

(** A query with a slice, a negative index and an index inside a
    filter. *)
Definition sliced : Path :=
  match Compile.Parse (fun _ => None) Syntax.Regexp GoRegexp.Parse
                      GoRegexp.compile_printed GoRegexp.MatchString
                      "$[1:5:2][-1]..[?@[0] == 1]" with
  | Compile.Parsed path => path
  | _ => mkPath None
  end.

Lemma compiled_indices_in_range_witness :
  exists q, query sliced = Some q /\ Bounds.PathQuery_bounds q = true.
Proof.
  apply (ParserBounds.compiled_indices_in_range
           (fun _ => None) Syntax.Regexp GoRegexp.Parse
           GoRegexp.compile_printed GoRegexp.MatchString
           (Compile.NewParser []) "$[1:5:2][-1]..[?@[0] == 1]" sliced).
  vm_compute. reflexivity.
Defined.

End CompileProps.

(* ================================================================== *)
(** * Slices: bounds checks, shape, and the two implementations *)
(* ================================================================== *)

Module SliceChecked.

Import Ast JsonPath.

(** [arr[i]]: Go panics when [i] is outside [0, len(arr)). *)
Definition index_checked (arr : list any) (i : Z) : outcome any :=
  if (0 <=? i) && (i <? len arr)
  then Returns (nth (Z.to_nat i) arr Nil)
  else Panics.

(** The two loops at the end of [applySlice], with the bounds check of
    [arr[i]]. *)
Fixpoint slice_up_checked (fuel : nat) (out arr : list any)
         (i end_ step : Z) : outcome (list any) :=
  match fuel with
  | O => Returns out
  | S fuel' =>
      if i <? end_
      then bind (index_checked arr i) (fun v =>
             slice_up_checked fuel' (out ++ [v]) arr
                              (wrap64 (i + step)) end_ step)
      else Returns out
  end.

Fixpoint slice_down_checked (fuel : nat) (out arr : list any)
         (i end_ step : Z) : outcome (list any) :=
  match fuel with
  | O => Returns out
  | S fuel' =>
      if i >? end_
      then bind (index_checked arr i) (fun v =>
             slice_down_checked fuel' (out ++ [v]) arr
                                (wrap64 (i + step)) end_ step)
      else Returns out
  end.

(** [Selector.applySlice], with the bounds checks of its loops. *)
Definition applySlice_checked (a : SliceArgs) (out arr : list any)
  : outcome (list any) :=
  let length := len arr in
  if length =? 0 then Returns out
  else
    let start := Start a in
    let end_ := End_ a in
    let step := if negb (HasStep a) then 1 else Step a in
    if step =? 0 then Returns out
    else
      let start :=
        if step >? 0 then (if negb (HasStart a) then 0 else start)
        else (if negb (HasStart a) then length - 1 else start) in
      let end_ :=
        if step >? 0 then (if negb (HasEnd a) then length else end_)
        else (if negb (HasEnd a) then - length - 1 else end_) in
      let start := if start <? 0 then start + length else start in
      let end_ := if end_ <? 0 then end_ + length else end_ in
      if step >? 0 then
        let start := if start <? 0 then 0 else start in
        let start := if start >? length then length else start in
        let end_ := if end_ <? 0 then 0 else end_ in
        let end_ := if end_ >? length then length else end_ in
        slice_up_checked (Z.to_nat (end_ - start)) out arr start end_ step
      else
        let start := if start <? 0 then 0 else start in
        let start := if start >=? length then length - 1 else start in
        let end_ := if end_ <? -1 then -1 else end_ in
        let end_ := if end_ >=? length then length - 1 else end_ in
        slice_down_checked (Z.to_nat (start - end_)) out arr start end_ step.

(** [appendSlice], with the bounds check of [arr[idx]]. *)
Definition appendSlice_checked (out arr : list any) (args : SliceArgs)
  : outcome (list any) :=
  fold_left (fun out idx =>
               bind out (fun out =>
                 bind (index_checked arr idx) (fun v =>
                   Returns (out ++ [v]))))
            (sliceIndices args (len arr)) (Returns out).

End SliceChecked.

Module SliceProps.

Import Ast JsonPath SliceSpec SliceFacts SliceChecked.

Lemma index_checked_in_range (arr : list any) (i : Z) :
  0 <= i < len arr -> index_checked arr i = Returns (index_at arr i).
Proof.
  intros H. unfold index_checked, index_at.
  destruct (Z.leb_spec 0 i); [|lia]. destruct (Z.ltb_spec i (len arr)); [|lia].
  destruct (Z.ltb_spec i 0); [lia|]. reflexivity.
Qed.

Lemma slice_up_iterate (n : nat) (out arr : list any) (i end_ step : Z) :
  0 < step <= maxIndex -> 0 <= i -> end_ <= len arr -> len arr < 2 ^ 62 ->
  slice_up n out arr i end_ step
  = out ++ map (index_at arr) (iterate_up n i end_ step)
  /\ slice_up_checked n out arr i end_ step
     = Returns (slice_up n out arr i end_ step).
Proof.
  intros Hs. revert out i.
  induction n as [|n IH]; intros out i Hi He HL; simpl.
  - now rewrite app_nil_r.
  - destruct (Z.ltb_spec i end_) as [Hlt|Hge]; [|now rewrite app_nil_r].
    rewrite index_checked_in_range by lia. simpl.
    rewrite wrap64_small by (unfold maxIndex in Hs; lia).
    destruct (IH (out ++ [index_at arr i]) (i + step)) as [E1 E2];
      try lia.
    rewrite E1, E2, E1. now rewrite <- app_assoc.
Qed.

Lemma slice_down_iterate (n : nat) (out arr : list any) (i end_ step : Z) :
  - maxIndex <= step < 0 -> i < len arr -> -1 <= end_ ->
  len arr < 2 ^ 62 ->
  slice_down n out arr i end_ step
  = out ++ map (index_at arr) (iterate_down n i end_ step)
  /\ slice_down_checked n out arr i end_ step
     = Returns (slice_down n out arr i end_ step).
Proof.
  intros Hs. revert out i.
  induction n as [|n IH]; intros out i Hi He HL; simpl.
  - now rewrite app_nil_r.
  - destruct (Z.gtb_spec i end_) as [Hlt|Hge]; [|now rewrite app_nil_r].
    rewrite index_checked_in_range by lia. simpl.
    rewrite wrap64_small by (unfold maxIndex in Hs; lia).
    destruct (IH (out ++ [index_at arr i]) (i + step)) as [E1 E2];
      try lia.
    rewrite E1, E2, E1. now rewrite <- app_assoc.
Qed.


Ltac split_cases :=
  repeat match goal with
         | |- context [Z.ltb ?a ?b] => destruct (Z.ltb_spec a b)
         | |- context [Z.gtb ?a ?b] => destruct (Z.gtb_spec a b)
         | |- context [Z.geb ?a ?b] => destruct (Z.geb_spec a b)
         end; cbv beta iota.

Ltac up_case :=
  match goal with
  | |- slice_up ?n ?out ?arr ?i ?e ?step = _ /\ _ =>
      let E1 := fresh in let E2 := fresh in
      destruct (slice_up_iterate n out arr i e step) as [E1 E2];
      [lia|lia|lia|lia|];
      split; [rewrite E1; do 2 f_equal; apply iterate_up_agree; lia
             |exact E2]
  end.

Ltac down_case :=
  match goal with
  | |- slice_down ?n ?out ?arr ?i ?e ?step = _ /\ _ =>
      let E1 := fresh in let E2 := fresh in
      destruct (slice_down_iterate n out arr i e step) as [E1 E2];
      [lia|lia|lia|lia|];
      split; [rewrite E1; do 2 f_equal; apply iterate_down_agree; lia
             |exact E2]
  end.

Lemma applySlice_up (s0 e0 step : Z) (out arr : list any) :
  0 < len arr < 2 ^ 62 -> 0 < step <= maxIndex ->
  let L := len arr in
  let start := if s0 <? 0 then s0 + L else s0 in
  let end_ := if e0 <? 0 then e0 + L else e0 in
  let start' := if start <? 0 then 0 else start in
  let start'' := if start' >? L then L else start' in
  let end' := if end_ <? 0 then 0 else end_ in
  let end'' := if end' >? L then L else end' in
  slice_up (Z.to_nat (end'' - start'')) out arr start'' end'' step
  = out ++ map (index_at arr)
             (iterate_up (Z.to_nat (clamp 0 L end_ - clamp 0 L start))
                         (clamp 0 L start) (clamp 0 L end_) step)
  /\ slice_up_checked (Z.to_nat (end'' - start'')) out arr start'' end'' step
     = Returns (slice_up (Z.to_nat (end'' - start'')) out arr
                         start'' end'' step).
Proof.
  intros HL Hs. cbv zeta. unfold clamp.
  split_cases; up_case.
Qed.

Lemma applySlice_down (s0 e0 step : Z) (out arr : list any) :
  0 < len arr < 2 ^ 62 -> - maxIndex <= step < 0 ->
  let L := len arr in
  let start := if s0 <? 0 then s0 + L else s0 in
  let end_ := if e0 <? 0 then e0 + L else e0 in
  let start' := if start <? 0 then 0 else start in
  let start'' := if start' >=? L then L - 1 else start' in
  let end' := if end_ <? -1 then -1 else end_ in
  let end'' := if end' >=? L then L - 1 else end' in
  slice_down (Z.to_nat (start'' - end'')) out arr start'' end'' step
  = out ++ map (index_at arr)
             (iterate_down
                (Z.to_nat (clamp 0 (L - 1) start - clamp (-1) (L - 1) end_))
                (clamp 0 (L - 1) start) (clamp (-1) (L - 1) end_) step)
  /\ slice_down_checked (Z.to_nat (start'' - end'')) out arr
                        start'' end'' step
     = Returns (slice_down (Z.to_nat (start'' - end'')) out arr
                           start'' end'' step).
Proof.
  intros HL Hs. cbv zeta. unfold clamp.
  split_cases; down_case.
Qed.

(** [applySlice] appends the elements at the indices of the slice with
    [start] clamped into [[0, L-1]] under a negative step, and no access
    [arr[i]] of its loops is out of range. *)
Lemma applySlice_spec (a : SliceArgs) (out arr : list any) :
  len arr < 2 ^ 62 -> slice_in_range a ->
  applySlice a out arr
  = out ++ map (index_at arr) (slice_as_specified a (len arr))
  /\ applySlice_checked a out arr = Returns (applySlice a out arr).
Proof.
  intros HL (Hstart & Hend & Hstep).
  unfold applySlice, applySlice_checked, slice_as_specified, slice_with.
  assert (Hstep' : in_index_range (if HasStep a then Step a else 1)).
  { destruct (HasStep a); [auto|unfold in_index_range, maxIndex; lia]. }
  replace (if negb (HasStep a) then 1 else Step a)
    with (if HasStep a then Step a else 1) by (now destruct (HasStep a)).
  set (step := if HasStep a then Step a else 1) in *.
  unfold in_index_range in Hstep'.
  assert (H0 : 0 <= len arr) by (unfold len; lia).
  destruct (Z.eqb_spec (len arr) 0) as [E|HL0].
  - rewrite E. destruct (Z.eqb_spec step 0);
      [now rewrite app_nil_r|].
    destruct (Z.gtb_spec step 0); unfold clamp; simpl.
    + rewrite iterate_up_empty by lia. now rewrite app_nil_r.
    + rewrite iterate_down_empty by lia. now rewrite app_nil_r.
  - destruct (Z.eqb_spec step 0); [now rewrite app_nil_r|].
    destruct (Z.gtb_spec step 0).
    + replace (if negb (HasStart a) then 0 else Start a)
        with (if HasStart a then Start a else 0)
        by (now destruct (HasStart a)).
      replace (if negb (HasEnd a) then len arr else End_ a)
        with (if HasEnd a then End_ a else len arr)
        by (now destruct (HasEnd a)).
      apply applySlice_up; lia.
    + replace (if negb (HasStart a) then len arr - 1 else Start a)
        with (if HasStart a then Start a else len arr - 1)
        by (now destruct (HasStart a)).
      replace (if negb (HasEnd a) then - len arr - 1 else End_ a)
        with (if HasEnd a then End_ a else - len arr - 1)
        by (now destruct (HasEnd a)).
      apply applySlice_down; lia.
Qed.


(** The indices that the loops of [sliceIndices] append pass their
    test [i >= 0 && i < length]. *)
Lemma indices_up_in_range (L : Z) (n : nat) :
  forall acc i end_ step,
    Forall (fun i => 0 <= i < L) acc ->
    Forall (fun i => 0 <= i < L) (indices_up n acc i end_ step L).
Proof.
  induction n as [|n IH]; intros acc i e step Hacc; simpl; [exact Hacc|].
  destruct (i <? e); [|exact Hacc]. apply IH.
  destruct (Z.geb_spec i 0); destruct (Z.ltb_spec i L); simpl;
    try exact Hacc.
  apply Forall_app. split; [exact Hacc|]. constructor; [lia|constructor].
Qed.

Lemma indices_down_in_range (L : Z) (n : nat) :
  forall acc i end_ step,
    Forall (fun i => 0 <= i < L) acc ->
    Forall (fun i => 0 <= i < L) (indices_down n acc i end_ step L).
Proof.
  induction n as [|n IH]; intros acc i e step Hacc; simpl; [exact Hacc|].
  destruct (i >? e); [|exact Hacc]. apply IH.
  destruct (Z.geb_spec i 0); destruct (Z.ltb_spec i L); simpl;
    try exact Hacc.
  apply Forall_app. split; [exact Hacc|]. constructor; [lia|constructor].
Qed.

Lemma sliceIndices_in_range (a : SliceArgs) (L : Z) :
  Forall (fun i => 0 <= i < L) (sliceIndices a L).
Proof.
  unfold sliceIndices.
  destruct (L =? 0); [constructor|].
  destruct ((if HasStep a then Step a else 1) =? 0); [constructor|].
  destruct (if (if HasStep a then Step a else 1) >? 0
            then (if HasStart a then Start a else 0,
                  if HasEnd a then End_ a else L)
            else (if HasStart a then Start a else L - 1,
                  if HasEnd a then End_ a else - L - 1)) as [s0 e0].
  destruct (normalizeSliceBounds s0 e0 _ L) as [start end_].
  destruct (_ >? 0).
  - apply indices_up_in_range. constructor.
  - apply indices_down_in_range. constructor.
Qed.

Lemma appendSlice_checked_returns (out arr : list any) (a : SliceArgs) :
  appendSlice_checked out arr a = Returns (appendSlice out arr a).
Proof.
  unfold appendSlice_checked, appendSlice.
  pose proof (sliceIndices_in_range a (len arr)) as H.
  revert out. induction H as [|i idxs Hi _ IH]; intros out; simpl.
  - reflexivity.
  - rewrite index_checked_in_range by exact Hi. simpl. apply IH.
Qed.

(** X6: no slice selector indexes an array out of range.  In the loops
    of [applySlice], which read [arr[i]] without a test, every read is
    within bounds for the slices the parser produces (bounds within
    [-(2^53-1), 2^53-1]) on an array of fewer than [2^62] elements; in
    [appendSlice] every read is of an index that passed the test of
    [sliceIndices].  So both return, and return what the models without
    the checks return. *)
Theorem slices_never_index_out_of_range (a : SliceArgs)
        (out arr : list any) :
  len arr < 2 ^ 62 -> slice_in_range a ->
  applySlice_checked a out arr = Returns (applySlice a out arr)
  /\ appendSlice_checked out arr a = Returns (appendSlice out arr a).
Proof.
  intros HL Ha. split.
  - exact (proj2 (applySlice_spec a out arr HL Ha)).
  - apply appendSlice_checked_returns.
Qed.

Lemma slices_never_index_out_of_range_witness :
  applySlice_checked (mkSliceArgs 5 (-9) (-2) true true true) []
                     [Int 0; Int 1; Int 2]
  = Returns (applySlice (mkSliceArgs 5 (-9) (-2) true true true) []
                        [Int 0; Int 1; Int 2])
  /\ appendSlice_checked [] [Int 0; Int 1; Int 2]
                         (mkSliceArgs 5 (-9) (-2) true true true)
     = Returns (appendSlice [] [Int 0; Int 1; Int 2]
                            (mkSliceArgs 5 (-9) (-2) true true true)).
Proof.
  apply (slices_never_index_out_of_range
           (mkSliceArgs 5 (-9) (-2) true true true) []
           [Int 0; Int 1; Int 2]).
  - vm_compute. reflexivity.
  - unfold slice_in_range, in_index_range, maxIndex. simpl. lia.
Defined.

(** Every element is the one before it plus [step]. *)
Fixpoint stepping (step : Z) (l : list Z) : Prop :=
  match l with
  | x :: ((y :: _) as rest) => y = x + step /\ stepping step rest
  | _ => True
  end.

Lemma iterate_up_stepping (n : nat) (i end_ step : Z) :
  stepping step (iterate_up n i end_ step).
Proof.
  revert i. induction n as [|n IH]; intros i; simpl; [exact I|].
  destruct (i <? end_); [|exact I].
  specialize (IH (i + step)). destruct n as [|n]; simpl in *; [exact I|].
  destruct (i + step <? end_); [|exact I]. split; [reflexivity|exact IH].
Qed.

Lemma iterate_down_stepping (n : nat) (i end_ step : Z) :
  stepping step (iterate_down n i end_ step).
Proof.
  revert i. induction n as [|n IH]; intros i; simpl; [exact I|].
  destruct (i >? end_); [|exact I].
  specialize (IH (i + step)). destruct n as [|n]; simpl in *; [exact I|].
  destruct (i + step >? end_); [|exact I]. split; [reflexivity|exact IH].
Qed.

(** The step of a slice: 1 when it is absent. *)
Definition step_of (a : SliceArgs) : Z := if HasStep a then Step a else 1.

Lemma slice_with_stepping (lo : Z) (a : SliceArgs) (L : Z) :
  stepping (step_of a) (slice_with lo a L).
Proof.
  unfold slice_with, step_of.
  destruct (_ =? 0); [exact I|].
  destruct (_ >? 0); [apply iterate_up_stepping|apply iterate_down_stepping].
Qed.



(** The two implementations disagree only on a slice that runs
    backwards from an explicit start below the array. *)
Definition runs_alike (a : SliceArgs) (L : Z) : Prop :=
  0 <= step_of a \/ HasStart a = false \/ - L <= Start a.

Lemma slice_with_alike (a : SliceArgs) (L : Z) :
  0 <= L -> runs_alike a L ->
  slice_as_specified a L = slice_rfc a L.
Proof.
  intros HL Hr. unfold slice_as_specified, slice_rfc, slice_with.
  unfold runs_alike, step_of in Hr.
  destruct (Z.eqb_spec (if HasStep a then Step a else 1) 0);
    [reflexivity|].
  destruct (Z.gtb_spec (if HasStep a then Step a else 1) 0);
    [reflexivity|].
  assert (Hs : HasStart a = false \/ - L <= Start a)
    by (destruct Hr as [Hr|Hr]; [lia|exact Hr]).
  apply iterate_down_agree; unfold clamp;
    destruct (HasStart a) eqn:E; destruct Hs as [Hs|Hs]; try congruence;
    split_cases; lia.
Qed.

(** X8: the slice of [applySlice] (queries inside filters) and the slice
    of [appendSlice] (top-level queries) select the same elements, unless
    the step is negative and an explicit start lies below [-len(arr)]. *)
Theorem slice_implementations_agree (a : SliceArgs) (out arr : list any) :
  len arr < 2 ^ 62 -> slice_in_range a -> runs_alike a (len arr) ->
  applySlice a out arr = appendSlice out arr a.
Proof.
  intros HL Ha Hr.
  assert (H0 : 0 <= len arr) by (unfold len; lia).
  rewrite (proj1 (applySlice_spec a out arr HL Ha)).
  rewrite appendSlice_indices, (sliceIndices_rfc a (len arr)) by
      (try lia; exact Ha).
  now rewrite (slice_with_alike a (len arr) H0 Hr).
Qed.

Lemma slice_implementations_agree_witness :
  applySlice (mkSliceArgs (-2) 0 (-1) true false true) []
             [Int 0; Int 1; Int 2]
  = appendSlice [] [Int 0; Int 1; Int 2]
                (mkSliceArgs (-2) 0 (-1) true false true).
Proof.
  apply (slice_implementations_agree
           (mkSliceArgs (-2) 0 (-1) true false true) []
           [Int 0; Int 1; Int 2]).
  - vm_compute. reflexivity.
  - unfold slice_in_range, in_index_range, maxIndex. simpl. lia.
  - right. right. vm_compute. discriminate.
Defined.


Lemma index_at_app (pre l : list any) (k : nat) :
  index_at (pre ++ l) (len pre + Z.of_nat k) = nth k l Nil.
Proof.
  unfold index_at, len.
  destruct (Z.ltb_spec (Z.of_nat (List.length pre) + Z.of_nat k) 0); [lia|].
  replace (Z.to_nat (Z.of_nat (List.length pre) + Z.of_nat k))
    with (List.length pre + k)%nat by lia.
  rewrite app_nth2 by lia. f_equal. lia.
Qed.

Lemma iterate_up_all (l : list any) :
  forall pre,
    map (index_at (pre ++ l))
        (iterate_up (List.length l) (len pre) (len pre + len l) 1) = l.
Proof.
  induction l as [|x l IH]; intros pre; simpl; [reflexivity|].
  destruct (Z.ltb_spec (len pre) (len pre + len (x :: l))) as [_|H];
    [|unfold len in H; simpl in H; lia].
  simpl. f_equal.
  - replace (len pre) with (len pre + Z.of_nat 0) by lia.
    now rewrite index_at_app.
  - specialize (IH (pre ++ [x])). rewrite <- app_assoc in IH. simpl in IH.
    replace (len (pre ++ [x])) with (len pre + 1) in IH
      by (unfold len; rewrite length_app; simpl; lia).
    replace (len pre + 1 + len l) with (len pre + len (x :: l)) in IH
      by (unfold len; simpl; lia).
    exact IH.
Qed.

Lemma firstn_S_nth (l : list any) :
  forall n : nat,
    (n < List.length l)%nat ->
    firstn (S n) l = firstn n l ++ [nth n l Nil].
Proof.
  induction l as [|x l IH]; intros n Hn; [simpl in Hn; lia|].
  destruct n as [|n]; [reflexivity|].
  simpl in Hn. cbn [nth]. rewrite (firstn_cons (S n) x l).
  rewrite (firstn_cons n x l). cbn [app]. f_equal.
  exact (IH n ltac:(lia)).
Qed.

Lemma iterate_down_all (l : list any) :
  forall (n : nat) (i : Z),
    i = Z.of_nat n - 1 -> (n <= List.length l)%nat ->
    map (index_at l) (iterate_down n i (-1) (-1)) = rev (firstn n l).
Proof.
  induction n as [|n IH]; intros i Hi Hn; [reflexivity|].
  cbn [iterate_down].
  destruct (Z.gtb_spec i (-1)) as [_|H]; [|lia].
  cbn [map]. rewrite (IH (i + -1)) by lia.
  rewrite firstn_S_nth by lia. rewrite rev_app_distr. cbn [rev app].
  f_equal.
  replace i with (len (@nil any) + Z.of_nat n)
    by (unfold len; simpl; lia).
  exact (index_at_app [] l n).
Qed.

(** The slices [[:]] and [[::1]]. *)
Definition whole (a : SliceArgs) : Prop :=
  HasStart a = false /\ HasEnd a = false /\ step_of a = 1.

(** The slice [[::-1]]. *)
Definition backwards (a : SliceArgs) : Prop :=
  HasStart a = false /\ HasEnd a = false
  /\ HasStep a = true /\ Step a = -1.

Lemma slice_rfc_whole (a : SliceArgs) (arr : list any) :
  whole a ->
  map (index_at arr) (slice_rfc a (len arr)) = arr.
Proof.
  intros (Hs & He & Hstep). unfold slice_rfc, slice_with.
  unfold step_of in Hstep. rewrite Hs, He, Hstep. simpl.
  assert (H0 : 0 <= len arr) by (unfold len; lia).
  destruct (Z.ltb_spec (len arr) 0); [lia|].
  unfold clamp.
  replace (Z.min (Z.max 0 0) (len arr)) with (len (@nil any))
    by (unfold len; simpl; lia).
  replace (Z.min (Z.max (len arr) 0) (len arr))
    with (len (@nil any) + len arr) by (unfold len; simpl; lia).
  replace (Z.to_nat (len (@nil any) + len arr - len (@nil any)))
    with (List.length arr) by (unfold len; simpl; lia).
  exact (iterate_up_all arr []).
Qed.

Lemma slice_rfc_backwards (a : SliceArgs) (arr : list any) :
  backwards a ->
  map (index_at arr) (slice_rfc a (len arr)) = rev arr.
Proof.
  intros (Hs & He & Hh & Hstep). unfold slice_rfc, slice_with.
  rewrite Hs, He, Hh, Hstep. simpl.
  assert (H0 : 0 <= len arr) by (unfold len; lia).
  unfold clamp.
  assert (E1 : Z.min (Z.max (if len arr - 1 <? 0
                             then len arr - 1 + len arr
                             else len arr - 1) (-1)) (len arr - 1)
               = Z.of_nat (List.length arr) - 1).
  { unfold len. destruct (Z.ltb_spec (Z.of_nat (List.length arr) - 1) 0); lia. }
  assert (E2 : Z.min (Z.max (if - len arr - 1 <? 0
                             then - len arr - 1 + len arr
                             else - len arr - 1) (-1)) (len arr - 1)
               = -1).
  { destruct (Z.ltb_spec (- len arr - 1) 0); lia. }
  rewrite E1, E2.
  replace (Z.to_nat (Z.of_nat (List.length arr) - 1 - -1))
    with (List.length arr) by lia.
  rewrite (iterate_down_all arr (List.length arr)) by lia.
  now rewrite firstn_all.
Qed.

(** X9: on an array of fewer than [2^62] elements the slice without
    bounds and with step 1 (or no step) selects every element, in the
    order of the array, and the slice without bounds and with step -1
    selects every element in the reverse order; so it is in both
    evaluators. *)
Theorem slice_without_bounds (a : SliceArgs) (out arr : list any) :
  len arr < 2 ^ 62 ->
  HasStart a = false -> HasEnd a = false ->
  step_of a = 1 \/ step_of a = -1 ->
  appendSlice out arr a
  = out ++ (if step_of a =? 1 then arr else rev arr)
  /\ applySlice a out arr
     = out ++ (if step_of a =? 1 then arr else rev arr).
Proof.
  intros HL Hs He Hstep.
  assert (H0 : 0 <= len arr) by (unfold len; lia).
  assert (Ha : slice_in_range a).
  { unfold slice_in_range. rewrite Hs, He. unfold step_of in Hstep.
    split; [discriminate|]. split; [discriminate|].
    intros Hh. rewrite Hh in Hstep.
    unfold in_index_range, maxIndex. lia. }
  rewrite (proj1 (applySlice_spec a out arr HL Ha)).
  rewrite appendSlice_indices, (sliceIndices_rfc a (len arr))
    by (try lia; exact Ha).
  rewrite (slice_with_alike a (len arr) H0) by (right; left; exact Hs).
  assert (E : map (index_at arr) (slice_rfc a (len arr))
              = if step_of a =? 1 then arr else rev arr).
  { destruct Hstep as [Hstep|Hstep]; rewrite Hstep; simpl.
    - apply slice_rfc_whole. repeat split; assumption.
    - apply slice_rfc_backwards. unfold step_of in Hstep.
      destruct (HasStep a) eqn:Hh; [|discriminate].
      repeat split; assumption. }
  rewrite E. split; reflexivity.
Qed.

Lemma slice_without_bounds_witness :
  appendSlice [] [Int 1; Int 2; Int 3]
              (mkSliceArgs 0 0 (-1) false false true)
  = [Int 3; Int 2; Int 1]
  /\ applySlice (mkSliceArgs 0 0 (-1) false false true) []
                [Int 1; Int 2; Int 3]
     = [Int 3; Int 2; Int 1].
Proof.
  apply (slice_without_bounds (mkSliceArgs 0 0 (-1) false false true) []
                              [Int 1; Int 2; Int 3]).
  - vm_compute. reflexivity.
  - reflexivity.
  - reflexivity.
  - right. reflexivity.
Defined.

End SliceProps.

(* ================================================================== *)
(** * The two evaluators on whole queries *)
(* ================================================================== *)

Module EvalProps.

Import Ast AstInd JsonPath SliceSpec SliceFacts SliceProps.

(** Every array inside the value has fewer than [2^62] elements. *)
Fixpoint small (v : any) : Prop :=
  match v with
  | Arr l =>
      len l < 2 ^ 62
      /\ (fix all (l : list any) : Prop :=
            match l with
            | [] => True
            | x :: r => small x /\ all r
            end) l
  | Obj m =>
      (fix all (m : list (string * any)) : Prop :=
         match m with
         | [] => True
         | kv :: r => small (snd kv) /\ all r
         end) m
  | _ => True
  end.

Lemma small_Arr (l : list any) :
  small (Arr l) <-> len l < 2 ^ 62 /\ Forall small l.
Proof.
  simpl. split; intros [H1 H2]; (split; [exact H1|]); clear H1.
  - induction l as [|x l IH]; [constructor|].
    constructor; [apply H2|apply IH, H2].
  - induction H2 as [|x l Hx _ IH]; [exact I|split; assumption].
Qed.

Lemma small_Obj (m : list (string * any)) :
  small (Obj m) <-> Forall (fun kv => small (snd kv)) m.
Proof.
  simpl. split; intros H.
  - induction m as [|kv m IH]; [constructor|].
    constructor; [apply H|apply IH, H].
  - induction H as [|kv m Hx _ IH]; [exact I|split; assumption].
Qed.

(** A slice on which the two implementations agree on every array. *)
Definition alike_selector (s : Selector) : Prop :=
  match s with
  | SliceSelector a =>
      slice_in_range a
      /\ (0 <= step_of a \/ HasStart a = false \/ 0 <= Start a)
  | _ => True
  end.

Definition alike_query (q : PathQuery) : Prop :=
  Forall (fun seg => Forall alike_selector (Selectors seg)) (Segments q).

Section Agreement.

Variable ord : range_oracle.
Variable root : any.

Lemma Forall_pick {A} (P : A -> Prop) (idxs : list nat) (l : list A) :
  Forall P l -> Forall P (pick idxs l).
Proof.
  intros H. unfold pick. apply Forall_flat_map.
  apply Forall_forall. intros i _.
  destruct (nth_error l i) as [x|] eqn:E; [|constructor].
  constructor; [|constructor].
  rewrite Forall_forall in H. apply H. eapply nth_error_In. exact E.
Qed.

Lemma Forall_filter_of {A} (P : A -> Prop) (f : A -> bool) (l : list A) :
  Forall P l -> Forall P (filter f l).
Proof.
  rewrite !Forall_forall. intros H x Hx.
  apply filter_In in Hx. apply H, Hx.
Qed.

Lemma index_at_small (arr : list any) (i : Z) :
  Forall small arr -> small (index_at arr i).
Proof.
  intros H. unfold index_at. destruct (i <? 0); [exact I|].
  destruct (Nat.lt_ge_cases (Z.to_nat i) (List.length arr)) as [Hlt|Hge].
  - rewrite Forall_forall in H. apply H. now apply nth_In.
  - now rewrite nth_overflow.
Qed.

Lemma map_lookup_In (k : string) (m : list (string * any)) (v : any) :
  map_lookup k m = Some v -> In (k, v) m.
Proof.
  induction m as [|[k' v'] m IH]; simpl; [discriminate|].
  destruct (String.eqb_spec k' k) as [->|_].
  - intros H. injection H as <-. now left.
  - intros H. right. now apply IH.
Qed.

(** The nodes a selector selects from a small node are small. *)
Lemma appendSelector_small (sel : Selector) (node : any) :
  small node -> Forall small (appendSelector ord [] sel node root).
Proof.
  intros Hn. destruct sel as [name|i|a| |f].
  - destruct node; simpl; try constructor.
    destruct (map_lookup name m) as [v|] eqn:E; [|constructor].
    constructor; [|constructor].
    apply small_Obj in Hn. rewrite Forall_forall in Hn.
    exact (Hn _ (map_lookup_In _ _ _ E)).
  - destruct node; simpl; try constructor.
    apply small_Arr in Hn. destruct Hn as [_ Hn].
    destruct (_ && _); constructor; [|constructor].
    now apply index_at_small.
  - destruct node; simpl; try constructor.
    apply small_Arr in Hn. destruct Hn as [_ Hn].
    rewrite appendSlice_indices. simpl. apply Forall_map.
    apply Forall_forall. intros i _. now apply index_at_small.
  - destruct node; simpl; try constructor.
    + apply small_Arr in Hn. apply Hn.
    + apply small_Obj in Hn. apply Forall_map. unfold ranged.
      now apply Forall_pick.
  - destruct node; simpl; try constructor.
    + apply small_Arr in Hn. apply Forall_filter_of. apply Hn.
    + apply small_Obj in Hn. apply Forall_filter_of. apply Forall_map.
      unfold ranged. now apply Forall_pick.
Qed.

(** On a small node the two implementations of a selector agree, but
    for the slices that run backwards from a start below zero. *)
Lemma appendSelector_Selector_Apply (sel : Selector) (out : list any)
      (node : any) :
  small node -> alike_selector sel ->
  appendSelector ord out sel node root
  = Selector_Apply ord sel out node root.
Proof.
  intros Hn Ha. destruct sel as [name|i|a| |f]; destruct node;
    try reflexivity.
  - simpl. unfold normalizeIndex.
    set (j := if i <? 0 then i + len l else i).
    destruct (Z.ltb_spec j 0) as [H1|H1];
      destruct (Z.geb_spec j (len l)) as [H2|H2]; simpl;
      destruct (Z.geb_spec j 0) as [H3|H3];
      destruct (Z.ltb_spec j (len l)) as [H4|H4]; simpl;
      try reflexivity; lia.
  - simpl. apply small_Arr in Hn. destruct Hn as [HL _].
    destruct Ha as [Ha Hr].
    assert (H0 : 0 <= len l) by (unfold len; lia).
    rewrite (proj1 (applySlice_spec a out l HL Ha)).
    rewrite appendSlice_indices, (sliceIndices_rfc a (len l))
      by (try lia; exact Ha).
    rewrite (slice_with_alike a (len l) H0); [reflexivity|].
    unfold runs_alike. destruct Hr as [Hr|[Hr|Hr]]; [now left| |];
      right; [now left|right; lia].
Qed.

Lemma appendSelectors_agree (sels : list Selector) (node : any) :
  small node -> Forall alike_selector sels ->
  forall out,
    JsonPath.appendSelectors ord out sels node root
    = Ast.appendSelectors ord out sels node root.
Proof.
  intros Hn Hs. unfold JsonPath.appendSelectors, Ast.appendSelectors.
  induction Hs as [|s sels Hs _ IH]; intros out; simpl; [reflexivity|].
  rewrite (appendSelector_Selector_Apply s out node Hn Hs). apply IH.
Qed.

Lemma appendSelectors_small (sels : list Selector) (node : any) :
  small node ->
  Forall small (JsonPath.appendSelectors ord [] sels node root).
Proof.
  intros Hn. rewrite TopLevelFacts.top_appendSelectors_flat_map. simpl.
  apply Forall_flat_map, Forall_forall. intros s _.
  now apply appendSelector_small.
Qed.


Lemma descend_agree (app1 app2 : list any -> any -> list any) :
  (forall out n, small n -> app1 out n = app2 out n) ->
  forall node,
    small node ->
    forall out, descend ord app1 out node = descend ord app2 out node.
Proof.
  intros Happ. induction node as [| | | | | | |l IH|m IH] using any_ind';
    intros Hn out; simpl; rewrite (Happ out _ Hn); try reflexivity.
  - apply small_Arr in Hn. destruct Hn as [_ Hn].
    apply TopLevelFacts.fold_left_ext_on.
    rewrite Forall_forall in *. intros x Hx acc. exact (IH x Hx (Hn x Hx) acc).
  - apply small_Obj in Hn. do 3 f_equal.
    apply map_ext_in. intros kv Hkv.
    rewrite Forall_forall in *. exact (IH kv Hkv (Hn kv Hkv) []).
Qed.

Lemma descend_small (app : list any -> any -> list any) :
  (forall out n, app out n = out ++ app [] n) ->
  (forall n, small n -> Forall small (app [] n)) ->
  forall node, small node -> Forall small (descend ord app [] node).
Proof.
  intros Happ Hsmall.
  induction node as [| | | | | | |l IH|m IH] using any_ind';
    intros Hn; rewrite (AppendFacts.descend_unfold ord app _ Happ);
    apply Forall_app; (split; [now apply Hsmall|]); simpl;
    try constructor.
  - apply small_Arr in Hn. destruct Hn as [_ Hn].
    apply Forall_flat_map. rewrite Forall_forall in *.
    intros x Hx. exact (IH x Hx (Hn x Hx)).
  - apply small_Obj in Hn. apply Forall_concat. apply Forall_pick.
    apply Forall_map. rewrite Forall_forall in *.
    intros kv Hkv. exact (IH kv Hkv (Hn kv Hkv)).
Qed.

Lemma applySegment_agree (seg : Segment) (nodes : list any) :
  Forall small nodes -> Forall alike_selector (Selectors seg) ->
  applySegment ord seg nodes root = Segment_Apply ord seg nodes root
  /\ Forall small (applySegment ord seg nodes root).
Proof.
  intros Hn Ha. destruct seg as [sels desc]. simpl in Ha.
  rewrite EvalFacts.Segment_Apply_eq. unfold applySegment.
  destruct (len nodes =? 0); [split; [reflexivity|exact Hn]|].
  simpl IsDescendant. simpl Selectors. destruct desc.
  - assert (Happ : forall out n,
               JsonPath.appendSelectors ord out sels n root
               = out ++ JsonPath.appendSelectors ord [] sels n root)
      by (intros; apply TopLevelFacts.appendSelectors_appends).
    split.
    + apply TopLevelFacts.fold_left_ext_on.
      rewrite Forall_forall in *. intros n Hin acc.
      rewrite TopLevelFacts.appendDescendant_descend.
      unfold Ast.appendDescendant. simpl Selectors.
      apply descend_agree; [|exact (Hn n Hin)].
      intros out x Hx. apply appendSelectors_agree; [exact Hx|].
      apply Forall_forall. exact Ha.
    + rewrite (ListFacts.fold_left_appending
                 (fun out n =>
                    JsonPath.appendDescendant ord out
                      (mkSegment sels true) n root)).
      * simpl. apply Forall_flat_map. rewrite Forall_forall in *.
        intros n Hin. rewrite TopLevelFacts.appendDescendant_descend.
        apply descend_small; [exact Happ| |exact (Hn n Hin)].
        intros x Hx. now apply appendSelectors_small.
      * intros out x. rewrite !TopLevelFacts.appendDescendant_descend.
        apply AppendFacts.descend_appends. exact Happ.
  - split.
    + apply TopLevelFacts.fold_left_ext_on.
      rewrite Forall_forall in *. intros n Hin acc.
      apply appendSelectors_agree; [exact (Hn n Hin)|].
      apply Forall_forall. exact Ha.
    + rewrite (ListFacts.fold_left_appending
                 (fun out n => JsonPath.appendSelectors ord out sels n root)).
      * simpl. apply Forall_flat_map. rewrite Forall_forall in *.
        intros n Hin. apply appendSelectors_small. exact (Hn n Hin).
      * intros out x. apply TopLevelFacts.appendSelectors_appends.
Qed.

End Agreement.


(** [$.y[::-1]..[*]], which selects 2 from the nested document. *)
Definition reversed_members : PathQuery :=
  NewPathQuery true
    [Child [NameSelector "y"];
     Child [SliceSelector (mkSliceArgs 0 0 (-1) false false true)];
     Descendant [WildcardSelector]].


End EvalProps.

(* ================================================================== *)
(** * Normalized paths *)
(* ================================================================== *)

Module LocatedProps.

Import Ast JsonPath.

(** The value that a normalized path leads to from [v]: a name is the
    member of an object, an index the element of an array. *)
Fixpoint follow (path : NormalizedPath) (v : any) : option any :=
  match path with
  | [] => Some v
  | NameElement k :: rest =>
      match v with
      | Obj m =>
          match map_lookup k m with
          | Some c => follow rest c
          | None => None
          end
      | _ => None
      end
  | IndexElement i :: rest =>
      match v with
      | Arr l =>
          if (0 <=? i) && (i <? len l)
          then follow rest (nth (Z.to_nat i) l Nil)
          else None
      | _ => None
      end
  end.

(** The members of every object inside the value have different names,
    as the keys of a Go map have. *)
Fixpoint unique_keys (v : any) : Prop :=
  match v with
  | Arr l =>
      (fix all (l : list any) : Prop :=
         match l with
         | [] => True
         | x :: r => unique_keys x /\ all r
         end) l
  | Obj m =>
      NoDup (map fst m)
      /\ (fix all (m : list (string * any)) : Prop :=
            match m with
            | [] => True
            | kv :: r => unique_keys (snd kv) /\ all r
            end) m
  | _ => True
  end.

Lemma unique_keys_Arr (l : list any) :
  unique_keys (Arr l) <-> Forall unique_keys l.
Proof.
  simpl. split; intros H.
  - induction l as [|x l IH]; [constructor|].
    constructor; [apply H|apply IH, H].
  - induction H as [|x l Hx _ IH]; [exact I|split; assumption].
Qed.

Lemma unique_keys_Obj (m : list (string * any)) :
  unique_keys (Obj m)
  <-> NoDup (map fst m) /\ Forall (fun kv => unique_keys (snd kv)) m.
Proof.
  simpl. split; intros [H1 H]; (split; [exact H1|]); clear H1.
  - induction m as [|kv m IH]; [constructor|].
    constructor; [apply H|apply IH, H].
  - induction H as [|kv m Hx _ IH]; [exact I|split; assumption].
Qed.

Lemma follow_app (p q : NormalizedPath) :
  forall v,
    follow (p ++ q) v
    = match follow p v with
      | Some w => follow q w
      | None => None
      end.
Proof.
  induction p as [|e p IH]; intros v; simpl; [reflexivity|].
  destruct e as [k|i]; destruct v; try reflexivity.
  - destruct (map_lookup k m); [apply IH|reflexivity].
  - destruct ((0 <=? i) && (i <? len l)); [apply IH|reflexivity].
Qed.

Lemma lookup_member (m : list (string * any)) (k : string) (v : any) :
  NoDup (map fst m) -> In (k, v) m -> map_lookup k m = Some v.
Proof.
  induction m as [|[k' v'] m IH]; simpl; intros Hnd Hin; [contradiction|].
  inversion Hnd as [|? ? Hnotin Hnd']; subst.
  destruct (String.eqb_spec k' k) as [->|Hne].
  - destruct Hin as [Hin|Hin]; [now injection Hin as <-|].
    exfalso. apply Hnotin. apply in_map_iff. now exists (k, v).
  - destruct Hin as [Hin|Hin]; [injection Hin as <- _; congruence|].
    now apply IH.
Qed.

Lemma pick_In {A} (idxs : list nat) (l : list A) (x : A) :
  In x (pick idxs l) -> In x l.
Proof.
  unfold pick. intros H. apply in_flat_map in H.
  destruct H as (i & _ & Hi).
  destruct (nth_error l i) as [y|] eqn:E; [|contradiction].
  destruct Hi as [<-|[]]. eapply nth_error_In. exact E.
Qed.

Lemma indexed_In (l : list any) (i : Z) (x : any) :
  In (i, x) (indexed l) ->
  0 <= i < len l /\ nth (Z.to_nat i) l Nil = x.
Proof.
  unfold indexed, len.
  assert (G : forall (l : list any) (k : nat),
             In (i, x) (combine (map Z.of_nat (seq k (List.length l))) l) ->
             Z.of_nat k <= i < Z.of_nat k + Z.of_nat (List.length l)
             /\ nth (Z.to_nat i - k) l Nil = x).
  { clear l. induction l as [|y l IH]; intros k; simpl; [contradiction|].
    intros [H|H].
    - injection H as <- <-. split; [lia|].
      now replace (Z.to_nat (Z.of_nat k) - k)%nat with O by lia.
    - destruct (IH (S k) H) as [Hr Hn]. split; [lia|].
      replace (Z.to_nat i - k)%nat with (S (Z.to_nat i - S k)) by lia.
      exact Hn. }
  intros H. destruct (G l O H) as [Hr Hn]. split; [lia|].
  now rewrite Nat.sub_0_r in Hn.
Qed.

(** [n'] lies below [node], at the path of [node] followed by the path
    from [node] to it. *)
Definition below (node : any) (path : NormalizedPath) (n' : LocatedNode)
  : Prop :=
  exists suffix,
    Path_ n' = path ++ suffix
    /\ follow suffix node = Some (Value n')
    /\ unique_keys (Value n').

Lemma below_child (node child : any) (path : NormalizedPath)
      (e : PathElement) (n' : LocatedNode) :
  follow [e] node = Some child ->
  below child (extendPath path e) n' -> below node path n'.
Proof.
  intros He (suffix & Hp & Hf & Hu). exists (e :: suffix).
  unfold extendPath in Hp. rewrite <- app_assoc in Hp.
  split; [exact Hp|]. split; [|exact Hu].
  change (e :: suffix) with ([e] ++ suffix).
  now rewrite follow_app, He.
Qed.

Lemma below_self_child (node child : any) (path : NormalizedPath)
      (e : PathElement) :
  follow [e] node = Some child -> unique_keys child ->
  below node path (mkLocatedNode child (extendPath path e)).
Proof.
  intros He Hu. exists [e]. repeat split; assumption.
Qed.

Section Paths.

Variable ord : range_oracle.
Variable root : any.

Lemma appendSliceLocated_indices (out : list LocatedNode)
      (arr : list any) (path : NormalizedPath) (a : SliceArgs) :
  appendSliceLocated out arr path a
  = out ++ map (fun idx =>
                  mkLocatedNode (index_at arr idx)
                                (extendPath path (IndexElement idx)))
               (sliceIndices a (len arr)).
Proof.
  unfold appendSliceLocated. generalize (sliceIndices a (len arr)) as idxs.
  intros idxs. revert out.
  induction idxs as [|i idxs IH]; intros out; simpl.
  - now rewrite app_nil_r.
  - rewrite IH. now rewrite <- app_assoc.
Qed.

Lemma follow_index (arr : list any) (i : Z) :
  0 <= i < len arr ->
  follow [IndexElement i] (Arr arr) = Some (index_at arr i).
Proof.
  intros H. simpl. unfold index_at.
  destruct (Z.leb_spec 0 i); [|lia].
  destruct (Z.ltb_spec i (len arr)); [|lia].
  destruct (Z.ltb_spec i 0); [lia|]. reflexivity.
Qed.

Lemma index_at_unique (arr : list any) (i : Z) :
  Forall unique_keys arr -> unique_keys (index_at arr i).
Proof.
  intros H. unfold index_at. destruct (i <? 0); [exact I|].
  destruct (Nat.lt_ge_cases (Z.to_nat i) (List.length arr)) as [Hlt|Hge].
  - rewrite Forall_forall in H. apply H. now apply nth_In.
  - now rewrite nth_overflow.
Qed.

(** The nodes that a selector appends lie below the node it is applied
    to, one step down. *)
Lemma appendSelectorLocated_below (P : LocatedNode -> Prop)
      (sel : Selector) (node : any) (path : NormalizedPath)
      (out : list LocatedNode) :
  unique_keys node ->
  (forall n', below node path n' -> P n') ->
  Forall P out ->
  Forall P (appendSelectorLocated ord out sel node path root).
Proof.
  intros Hu HP Hout. destruct sel as [name|i|a| |f].
  - destruct node; simpl; try exact Hout.
    destruct (map_lookup name m) as [v|] eqn:E; [|exact Hout].
    apply Forall_app. split; [exact Hout|]. constructor; [|constructor].
    apply HP. apply below_self_child; [simpl; now rewrite E|].
    apply unique_keys_Obj in Hu. destruct Hu as [_ Hu].
    rewrite Forall_forall in Hu.
    exact (Hu _ (EvalProps.map_lookup_In _ _ _ E)).
  - destruct node; simpl; try exact Hout.
    destruct (Z.geb_spec (normalizeIndex i (len l)) 0) as [H1|H1];
      [|exact Hout].
    destruct (Z.ltb_spec (normalizeIndex i (len l)) (len l)) as [H2|H2];
      [|exact Hout].
    simpl. apply Forall_app. split; [exact Hout|].
    constructor; [|constructor].
    apply HP. apply below_self_child; [apply follow_index; lia|].
    apply index_at_unique. now apply unique_keys_Arr.
  - destruct node; simpl; try exact Hout.
    rewrite appendSliceLocated_indices.
    apply Forall_app. split; [exact Hout|].
    apply Forall_map.
    pose proof (SliceProps.sliceIndices_in_range a (len l)) as Hr.
    revert Hr. apply Forall_impl. intros idx Hidx.
    apply HP. apply below_self_child; [now apply follow_index|].
    apply index_at_unique. now apply unique_keys_Arr.
  - destruct node; simpl; try exact Hout.
    + apply Forall_app. split; [exact Hout|].
      apply Forall_map. apply Forall_forall. intros [i x] Hin.
      destruct (indexed_In _ _ _ Hin) as [Hr Hn]. simpl.
      apply HP. apply below_self_child.
      * simpl. destruct (Z.leb_spec 0 i); [|lia].
        destruct (Z.ltb_spec i (len l)); [|lia]. simpl. now rewrite Hn.
      * apply unique_keys_Arr in Hu. rewrite Forall_forall in Hu.
        apply Hu. unfold indexed in Hin. eapply in_combine_r. exact Hin.
    + apply Forall_app. split; [exact Hout|].
      apply Forall_map. apply Forall_forall. intros [k v] Hin.
      apply pick_In in Hin. simpl.
      apply unique_keys_Obj in Hu. destruct Hu as [Hnd Hu].
      apply HP. apply below_self_child.
      * simpl. now rewrite (lookup_member m k v Hnd Hin).
      * rewrite Forall_forall in Hu. exact (Hu _ Hin).
  - destruct node; simpl; try exact Hout.
    + apply Forall_app. split; [exact Hout|].
      apply Forall_map. apply Forall_forall. intros [i x] Hin.
      apply filter_In in Hin. destruct Hin as [Hin _].
      destruct (indexed_In _ _ _ Hin) as [Hr Hn]. simpl.
      apply HP. apply below_self_child.
      * simpl. destruct (Z.leb_spec 0 i); [|lia].
        destruct (Z.ltb_spec i (len l)); [|lia]. simpl. now rewrite Hn.
      * apply unique_keys_Arr in Hu. rewrite Forall_forall in Hu.
        apply Hu. unfold indexed in Hin. eapply in_combine_r. exact Hin.
    + apply Forall_app. split; [exact Hout|].
      apply Forall_map. apply Forall_forall. intros [k v] Hin.
      apply filter_In in Hin. destruct Hin as [Hin _].
      apply pick_In in Hin. simpl.
      apply unique_keys_Obj in Hu. destruct Hu as [Hnd Hu].
      apply HP. apply below_self_child.
      * simpl. now rewrite (lookup_member m k v Hnd Hin).
      * rewrite Forall_forall in Hu. exact (Hu _ Hin).
Qed.

Lemma appendSelectorsLocated_below (P : LocatedNode -> Prop)
      (sels : list Selector) (node : any) (path : NormalizedPath) :
  unique_keys node ->
  (forall n', below node path n' -> P n') ->
  forall out,
    Forall P out ->
    Forall P (appendSelectorsLocated ord out sels node path root).
Proof.
  intros Hu HP. unfold appendSelectorsLocated.
  induction sels as [|s sels IH]; intros out Hout; simpl; [exact Hout|].
  apply IH. now apply appendSelectorLocated_below.
Qed.

Lemma follow_nth (pre rest : list any) (child : any) :
  follow [IndexElement (len pre)] (Arr (pre ++ child :: rest)) = Some child.
Proof.
  simpl. unfold len. rewrite length_app. simpl.
  destruct (Z.leb_spec 0 (Z.of_nat (List.length pre))); [|lia].
  destruct (Z.ltb_spec (Z.of_nat (List.length pre))
                       (Z.of_nat (List.length pre + S (List.length rest))));
    [|lia].
  simpl. rewrite Nat2Z.id. rewrite app_nth2; [|lia].
  now rewrite Nat.sub_diag.
Qed.

(** The nodes that a descendant segment appends lie below the node it
    is applied to, at any depth. *)
Lemma appendDescendantLocated_below (P : LocatedNode -> Prop)
      (seg : Segment) (node : any) :
  unique_keys node ->
  forall (path : NormalizedPath) (out : list LocatedNode),
    (forall n', below node path n' -> P n') ->
    Forall P out ->
    Forall P (appendDescendantLocated ord out seg node path root).
Proof.
  revert P.
  induction node as [| | | | | | |l IH|m IH] using any_ind';
    intros P Hu path out HP Hout; simpl;
    try (now apply appendSelectorsLocated_below).
  - pose proof (appendSelectorsLocated_below P (Selectors seg) (Arr l) path
                  Hu HP out Hout) as Hout0.
    revert Hout0.
    generalize (appendSelectorsLocated ord out (Selectors seg) (Arr l)
                                       path root) as out0.
    apply unique_keys_Arr in Hu.
    assert (G : forall (children pre : list any) (out0 : list LocatedNode),
               l = pre ++ children ->
               Forall P out0 ->
               Forall P
                 ((fix each (children : list any) (idx : Z)
                       (out : list LocatedNode) {struct children}
                     : list LocatedNode :=
                     match children with
                     | [] => out
                     | child :: rest =>
                         each rest (idx + 1)
                              (appendDescendantLocated ord out seg child
                                 (extendPath path (IndexElement idx)) root)
                     end) children (len pre) out0)).
    { induction children as [|child rest IHc]; intros pre out0 Hl Hout0;
        [exact Hout0|].
      replace (len pre + 1) with (len (pre ++ [child]))
        by (unfold len; rewrite length_app; simpl; lia).
      apply IHc; [now rewrite <- app_assoc|].
      assert (Hin : In child l) by (subst l; apply in_elt).
      rewrite Forall_forall in IH, Hu.
      apply (IH child Hin P (Hu child Hin)); [|exact Hout0].
      intros n' Hn'. apply HP.
      apply (below_child (Arr l) child path (IndexElement (len pre)));
        [|exact Hn'].
      subst l. apply follow_nth. }
    intros out0 Hout0. exact (G l [] out0 eq_refl Hout0).
  - apply Forall_app. split; [now apply appendSelectorsLocated_below|].
    apply Forall_concat. apply EvalProps.Forall_pick.
    apply Forall_map. apply Forall_forall. intros [k v] Hin.
    pose proof Hu as Hu'.
    apply unique_keys_Obj in Hu'. destruct Hu' as [Hnd Hall].
    rewrite Forall_forall in IH, Hall. simpl.
    apply (IH (k, v) Hin P (Hall _ Hin)); [|constructor].
    intros n' Hn'. apply HP.
    apply (below_child (Obj m) v path (NameElement k)); [|exact Hn'].
    simpl. now rewrite (lookup_member m k v Hnd Hin).
Qed.

(** A located node whose path leads from the input to its value. *)
Definition located_in (input : any) (n : LocatedNode) : Prop :=
  follow (Path_ n) input = Some (Value n) /\ unique_keys (Value n).

Lemma located_in_below (input : any) (n n' : LocatedNode) :
  located_in input n -> below (Value n) (Path_ n) n' -> located_in input n'.
Proof.
  intros [Hf _] (suffix & Hp & Hs & Hu). split; [|exact Hu].
  now rewrite Hp, follow_app, Hf.
Qed.

Lemma applySegmentLocated_located (input : any) (seg : Segment)
      (nodes : list LocatedNode) :
  Forall (located_in input) nodes ->
  Forall (located_in input) (applySegmentLocated ord seg nodes root).
Proof.
  intros Hn. unfold applySegmentLocated.
  destruct (len nodes =? 0); [exact Hn|].
  assert (G : forall (f : list LocatedNode -> LocatedNode -> list LocatedNode),
             (forall out n, located_in input n ->
                            Forall (located_in input) out ->
                            Forall (located_in input) (f out n)) ->
             forall out, Forall (located_in input) out ->
                         Forall (located_in input) (fold_left f nodes out)).
  { intros f Hf. induction Hn as [|n nodes Hn0 _ IHn]; intros out Hout;
      simpl; [exact Hout|].
    apply IHn. now apply Hf. }
  destruct (IsDescendant seg); apply G; try constructor;
    intros out n Hloc Hout.
  - apply appendDescendantLocated_below; [apply Hloc| |exact Hout].
    intros n'. now apply located_in_below.
  - apply appendSelectorsLocated_below; [apply Hloc| |exact Hout].
    intros n'. now apply located_in_below.
Qed.

End Paths.

(** X11: on a document whose objects have no two members of the same
    name, the normalized path of every node that [SelectLocated]
    returns leads from the query argument to the value of that node:
    each name is a member of the object reached so far, each index is
    a position between zero and the length of the array reached so
    far. *)
Theorem located_paths_lead_to_values (ord : range_oracle) (q : PathQuery)
        (input : any) :
  unique_keys input ->
  Forall (fun n => follow (Path_ n) input = Some (Value n))
         (selectLocatedNodes ord q input).
Proof.
  intros Hu.
  assert (G : Forall (located_in input) (selectLocatedNodes ord q input)).
  { unfold selectLocatedNodes.
    assert (H0 : Forall (located_in input) [mkLocatedNode input []]).
    { constructor; [|constructor]. split; [reflexivity|exact Hu]. }
    revert H0. generalize [mkLocatedNode input []] as res.
    induction (Segments q) as [|seg segs IH]; intros res Hres; simpl;
      [exact Hres|].
    apply IH. now apply applySegmentLocated_located. }
  revert G. apply Forall_impl. intros n [Hf _]. exact Hf.
Qed.

Lemma located_paths_lead_to_values_witness :
  unique_keys TopLevelFacts.nested_doc
  /\ Forall (fun n => follow (Path_ n) TopLevelFacts.nested_doc
                      = Some (Value n))
            (selectLocatedNodes in_order EvalProps.reversed_members
                                TopLevelFacts.nested_doc).
Proof.
  assert (Hu : unique_keys TopLevelFacts.nested_doc).
  { cbv. repeat split; repeat constructor; simpl; intuition discriminate. }
  split; [exact Hu|].
  exact (located_paths_lead_to_values in_order EvalProps.reversed_members
           TopLevelFacts.nested_doc Hu).
Defined.

End LocatedProps.

(* ================================================================== *)
(** * The descendant segment reaches every value *)
(* ================================================================== *)

Module DescendantProps.

Import Ast JsonPath LocatedProps.

(** [$..[*]]. *)
Definition everything : PathQuery :=
  NewPathQuery true [Descendant [WildcardSelector]].

Definition wild : Segment := Descendant [WildcardSelector].

Lemma indexed_has (l : list any) (i : nat) :
  (i < List.length l)%nat -> In (Z.of_nat i, nth i l Nil) (indexed l).
Proof.
  intros Hi. unfold indexed.
  assert (G : forall (l : list any) (k i : nat),
             (i < List.length l)%nat ->
             In (Z.of_nat (k + i), nth i l Nil)
                (combine (map Z.of_nat (seq k (List.length l))) l)).
  { clear. induction l as [|x l IH]; intros k i Hi; simpl in *; [lia|].
    destruct i as [|i].
    - left. now rewrite Nat.add_0_r.
    - right. replace (k + S i)%nat with (S k + i)%nat by lia.
      apply IH. lia. }
  exact (G l O i Hi).
Qed.

Section Reach.

Variable ord : range_oracle.
Hypothesis Hord : oracle_ok ord.
Variable root : any.

Lemma ranged_has (m : list (string * any)) (kv : string * any) :
  In kv m -> In kv (ranged ord m).
Proof.
  intros H. eapply Permutation_in; [|exact H].
  apply Permutation_sym. now apply ListFacts.ranged_perm.
Qed.

Lemma pick_has {A} (m : list (string * any)) (l : list A) (x : A) :
  List.length l = List.length m -> In x l -> In x (pick (ord m) l).
Proof.
  intros Hlen H. eapply Permutation_in; [|exact H].
  apply Permutation_sym. apply ListFacts.pick_perm. rewrite Hlen. apply Hord.
Qed.

Lemma appendSelectorLocated_keeps (sel : Selector) (node : any)
      (path : NormalizedPath) (out : list LocatedNode) (x : LocatedNode) :
  In x out -> In x (appendSelectorLocated ord out sel node path root).
Proof.
  intros H. destruct sel; destruct node; simpl; try exact H;
    try (apply in_or_app; now left).
  - destruct (map_lookup name m); [apply in_or_app; now left|exact H].
  - destruct (_ && _); [apply in_or_app; now left|exact H].
  - rewrite appendSliceLocated_indices. apply in_or_app. now left.
Qed.

Lemma appendSelectorsLocated_keeps (sels : list Selector) (node : any)
      (path : NormalizedPath) (x : LocatedNode) :
  forall out,
    In x out -> In x (appendSelectorsLocated ord out sels node path root).
Proof.
  unfold appendSelectorsLocated.
  induction sels as [|s sels IH]; intros out H; simpl; [exact H|].
  apply IH. now apply appendSelectorLocated_keeps.
Qed.

(** The loop of [appendDescendantLocated] over the elements of an
    array. *)
Definition each (seg : Segment) (path : NormalizedPath) :=
  fix each (children : list any) (idx : Z) (out : list LocatedNode)
      {struct children} : list LocatedNode :=
    match children with
    | [] => out
    | child :: rest =>
        each rest (idx + 1)
             (appendDescendantLocated ord out seg child
                (extendPath path (IndexElement idx)) root)
    end.

Lemma appendDescendantLocated_keeps (seg : Segment) (x : LocatedNode)
      (node : any) :
  forall (path : NormalizedPath) (out : list LocatedNode),
    In x out -> In x (appendDescendantLocated ord out seg node path root).
Proof.
  induction node as [| | | | | | |l IH|m IH] using any_ind';
    intros path out H; simpl;
    try (now apply appendSelectorsLocated_keeps).
  - pose proof (appendSelectorsLocated_keeps (Selectors seg) (Arr l) path x
                  out H) as H0.
    revert H0.
    generalize (appendSelectorsLocated ord out (Selectors seg) (Arr l)
                                       path root) as out0.
    generalize 0 as idx.
    induction IH as [|child rest Hchild _ IHrest]; intros idx out0 H0;
      simpl; [exact H0|].
    apply IHrest. now apply Hchild.
  - apply in_or_app. left. now apply appendSelectorsLocated_keeps.
Qed.

Lemma each_keeps (seg : Segment) (path : NormalizedPath) (x : LocatedNode)
      (children : list any) :
  forall idx out, In x out -> In x (each seg path children idx out).
Proof.
  induction children as [|c rest IH]; intros idx out H; simpl; [exact H|].
  apply IH. now apply appendDescendantLocated_keeps.
Qed.

Lemma each_has (seg : Segment) (path : NormalizedPath) (x : LocatedNode)
      (children : list any) :
  forall (j : nat) (idx : Z) (out : list LocatedNode),
    (j < List.length children)%nat ->
    (forall out,
        In x (appendDescendantLocated ord out seg (nth j children Nil)
                (extendPath path (IndexElement (idx + Z.of_nat j))) root)) ->
    In x (each seg path children idx out).
Proof.
  induction children as [|c rest IH]; intros j idx out Hj Hx; simpl in *;
    [lia|].
  destruct j as [|j].
  - apply each_keeps. rewrite Z.add_0_r in Hx. apply Hx.
  - apply (IH j); [lia|]. intros out'.
    replace (idx + 1 + Z.of_nat j) with (idx + Z.of_nat (S j)) by lia.
    apply Hx.
Qed.

(** Every value below [node] is appended by [..[*]], with the path that
    leads to it. *)
Lemma appendDescendantLocated_reaches (v : any) (p : NormalizedPath) :
  forall (node : any) (path : NormalizedPath) (out : list LocatedNode),
    p <> [] ->
    follow p node = Some v ->
    In (mkLocatedNode v (path ++ p))
       (appendDescendantLocated ord out wild node path root).
Proof.
  induction p as [|e rest IH]; intros node path out Hne Hf;
    [congruence|].
  destruct e as [k|i]; destruct node; simpl in Hf; try discriminate.
  - (* a member of an object *)
    destruct (map_lookup k m) as [c|] eqn:Hk; [|discriminate].
    pose proof (EvalProps.map_lookup_In _ _ _ Hk) as Hin.
    simpl. apply in_or_app.
    destruct rest as [|e' rest'].
    + left. injection Hf as <-. apply in_or_app. right.
      apply in_map_iff. exists (k, c). split; [reflexivity|].
      now apply ranged_has.
    + right. apply in_concat.
      eexists. split.
      * apply pick_has; [now rewrite length_map|].
        apply in_map_iff. exists (k, c). split; [reflexivity|exact Hin].
      * simpl. unfold extendPath.
        replace (path ++ NameElement k :: e' :: rest')
          with ((path ++ [NameElement k]) ++ e' :: rest')
          by now rewrite <- app_assoc.
        apply IH; [discriminate|exact Hf].
  - (* an element of an array *)
    destruct (Z.leb_spec 0 i) as [H0|]; [|discriminate].
    destruct (Z.ltb_spec i (len l)) as [H1|]; [|discriminate].
    simpl in Hf. unfold len in H1.
    change (appendDescendantLocated ord out wild (Arr l) path root)
      with (each wild path l 0
              (appendSelectorsLocated ord out (Selectors wild) (Arr l)
                                      path root)).
    destruct rest as [|e' rest'].
    + apply each_keeps. injection Hf as <-. simpl.
      apply in_or_app. right.
      apply in_map_iff. exists (i, nth (Z.to_nat i) l Nil).
      split; [reflexivity|].
      rewrite <- (Z2Nat.id i) at 1 by lia. apply indexed_has. lia.
    + apply (each_has wild path _ l (Z.to_nat i)); [lia|].
      intros out'. rewrite Z.add_0_l, Z2Nat.id by lia.
      unfold extendPath.
      replace (path ++ IndexElement i :: e' :: rest')
        with ((path ++ [IndexElement i]) ++ e' :: rest')
        by now rewrite <- app_assoc.
      apply IH; [discriminate|exact Hf].
Qed.

End Reach.

(** X12: the query [$..[*]] returns every value inside the query
    argument: whatever a non-empty path of member names and array
    positions leads to is among the located nodes of the result, with
    that path as its normalized path, and so among the values that
    [Select] returns. *)
Theorem descendant_wildcard_reaches_every_value (ord : range_oracle)
        (input v : any) (p : NormalizedPath) :
  oracle_ok ord ->
  p <> [] ->
  follow p input = Some v ->
  In (mkLocatedNode v p) (selectLocatedNodes ord everything input)
  /\ In v (selectNodes ord everything input).
Proof.
  intros Hord Hne Hf.
  assert (H : In (mkLocatedNode v p)
                 (selectLocatedNodes ord everything input)).
  { unfold selectLocatedNodes, everything. simpl.
    unfold applySegmentLocated. simpl.
    change p with ([] ++ p) at 1.
    now apply appendDescendantLocated_reaches. }
  split; [exact H|].
  rewrite <- LocatedFacts.selectLocatedNodes_values.
  apply in_map_iff. exists (mkLocatedNode v p). split; [reflexivity|exact H].
Qed.

Lemma descendant_wildcard_reaches_every_value_witness :
  In (mkLocatedNode (Int 2) [NameElement "y"; IndexElement 0; NameElement "a"])
     (selectLocatedNodes in_order everything TopLevelFacts.nested_doc)
  /\ In (Int 2) (selectNodes in_order everything TopLevelFacts.nested_doc).
Proof.
  apply (descendant_wildcard_reaches_every_value in_order
           TopLevelFacts.nested_doc (Int 2)
           [NameElement "y"; IndexElement 0; NameElement "a"]).
  - exact TopLevelFacts.in_order_ok.
  - discriminate.
  - reflexivity.
Defined.

End DescendantProps.

(* ================================================================== *)
(** * Laws of the comparison helpers *)
(* ================================================================== *)

Module CompareProps.

Import Ast LocatedProps.

(** The loop of [equalTo] over two arrays of the same length. *)
Definition all2 (R : any -> any -> bool) : list any -> list any -> bool :=
  fix each (xs ys : list any) {struct xs} : bool :=
    match xs, ys with
    | x :: xs', y :: ys' => if negb (R x y) then false else each xs' ys'
    | _, _ => true
    end.

(** The loop of [equalTo] over the members of an object. *)
Definition members (R : any -> any -> bool) (bObj : list (string * any))
  : list (string * any) -> bool :=
  fix each (kvs : list (string * any)) {struct kvs} : bool :=
    match kvs with
    | [] => true
    | (k, v) :: kvs' =>
        match map_lookup k bObj with
        | Some bv => if negb (R v bv) then false else each kvs'
        | None => false
        end
    end.

Lemma equalTo_Arr (xs ys : list any) :
  equalTo (Arr xs) (Arr ys)
  = if negb (len xs =? len ys) then false else all2 equalTo xs ys.
Proof. reflexivity. Qed.

Lemma equalTo_Obj (a b : list (string * any)) :
  equalTo (Obj a) (Obj b)
  = if negb (len a =? len b) then false else members equalTo b a.
Proof. reflexivity. Qed.

Lemma SFcompare_antisym (x y : spec_float) :
  SFcompare y x = option_map CompOpp (SFcompare x y).
Proof.
  destruct x as [[|]| [|] | |[|] m1 e1], y as [[|]| [|] | |[|] m2 e2];
    simpl; try reflexivity;
    rewrite (Z.compare_antisym e1 e2);
    destruct (e1 ?= e2); simpl; try reflexivity;
    rewrite (Pos.compare_cont_antisym m1 m2 Eq); simpl;
    try rewrite CompOpp_involutive; reflexivity.
Qed.

Lemma SFeqb_sym (x y : spec_float) : SFeqb x y = SFeqb y x.
Proof.
  unfold SFeqb. rewrite (SFcompare_antisym x y).
  now destruct (SFcompare x y) as [[| |]|].
Qed.

Lemma bool_eqb_sym (x y : bool) : Bool.eqb x y = Bool.eqb y x.
Proof. now destruct x, y. Qed.

Lemma iface_eq_sym (a b : any) : iface_eq a b = iface_eq b a.
Proof.
  destruct a, b; simpl; try reflexivity.
  - apply bool_eqb_sym.
  - apply Z.eqb_sym.
  - apply SFeqb_sym.
  - apply String.eqb_sym.
Qed.

Lemma all2_sym (R : any -> any -> bool) (xs : list any) :
  Forall (fun x => forall y, unique_keys y -> R x y = R y x) xs ->
  forall ys, Forall unique_keys ys -> all2 R xs ys = all2 R ys xs.
Proof.
  induction 1 as [|x xs Hx _ IH]; intros ys Hys.
  - now destruct ys.
  - destruct ys as [|y ys]; [reflexivity|]. simpl.
    inversion Hys as [|? ? Hy Hys']; subst.
    rewrite (Hx y Hy). now rewrite (IH ys Hys').
Qed.

Lemma members_true (R : any -> any -> bool) (b a : list (string * any)) :
  members R b a = true
  <-> (forall k v, In (k, v) a ->
                   exists bv, map_lookup k b = Some bv /\ R v bv = true).
Proof.
  induction a as [|[k v] a IH]; simpl.
  - split; [intros _ k v []|reflexivity].
  - destruct (map_lookup k b) as [bv|] eqn:Hk.
    + destruct (R v bv) eqn:HR; simpl.
      * rewrite IH. split.
        -- intros H k' v' [Heq|Hin]; [|now apply H].
           injection Heq as <- <-. now exists bv.
        -- intros H k' v' Hin. apply H. now right.
      * split; [discriminate|]. intros H.
        destruct (H k v (or_introl eq_refl)) as (bv' & Hl & HR').
        congruence.
    + split; [discriminate|]. intros H.
      destruct (H k v (or_introl eq_refl)) as (bv' & Hl & _). congruence.
Qed.

(** Two objects with as many members, one inside the other member by
    member: then also the other way round. *)
Lemma members_sym (R R' : any -> any -> bool) (a b : list (string * any)) :
  NoDup (map fst a) -> NoDup (map fst b) ->
  List.length a = List.length b ->
  (forall k v bv, In (k, v) a -> In (k, bv) b -> R v bv = R' bv v) ->
  members R b a = true -> members R' a b = true.
Proof.
  intros Ha Hb Hlen HR H. rewrite members_true in *.
  assert (Hincl : incl (map fst b) (map fst a)).
  { apply NoDup_length_incl; [exact Ha|now rewrite !length_map, Hlen|].
    intros k Hk. apply in_map_iff in Hk. destruct Hk as ([k' v] & <- & Hin).
    destruct (H k' v Hin) as (bv & Hl & _).
    apply in_map_iff. exists (k', bv).
    split; [reflexivity|]. exact (EvalProps.map_lookup_In _ _ _ Hl). }
  intros k bv Hin.
  assert (Hk : In k (map fst a)).
  { apply Hincl. apply in_map_iff. now exists (k, bv). }
  apply in_map_iff in Hk. destruct Hk as ([k' v] & Hk' & Hina).
  simpl in Hk'. subst k'.
  exists v. split; [now apply lookup_member|].
  destruct (H k v Hina) as (bv' & Hl & HR').
  rewrite (lookup_member b k bv Hb Hin) in Hl. injection Hl as <-.
  now rewrite <- (HR k v bv Hina Hin).
Qed.

Lemma equalTo_sym (a : any) :
  forall o, unique_keys a -> unique_keys o -> equalTo a o = equalTo o a.
Proof.
  induction a as [| | | | | | |l IH|m IH] using any_ind';
    intros o Ha Hb.
  1-7: destruct o; simpl; try reflexivity;
    try apply SFeqb_sym; try apply bool_eqb_sym; try apply String.eqb_sym.
  - destruct o as [| | | | | | |l'|m']; try reflexivity.
    rewrite !equalTo_Arr. rewrite (Z.eqb_sym (len l') (len l)).
    destruct (len l =? len l'); [|reflexivity]. simpl.
    apply unique_keys_Arr in Ha, Hb.
    apply all2_sym; [|exact Hb].
    rewrite Forall_forall in *. intros x Hx y Hy.
    exact (IH x Hx y (Ha x Hx) Hy).
  - destruct o as [| | | | | | |l'|m']; try reflexivity.
    rewrite !equalTo_Obj. rewrite (Z.eqb_sym (len m') (len m)).
    destruct (Z.eqb_spec (len m) (len m')) as [Hlen|]; [|reflexivity].
    simpl. unfold len in Hlen. apply Nat2Z.inj in Hlen.
    apply unique_keys_Obj in Ha, Hb.
    destruct Ha as [Hnd Ha], Hb as [Hnd' Hb].
    rewrite Forall_forall in *.
    assert (HR : forall k v bv, In (k, v) m -> In (k, bv) m' ->
                                equalTo v bv = equalTo bv v).
    { intros k v bv Hv Hbv.
      exact (IH (k, v) Hv bv (Ha _ Hv) (Hb _ Hbv)). }
    destruct (members equalTo m' m) eqn:E1;
      destruct (members equalTo m m') eqn:E2; try reflexivity.
    + rewrite (members_sym equalTo equalTo m m' Hnd Hnd' Hlen HR E1) in E2.
      discriminate.
    + rewrite (members_sym equalTo equalTo m' m Hnd' Hnd (eq_sym Hlen)) in E1;
        [discriminate| |exact E2].
      intros k bv v Hbv Hv. symmetry. now apply (HR k v bv).
Qed.

(** X13: [==] and [!=] do not depend on the side an operand is written
    on: for values whose objects have no two members of the same name,
    [equalTo(a, b)] and [equalTo(b, a)] agree, through the coercion of
    numbers and the deep comparison of arrays and objects. *)
Theorem equality_is_symmetric (a b : any) :
  unique_keys a -> unique_keys b ->
  compare_by Equal a b = compare_by Equal b a
  /\ compare_by NotEqual a b = compare_by NotEqual b a.
Proof.
  intros Ha Hb. simpl. now rewrite (equalTo_sym a b Ha Hb).
Qed.

Definition left_doc : any :=
  Obj [("a", Int 1); ("b", Arr [Str "x"; JSONNull])].

Definition right_doc : any :=
  Obj [("b", Arr [Str "x"; Nil]); ("a", Float (S754_finite false 1 0))].

Lemma equality_is_symmetric_witness :
  compare_by Equal left_doc right_doc = compare_by Equal right_doc left_doc
  /\ compare_by NotEqual left_doc right_doc
     = compare_by NotEqual right_doc left_doc.
Proof.
  apply (equality_is_symmetric left_doc right_doc).
  - cbv. repeat split; repeat constructor; simpl; intuition discriminate.
  - cbv. repeat split; repeat constructor; simpl; intuition discriminate.
Defined.

(** Two operands that the ordering operators order: two strings, or
    two numbers neither of which is a NaN. *)
Definition ordered (a b : any) : Prop :=
  match a, b with
  | Str _, Str _ => True
  | _, _ =>
      isNumeric a = true /\ isNumeric b = true
      /\ toFloat64 a <> S754_nan /\ toFloat64 b <> S754_nan
  end.

(** The outcome of the three-way comparison behind [<] and [==]. *)
Definition three_way (a b : any) : option comparison :=
  match a, b with
  | Str s, Str t => Some (String.compare s t)
  | _, _ => SFcompare (toFloat64 a) (toFloat64 b)
  end.

Lemma string_eqb_compare (s t : string) :
  (s =? t)%string
  = match String.compare s t with Eq => true | _ => false end.
Proof.
  destruct (String.eqb_spec s t) as [->|Hne].
  - pose proof (String.compare_antisym t t) as H.
    destruct (String.compare t t); [reflexivity|discriminate|discriminate].
  - destruct (String.compare s t) eqn:E; try reflexivity.
    apply String.compare_eq_iff in E. contradiction.
Qed.

Lemma ordered_three_way (a b : any) :
  ordered a b ->
  exists c,
    three_way a b = Some c
    /\ three_way b a = Some (CompOpp c)
    /\ sameType a b = true /\ sameType b a = true
    /\ lessThan a b = match c with Lt => true | _ => false end
    /\ lessThan b a = match c with Gt => true | _ => false end
    /\ equalTo a b = match c with Eq => true | _ => false end
    /\ equalTo b a = match c with Eq => true | _ => false end.
Proof.
  intros H.
  assert (Hnum : forall x y : spec_float,
             x <> S754_nan -> y <> S754_nan ->
             exists c, SFcompare x y = Some c
                       /\ SFcompare y x = Some (CompOpp c)).
  { intros x y Hx Hy. rewrite (SFcompare_antisym x y).
    destruct (SFcompare x y) as [c|] eqn:E; [now exists c|].
    destruct x as [[|]| [|] | |[|] m1 e1], y as [[|]| [|] | |[|] m2 e2];
      simpl in E; congruence. }
  destruct a as [| | |x|x|x|s|l|m], b as [| | |y|y|y|t|l'|m'];
    unfold ordered in H; cbn [isNumeric] in H;
    try (destruct H as (H1 & H2 & _); discriminate);
    try (destruct H as (_ & _ & Hx & Hy);
         destruct (Hnum _ _ Hx Hy) as (c & E1 & E2);
         exists c; unfold lessThan, sameType, SFltb, SFeqb;
         cbn [three_way equalTo isNothing isJSONNull isNil isNumeric
              orb andb negb];
         unfold SFeqb; rewrite E1, E2; destruct c; repeat split;
         reflexivity).
  exists (String.compare s t).
  unfold three_way, lessThan, sameType.
  cbn [equalTo isNothing isJSONNull isNil isNumeric isArr isObj iface_eq
       orb andb negb].
  unfold String.ltb. rewrite !string_eqb_compare.
  rewrite (String.compare_antisym t s).
  destruct (String.compare s t); repeat split; reflexivity.
Qed.

(** X14: on two strings, and on two numbers neither of which is a NaN,
    the ordering operators of a filter are converses of each other:
    [a > b] holds exactly when [b < a] does and [a >= b] exactly when
    [b <= a] does; [a <= b] is the negation of [a > b], and exactly one
    of [a < b], [a == b] and [a > b] holds. *)
Theorem ordering_operators_are_converses (a b : any) :
  ordered a b ->
  compare_by Greater a b = compare_by Less b a
  /\ compare_by GreaterEqual a b = compare_by LessEqual b a
  /\ compare_by LessEqual a b = negb (compare_by Greater a b)
  /\ (compare_by Less a b = true /\ compare_by Equal a b = false
      /\ compare_by Greater a b = false
      \/ compare_by Less a b = false /\ compare_by Equal a b = true
         /\ compare_by Greater a b = false
      \/ compare_by Less a b = false /\ compare_by Equal a b = false
         /\ compare_by Greater a b = true).
Proof.
  intros H.
  destruct (ordered_three_way a b H)
    as (c & _ & _ & Hs & Hs' & Hl & Hl' & He & He').
  unfold compare_by. rewrite Hs, Hs', Hl, Hl', He, He'.
  destruct c; simpl; repeat split; auto.
Qed.

Lemma ordering_operators_are_converses_witness :
  compare_by Greater (Int 3) (Float (S754_finite false 5 (-1)))
  = compare_by Less (Float (S754_finite false 5 (-1))) (Int 3)
  /\ compare_by GreaterEqual (Str "b") (Str "ab")
     = compare_by LessEqual (Str "ab") (Str "b").
Proof.
  split.
  - apply (ordering_operators_are_converses
             (Int 3) (Float (S754_finite false 5 (-1)))).
    cbv. repeat split; discriminate.
  - apply (ordering_operators_are_converses (Str "b") (Str "ab")).
    exact I.
Defined.

End CompareProps.

(* ================================================================== *)
(** * Values without children *)
(* ================================================================== *)

Module ScalarProps.

Import Ast JsonPath.

(** Arrays and objects; every other value has no children. *)
Definition structured (v : any) : bool :=
  match v with
  | Arr _ | Obj _ => true
  | _ => false
  end.

Section Scalars.

Variable ord : range_oracle.
Variable root : any.

Lemma appendSelectors_scalar (sels : list Selector) (node : any) :
  structured node = false ->
  forall out, JsonPath.appendSelectors ord out sels node root = out.
Proof.
  intros Hn. unfold JsonPath.appendSelectors.
  induction sels as [|s sels IH]; intros out; simpl; [reflexivity|].
  rewrite <- (IH out) at 2. f_equal.
  destruct s, node; try discriminate; reflexivity.
Qed.

Lemma Selector_Apply_scalar (sels : list Selector) (node : any) :
  structured node = false ->
  forall out, Ast.appendSelectors ord out sels node root = out.
Proof.
  intros Hn. unfold Ast.appendSelectors.
  induction sels as [|s sels IH]; intros out; simpl; [reflexivity|].
  rewrite <- (IH out) at 2. f_equal.
  destruct s, node; try discriminate; reflexivity.
Qed.

Lemma applySegment_scalar (seg : Segment) (node : any) :
  structured node = false ->
  applySegment ord seg [node] root = []
  /\ Segment_Apply ord seg [node] root = [].
Proof.
  intros Hn. destruct seg as [sels desc].
  rewrite EvalFacts.Segment_Apply_eq. unfold applySegment.
  simpl. destruct desc.
  - unfold Ast.appendDescendant.
    destruct node; try discriminate; simpl;
      (split; [now apply appendSelectors_scalar
              |now apply Selector_Apply_scalar]).
  - split; [now apply appendSelectors_scalar
           |now apply Selector_Apply_scalar].
Qed.

Lemma segments_of_nothing (segs : list Segment) :
  fold_left (fun res seg => applySegment ord seg res root) segs [] = []
  /\ fold_left (fun res seg => Segment_Apply ord seg res root) segs [] = [].
Proof.
  induction segs as [|[sels desc] segs IH]; simpl; [now split|].
  exact IH.
Qed.

End Scalars.

(** X15: a query with at least one segment selects nothing from a value
    that is neither an array nor an object (a number, a string, a
    boolean, null): [Select] and [SelectLocated] return empty lists, and
    so does the evaluator of the syntax tree.  Without segments the
    query selects the value itself. *)
Theorem scalar_has_nothing_to_select (ord : range_oracle) (q : PathQuery)
        (input : any) :
  structured input = false ->
  Segments q <> [] ->
  selectNodes ord q input = []
  /\ selectLocatedNodes ord q input = []
  /\ PathQuery_Select ord q input input = [].
Proof.
  intros Hn Hq.
  assert (H : selectNodes ord q input = []
              /\ PathQuery_Select ord q input input = []).
  { destruct q as [segs isRoot]. unfold selectNodes. simpl in *.
    replace (if negb isRoot then input else input) with input
      by now destruct isRoot.
    destruct segs as [|seg segs]; [congruence|]. simpl.
    destruct (applySegment_scalar ord input seg input Hn) as [-> ->].
    apply segments_of_nothing. }
  destruct H as [H1 H2]. repeat split; [exact H1| |exact H2].
  pose proof (LocatedFacts.selectLocatedNodes_values ord q input) as Hv.
  rewrite H1 in Hv. now apply map_eq_nil in Hv.
Qed.

Lemma scalar_has_nothing_to_select_witness :
  selectNodes in_order EvalProps.reversed_members (Str "y") = []
  /\ selectLocatedNodes in_order EvalProps.reversed_members (Str "y") = []
  /\ PathQuery_Select in_order EvalProps.reversed_members (Str "y") (Str "y")
     = [].
Proof.
  apply (scalar_has_nothing_to_select in_order EvalProps.reversed_members
           (Str "y")).
  - reflexivity.
  - discriminate.
Defined.

End ScalarProps.

(* ================================================================== *)
(** * The replacement of the dot in a regular expression *)
(* ================================================================== *)

Module RegexpProps.

Import Syntax Functions FunctionFacts.

Lemma replaceDot_without_dot (re : Regexp) :
  has_AnyChar re = false -> replaceDot re = re.
Proof.
  revert re. fix IH 1. intros [op sub rune]. simpl.
  destruct (is_AnyChar op); [discriminate|]. simpl. intros H. f_equal.
  induction sub as [|r sub IHsub]; simpl in *; [reflexivity|].
  apply orb_false_iff in H. destruct H as [Hr Hsub].
  rewrite (IH r Hr). now rewrite (IHsub Hsub).
Qed.

(** X16: [replaceDot] leaves no dot in a regular expression, at any
    depth; an expression without a dot is returned as it is, and so a
    second pass changes nothing. *)
Theorem replaceDot_leaves_no_dot (re : Regexp) :
  has_AnyChar (replaceDot re) = false
  /\ (if has_AnyChar re then True else replaceDot re = re)
  /\ replaceDot (replaceDot re) = replaceDot re.
Proof.
  split; [apply replaceDot_no_AnyChar|].
  split.
  - destruct (has_AnyChar re) eqn:E; [exact I|].
    now apply replaceDot_without_dot.
  - apply replaceDot_without_dot, replaceDot_no_AnyChar.
Qed.

End RegexpProps.

(* ================================================================== *)
(** * What a segment selects *)
(* ================================================================== *)

Module SegmentProps.

Import Ast JsonPath.

(** A value and the values inside it, in the order of the descent: the
    value first, then each child with what is inside it; the elements of
    an array in their order, the members of an object in the order the
    [range] visits them. *)
Fixpoint descendants (ord : range_oracle) (v : any) {struct v} : list any :=
  v :: match v with
       | Arr l => flat_map (descendants ord) l
       | Obj m =>
           List.concat
             (pick (ord m) (map (fun kv => descendants ord (snd kv)) m))
       | _ => []
       end.

Lemma flat_map_flat_map {A B C} (f : B -> list C) (g : A -> list B)
      (l : list A) :
  flat_map f (flat_map g l) = flat_map (fun x => flat_map f (g x)) l.
Proof.
  induction l as [|x l IH]; simpl; [reflexivity|].
  now rewrite flat_map_app, IH.
Qed.

Lemma flat_map_concat {A B} (f : A -> list B) (L : list (list A)) :
  flat_map f (List.concat L) = List.concat (map (flat_map f) L).
Proof.
  induction L as [|l L IH]; simpl; [reflexivity|].
  now rewrite flat_map_app, IH.
Qed.

Section Segments.

Variable ord : range_oracle.
Variable root : any.

(** The descent applies [app] to the value and to every value inside it,
    in the order of [descendants]. *)
Lemma descend_descendants (app : list any -> any -> list any) :
  (forall out n, app out n = out ++ app [] n) ->
  forall node,
    descend ord app [] node = flat_map (app []) (descendants ord node).
Proof.
  intros Happ.
  induction node as [| | | | | | |l IH|m IH] using any_ind';
    simpl; try (now rewrite app_nil_r).
  - rewrite (ListFacts.fold_left_appending_on
               (fun out v => descend ord app out v) l (app [] (Arr l))).
    + f_equal. rewrite flat_map_flat_map.
      induction IH as [|x l Hx _ IHl]; simpl; [reflexivity|].
      now rewrite Hx, IHl.
    + apply Forall_forall. intros x _ out.
      now apply AppendFacts.descend_appends.
  - f_equal. rewrite flat_map_concat. f_equal.
    rewrite <- ListFacts.pick_map, map_map. f_equal.
    apply map_ext_Forall. exact IH.
Qed.

Lemma applySegment_each (seg : Segment) (nodes : list any) :
  applySegment ord seg nodes root
  = flat_map (fun n => applySegment ord seg [n] root) nodes.
Proof.
  unfold applySegment.
  destruct nodes as [|n0 nodes]; [reflexivity|].
  replace (len (n0 :: nodes) =? 0) with false
    by (symmetry; apply Z.eqb_neq; unfold len; simpl; lia).
  destruct (IsDescendant seg).
  - rewrite ListFacts.fold_left_appending.
    + reflexivity.
    + intros out x. rewrite !TopLevelFacts.appendDescendant_descend.
      apply AppendFacts.descend_appends. intros out' n.
      apply TopLevelFacts.appendSelectors_appends.
  - rewrite ListFacts.fold_left_appending.
    + reflexivity.
    + intros out x. apply TopLevelFacts.appendSelectors_appends.
Qed.

End Segments.

(** X17: the result of a query is built segment by segment and selector
    by selector.  What a query with one more segment selects is the
    concatenation, over the nodes the shorter query selects and in their
    order, of what the last segment selects from each node; and what a
    child segment selects from a node is the concatenation of what its
    selectors select from it, in the order they are written. *)
Theorem segments_select_node_by_node (ord : range_oracle) (isRoot : bool)
        (segs : list Segment) (seg : Segment) (sels : list Selector)
        (node input : any) :
  selectNodes ord (NewPathQuery isRoot (segs ++ [seg])) input
  = flat_map (fun n => applySegment ord seg [n] input)
             (selectNodes ord (NewPathQuery isRoot segs) input)
  /\ applySegment ord (Child sels) [node] input
     = flat_map (fun s => appendSelector ord [] s node input) sels.
Proof.
  split.
  - unfold selectNodes. simpl. rewrite fold_left_app. simpl.
    apply applySegment_each.
  - unfold applySegment. simpl.
    now rewrite TopLevelFacts.top_appendSelectors_flat_map.
Qed.


End SegmentProps.
